(** * Workspace analyzer: ignore patterns, structural extraction, directory scan

    A shallow embedding of [src/workspace/analyzer.ts] (class
    [WorkspaceAnalyzer]) together with the parts of the JavaScript runtime it
    relies on: string primitives, the backtracking regular-expression
    matcher, [Array.prototype.sort] and Node's [path.extname].

    JavaScript strings are sequences of UTF-16 code units; they are modelled
    as lists of [N].  Literals are written with [u "..."]. *)

From Stdlib Require Import List NArith Arith Bool String Ascii Lia.
From Stdlib Require Import Permutation Sorted Setoid.
Import ListNotations.

Set Implicit Arguments.

(* ================================================================== *)
(** ** Strings of code units *)

Module Str.

Definition cu := N.
Definition ustring := list cu.

(** Code units of a literal. *)
Definition u (s : string) : ustring :=
  List.map N_of_ascii (list_ascii_of_string s).

(** The double-quote character, for sources that contain it. *)
Definition dq : string := String (ascii_of_nat 34) EmptyString.

Local Open Scope N_scope.

Definition cu_eqb (a b : cu) : bool := N.eqb a b.

Fixpoint ueqb (a b : ustring) : bool :=
  match a, b with
  | [], [] => true
  | x :: a', y :: b' => cu_eqb x y && ueqb a' b'
  | _, _ => false
  end.

Definition in_range (lo hi c : cu) : bool := N.leb lo c && N.leb c hi.

(** WhiteSpace and LineTerminator code points: what [\s] matches and what
    [String.prototype.trim] strips. *)
Definition is_space (c : cu) : bool :=
  in_range 9 13 c || cu_eqb c 32 || cu_eqb c 160 || cu_eqb c 5760
  || in_range 8192 8202 c || cu_eqb c 8232 || cu_eqb c 8233
  || cu_eqb c 8239 || cu_eqb c 8287 || cu_eqb c 12288 || cu_eqb c 65279.

(** LineTerminator: excluded by [.], recognised by [^] and [$] under the
    [m] flag. *)
Definition is_line_terminator (c : cu) : bool :=
  cu_eqb c 10 || cu_eqb c 13 || cu_eqb c 8232 || cu_eqb c 8233.

Definition is_digit (c : cu) : bool := in_range 48 57 c.

(** [\w]: ASCII letters, digits and underscore. *)
Definition is_word (c : cu) : bool :=
  in_range 97 122 c || in_range 65 90 c || is_digit c || cu_eqb c 95.

Fixpoint trimStart (s : ustring) : ustring :=
  match s with
  | c :: s' => if is_space c then trimStart s' else s
  | [] => []
  end.

Definition trimEnd (s : ustring) : ustring := rev (trimStart (rev s)).

(** [s.trim()] *)
Definition trim (s : ustring) : ustring := trimEnd (trimStart s).

(** [s.startsWith(p)] *)
Fixpoint startsWith (p s : ustring) : bool :=
  match p, s with
  | [], _ => true
  | x :: p', y :: s' => cu_eqb x y && startsWith p' s'
  | _ :: _, [] => false
  end.

(** [s.endsWith(p)] *)
Definition endsWith (p s : ustring) : bool := startsWith (rev p) (rev s).

(** [s.slice(i, e)] for indices within bounds. *)
Definition substring (i e : nat) (s : ustring) : ustring :=
  firstn (e - i)%nat (skipn i s).

(** [s.replace(/c/g, by)] for a one-character pattern. *)
Fixpoint replace1 (c : cu) (by_ : ustring) (s : ustring) : ustring :=
  match s with
  | [] => []
  | x :: s' => if cu_eqb x c then by_ ++ replace1 c by_ s' else x :: replace1 c by_ s'
  end.

(** [s.replace(/cc/g, by)] for a doubled character: matches are taken left
    to right and do not overlap. *)
Fixpoint replace2 (c : cu) (by_ : ustring) (s : ustring) : ustring :=
  match s with
  | x :: ((y :: s'') as s') =>
      if cu_eqb x c && cu_eqb y c then by_ ++ replace2 c by_ s''
      else x :: replace2 c by_ s'
  | _ => s
  end.

(** [s.split(c)] for a one-character separator. *)
Fixpoint split_aux (c : cu) (cur : ustring) (s : ustring) : list ustring :=
  match s with
  | [] => [rev cur]
  | x :: s' => if cu_eqb x c then rev cur :: split_aux c [] s' else split_aux c (x :: cur) s'
  end.

Definition split (c : cu) (s : ustring) : list ustring := split_aux c [] s.

(** [l.includes(x)] on an array of strings. *)
Definition includes (l : list ustring) (x : ustring) : bool :=
  existsb (ueqb x) l.

(** Code-unit order, the order of the default [Array.prototype.sort]. *)
Fixpoint ult (a b : ustring) : bool :=
  match a, b with
  | [], [] => false
  | [], _ :: _ => true
  | _ :: _, [] => false
  | x :: a', y :: b' => N.ltb x y || (cu_eqb x y && ult a' b')
  end.

Definition ule (a b : ustring) : bool := negb (ult b a).

Fixpoint insert_sorted (x : ustring) (l : list ustring) : list ustring :=
  match l with
  | [] => [x]
  | y :: l' => if ule x y then x :: l else y :: insert_sorted x l'
  end.

(** [names.sort()] *)
Definition sort (l : list ustring) : list ustring :=
  fold_right insert_sorted [] l.

(** ["  ".repeat(n)] and the like. *)
Fixpoint repeat_str (s : ustring) (n : nat) : ustring :=
  match n with
  | O => []
  | S n' => s ++ repeat_str s n'
  end.

End Str.
Import Str.

(* ================================================================== *)
(** ** Regular expressions: abstract syntax and the backtracking matcher

    The matcher follows the continuation semantics of the ECMAScript
    specification (section "Pattern Semantics"): a matcher takes a match
    state and a continuation, and the first successful path in priority
    order is the result.  Only the [g] and [m] flags occur in the program,
    so code units are compared exactly. *)

Module Regex.

(** Character class escapes. *)
Inductive cesc := EscSpace | EscWord | EscDigit.

(** Members of a bracketed class. *)
Inductive citem :=
| IChar (c : cu)
| IRange (lo hi : cu)
| IEsc (e : cesc) (negated : bool).

Inductive regex :=
| REmpty
| RChar (c : cu)
| RAny                                   (* [.] *)
| RSet (negated : bool) (items : list citem)
| RBol                                   (* [^] *)
| REol                                   (* [$] *)
| RSeq (r1 r2 : regex)
| RAlt (r1 r2 : regex)
| RQuant (min : nat) (max : option nat) (greedy : bool) (r : regex)
| RGroup (n : nat) (r : regex)           (* capturing group number [n] *)
| RLook (negated : bool) (r : regex).    (* [(?=r)] and [(?!r)] *)

Definition esc_matches (e : cesc) (c : cu) : bool :=
  match e with
  | EscSpace => is_space c
  | EscWord => is_word c
  | EscDigit => is_digit c
  end.

Definition item_matches (i : citem) (c : cu) : bool :=
  match i with
  | IChar d => cu_eqb c d
  | IRange lo hi => in_range lo hi c
  | IEsc e neg => xorb neg (esc_matches e c)
  end.

Definition set_matches (neg : bool) (items : list citem) (c : cu) : bool :=
  xorb neg (existsb (fun i => item_matches i c) items).

(** Capturing groups inside a regex: a quantifier resets them at each
    iteration. *)
Fixpoint groups (r : regex) : list nat :=
  match r with
  | RSeq r1 r2 | RAlt r1 r2 => groups r1 ++ groups r2
  | RQuant _ _ _ r' | RLook _ r' => groups r'
  | RGroup n r' => n :: groups r'
  | _ => []
  end.

(** A match state: the end index and the captures, each a pair of a start
    and an end index into the input. *)
Record mstate := MState { endIndex : nat; captures : list (nat * (nat * nat)) }.

Definition cont := mstate -> option mstate.

Definition set_capture (n : nat) (span : nat * nat) (x : mstate) : mstate :=
  MState (endIndex x)
         ((n, span) :: filter (fun p => negb (Nat.eqb (fst p) n)) (captures x)).

Definition clear_captures (ns : list nat) (x : mstate) : mstate :=
  MState (endIndex x)
         (filter (fun p => negb (existsb (Nat.eqb (fst p)) ns)) (captures x)).

Definition get_capture (n : nat) (caps : list (nat * (nat * nat))) : option (nat * nat) :=
  match find (fun p => Nat.eqb (fst p) n) caps with
  | Some p => Some (snd p)
  | None => None
  end.

Definition dec_max (max : option nat) : option nat :=
  match max with
  | Some n => Some (pred n)
  | None => None
  end.

Section Matcher.

Variable multiline : bool.
Variable inp : ustring.

(** A matcher that consumes one code unit satisfying [p]. *)
Definition char_matcher (p : cu -> bool) (x : mstate) (k : cont) : option mstate :=
  match nth_error inp (endIndex x) with
  | Some c => if p c then k (MState (S (endIndex x)) (captures x)) else None
  | None => None
  end.

Definition at_bol (x : mstate) : bool :=
  match endIndex x with
  | O => true
  | S i => multiline &&
           match nth_error inp i with
           | Some c => is_line_terminator c
           | None => false
           end
  end.

Definition at_eol (x : mstate) : bool :=
  match nth_error inp (endIndex x) with
  | None => Nat.eqb (endIndex x) (List.length inp)
  | Some c => multiline && is_line_terminator c
  end.

(** RepeatMatcher.  An iteration of a quantifier whose minimum is reached
    must consume input (the empty check), so [min] plus the number of code
    units left bounds the iterations; [fuel] is that bound. *)
Fixpoint repeat_matcher (fuel : nat) (m : mstate -> cont -> option mstate)
    (ns : list nat) (min : nat) (max : option nat) (greedy : bool)
    (x : mstate) (k : cont) : option mstate :=
  match max with
  | Some O => k x
  | _ =>
    match fuel with
    | O => match min with O => k x | S _ => None end
    | S fuel' =>
      let d := fun y =>
        if Nat.eqb min 0 && Nat.eqb (endIndex y) (endIndex x) then None
        else repeat_matcher fuel' m ns (pred min) (dec_max max) greedy y k in
      let xr := clear_captures ns x in
      match min with
      | S _ => m xr d
      | O =>
        if greedy then
          match m xr d with
          | Some z => Some z
          | None => k x
          end
        else
          match k x with
          | Some z => Some z
          | None => m xr d
          end
      end
    end
  end.

Fixpoint matcher (r : regex) (x : mstate) (k : cont) {struct r} : option mstate :=
  match r with
  | REmpty => k x
  | RChar c => char_matcher (cu_eqb c) x k
  | RAny => char_matcher (fun c => negb (is_line_terminator c)) x k
  | RSet neg items => char_matcher (set_matches neg items) x k
  | RBol => if at_bol x then k x else None
  | REol => if at_eol x then k x else None
  | RSeq r1 r2 => matcher r1 x (fun y => matcher r2 y k)
  | RAlt r1 r2 =>
      match matcher r1 x k with
      | Some z => Some z
      | None => matcher r2 x k
      end
  | RQuant min max greedy r' =>
      repeat_matcher (min + (List.length inp - endIndex x)) (matcher r')
                     (groups r') min max greedy x k
  | RGroup n r' =>
      matcher r' x (fun y => k (set_capture n (endIndex x, endIndex y) y))
  | RLook neg r' =>
      match matcher r' x Some with
      | Some y => if neg then None else k (MState (endIndex x) (captures y))
      | None => if neg then k x else None
      end
  end.

(** One attempt at index [i], then the following indices: the loop of
    RegExpBuiltinExec. *)
Fixpoint search_from (r : regex) (n : nat) (i : nat) : option (nat * mstate) :=
  match matcher r (MState i []) Some with
  | Some y => Some (i, y)
  | None =>
    match n with
    | O => None
    | S n' => search_from r n' (S i)
    end
  end.

End Matcher.

(** The result of a successful [exec]: where the match starts and ends and
    what the groups captured. *)
Record rmatch := RMatch { m_start : nat; m_end : nat; m_caps : list (nat * (nat * nat)) }.

(** [regex.exec(s)] starting at [lastIndex]. *)
Definition exec_at (multiline : bool) (r : regex) (s : ustring) (lastIndex : nat)
  : option rmatch :=
  if Nat.ltb (List.length s) lastIndex then None
  else match search_from multiline s r (List.length s - lastIndex) lastIndex with
       | Some (i, y) => Some (RMatch i (endIndex y) (captures y))
       | None => None
       end.

(** [regex.test(s)] for a regex without the [g] flag. *)
Definition test (multiline : bool) (r : regex) (s : ustring) : bool :=
  match exec_at multiline r s 0 with
  | Some _ => true
  | None => false
  end.

(** All matches of a [g] regex, as [s.matchAll(regex)] and
    [s.match(regex)] enumerate them: the search resumes at the end of the
    previous match, one further after an empty match. *)
Fixpoint match_all_from (multiline : bool) (r : regex) (s : ustring)
    (fuel : nat) (lastIndex : nat) : list rmatch :=
  match fuel with
  | O => []
  | S fuel' =>
    match exec_at multiline r s lastIndex with
    | None => []
    | Some mt =>
        mt :: match_all_from multiline r s fuel'
                (if Nat.eqb (m_end mt) (m_start mt) then S (m_end mt) else m_end mt)
    end
  end.

Definition matchAll (multiline : bool) (r : regex) (s : ustring) : list rmatch :=
  match_all_from multiline r s (S (List.length s)) 0.

(** [match[0]]: the matched text. *)
Definition matched (s : ustring) (mt : rmatch) : ustring :=
  substring (m_start mt) (m_end mt) s.

(** [match[n]]: the text of group [n], [None] for [undefined]. *)
Definition group (s : ustring) (mt : rmatch) (n : nat) : option ustring :=
  match get_capture n (m_caps mt) with
  | Some (i, e) => Some (substring i e s)
  | None => None
  end.

End Regex.

(* ================================================================== *)
(** ** Regular expressions: concrete syntax

    [new RegExp(source)] and regex literals.  The parser covers the syntax
    the program uses and produces: alternation, groups (capturing,
    non-capturing, lookahead), the quantifiers [*], [+], [?] and their lazy
    forms, bracketed classes, [.], [^], [$], the class escapes and identity
    escapes.  A source that JavaScript rejects is a [SyntaxError]; a source
    outside this fragment is [Unsupported]. *)

Module Parse.
Import Regex.

Inductive error := SyntaxError | Unsupported | OutOfFuel.

Inductive result (A : Type) :=
| Ok (a : A)
| Err (e : error).
Arguments Ok {A} a.
Arguments Err {A} e.

Definition ch (a : ascii) : cu := N_of_ascii a.
Definition is_ch (c : cu) (a : ascii) : bool := cu_eqb c (ch a).

Definition is_letter (c : cu) : bool :=
  in_range (ch "a") (ch "z") c || in_range (ch "A") (ch "Z") c.

Definition is_quantifier_start (s : ustring) : bool :=
  match s with
  | c :: _ => is_ch c "*" || is_ch c "+" || is_ch c "?"
  | [] => false
  end.

(** What an escape [\e] denotes, outside or inside a class. *)
Definition parse_escape (e : cu) : result citem :=
  if is_ch e "s" then Ok (IEsc EscSpace false)
  else if is_ch e "S" then Ok (IEsc EscSpace true)
  else if is_ch e "w" then Ok (IEsc EscWord false)
  else if is_ch e "W" then Ok (IEsc EscWord true)
  else if is_ch e "d" then Ok (IEsc EscDigit false)
  else if is_ch e "D" then Ok (IEsc EscDigit true)
  else if is_ch e "n" then Ok (IChar 10%N)
  else if is_ch e "t" then Ok (IChar 9%N)
  else if is_ch e "r" then Ok (IChar 13%N)
  else if is_ch e "f" then Ok (IChar 12%N)
  else if is_ch e "v" then Ok (IChar 11%N)
  else if is_letter e || is_digit e then Err Unsupported
  else Ok (IChar e).

Definition atom_of_item (i : citem) : regex :=
  match i with
  | IChar c => RChar c
  | _ => RSet false [i]
  end.

(** What a range [i-j] inside a class contributes: the range between two
    code units, an error when they are out of order; when either end is a
    class escape, the two ends and the hyphen. *)
Definition class_range (i j : citem) : result (list citem) :=
  match i, j with
  | IChar a, IChar b => if N.ltb b a then Err SyntaxError else Ok [IRange a b]
  | _, _ => Ok [i; IChar (ch "-"); j]
  end.

(** The members of a class, up to and including the closing bracket. *)
Fixpoint parse_class (s : ustring) (acc : list citem) : result (list citem * ustring) :=
  match s with
  | [] => Err SyntaxError
  | c :: s1 =>
    if is_ch c "]" then Ok (rev acc, s1)
    else if is_ch c "\" then
      match s1 with
      | [] => Err SyntaxError
      | e :: s2 =>
        match parse_escape e with
        | Err x => Err x
        | Ok i =>
          match s2 with
          | d :: h :: s4 =>
            if is_ch d "-" && negb (is_ch h "]") then
              if is_ch h "\" then
                match s4 with
                | [] => Err SyntaxError
                | e2 :: s5 =>
                  match parse_escape e2 with
                  | Err x => Err x
                  | Ok j =>
                    match class_range i j with
                    | Err x => Err x
                    | Ok items => parse_class s5 (rev items ++ acc)
                    end
                  end
                end
              else
                match class_range i (IChar h) with
                | Err x => Err x
                | Ok items => parse_class s4 (rev items ++ acc)
                end
            else parse_class s2 (i :: acc)
          | _ => parse_class s2 (i :: acc)
          end
        end
      end
    else
      match s1 with
      | d :: h :: s3 =>
        if is_ch d "-" && negb (is_ch h "]") then
          if is_ch h "\" then
            match s3 with
            | [] => Err SyntaxError
            | e2 :: s4 =>
              match parse_escape e2 with
              | Err x => Err x
              | Ok j =>
                match class_range (IChar c) j with
                | Err x => Err x
                | Ok items => parse_class s4 (rev items ++ acc)
                end
              end
            end
          else
            match class_range (IChar c) (IChar h) with
            | Err x => Err x
            | Ok items => parse_class s3 (rev items ++ acc)
            end
        else parse_class s1 (IChar c :: acc)
      | _ => parse_class s1 (IChar c :: acc)
      end
  end.

(** Decimal digits at the head of [s]; [None] when there is none. *)
Fixpoint parse_digits (s : ustring) (acc : option nat) : option nat * ustring :=
  match s with
  | c :: s' =>
    if is_digit c then
      parse_digits s' (Some (10 * match acc with Some n => n | None => 0 end
                             + N.to_nat (c - ch "0")))
    else (acc, s)
  | [] => (acc, s)
  end.

(** A braced quantifier [{n}], [{n,}] or [{n,m}] at the head of [s]: its
    bounds and what follows it.  [None] when [s] does not start with one. *)
Definition parse_braces (s : ustring) : option (nat * option nat * ustring) :=
  match s with
  | c :: s1 =>
    if is_ch c "{" then
      match parse_digits s1 None with
      | (Some n, d :: s2) =>
        if is_ch d "}" then Some (n, Some n, s2)
        else if is_ch d "," then
          match parse_digits s2 None with
          | (None, e :: s3) => if is_ch e "}" then Some (n, None, s3) else None
          | (Some m, e :: s3) => if is_ch e "}" then Some (n, Some m, s3) else None
          | _ => None
          end
        else None
      | _ => None
      end
    else None
  | [] => None
  end.

Definition is_braced_start (s : ustring) : bool :=
  match parse_braces s with
  | Some _ => true
  | None => false
  end.

Definition take_lazy (s : ustring) : bool * ustring :=
  match s with
  | c :: s' => if is_ch c "?" then (true, s') else (false, s)
  | [] => (false, s)
  end.

(** An optional quantifier after an atom.  The bounds of a braced
    quantifier are compared as they are written, as ECMA-262 has it; an
    engine that clamps large bounds before comparing them accepts sources
    that are rejected here. *)
Definition parse_quantifier (r : regex) (s : ustring) : result (regex * ustring) :=
  match parse_braces s with
  | Some (n, max, s1) =>
    if match max with Some m => Nat.ltb m n | None => false end then Err SyntaxError
    else let '(lz, rest) := take_lazy s1 in Ok (RQuant n max (negb lz) r, rest)
  | None =>
    match s with
    | q :: s1 =>
      let '(lz, rest) := take_lazy s1 in
      if is_ch q "*" then Ok (RQuant 0 None (negb lz) r, rest)
      else if is_ch q "+" then Ok (RQuant 1 None (negb lz) r, rest)
      else if is_ch q "?" then Ok (RQuant 0 (Some 1) (negb lz) r, rest)
      else Ok (r, s)
    | [] => Ok (r, s)
    end
  end.

(** After an assertion no quantifier may follow. *)
Definition no_quantifier (r : regex) (s : ustring) : result (regex * ustring) :=
  if is_braced_start s || is_quantifier_start s then Err SyntaxError
  else Ok (r, s).

Definition expect_close (s : ustring) : result ustring :=
  match s with
  | c :: s' => if is_ch c ")" then Ok s' else Err SyntaxError
  | [] => Err SyntaxError
  end.

Definition with_group (g : nat) (x : result (regex * ustring)) : result (regex * ustring * nat) :=
  match x with
  | Ok (r, s) => Ok (r, s, g)
  | Err e => Err e
  end.

(** Disjunction, Alternative and Term of the grammar; [g] is the number of
    the next capturing group. *)
Fixpoint parse_disjunction (fuel : nat) (s : ustring) (g : nat)
  : result (regex * ustring * nat) :=
  match fuel with
  | O => Err OutOfFuel
  | S f =>
    match parse_alternative f s g with
    | Err e => Err e
    | Ok (r1, rest, g1) =>
      match rest with
      | c :: rest' =>
        if is_ch c "|" then
          match parse_disjunction f rest' g1 with
          | Err e => Err e
          | Ok (r2, rest2, g2) => Ok (RAlt r1 r2, rest2, g2)
          end
        else Ok (r1, rest, g1)
      | [] => Ok (r1, rest, g1)
      end
    end
  end
with parse_alternative (fuel : nat) (s : ustring) (g : nat)
  : result (regex * ustring * nat) :=
  match fuel with
  | O => Err OutOfFuel
  | S f =>
    match s with
    | [] => Ok (REmpty, [], g)
    | c :: _ =>
      if is_ch c "|" || is_ch c ")" then Ok (REmpty, s, g)
      else
        match parse_term f s g with
        | Err e => Err e
        | Ok (r1, rest, g1) =>
          match parse_alternative f rest g1 with
          | Err e => Err e
          | Ok (r2, rest2, g2) => Ok (RSeq r1 r2, rest2, g2)
          end
        end
    end
  end
with parse_term (fuel : nat) (s : ustring) (g : nat)
  : result (regex * ustring * nat) :=
  match fuel with
  | O => Err OutOfFuel
  | S f =>
    match s with
    | [] => Err SyntaxError
    | c :: s1 =>
      if is_ch c "^" then with_group g (no_quantifier RBol s1)
      else if is_ch c "$" then with_group g (no_quantifier REol s1)
      else if is_ch c "*" || is_ch c "+" || is_ch c "?" || is_ch c ")" then Err SyntaxError
      else if is_ch c "." then with_group g (parse_quantifier RAny s1)
      else if is_braced_start s then Err SyntaxError
      else if is_ch c "\" then
        match s1 with
        | [] => Err SyntaxError
        | e :: s2 =>
          match parse_escape e with
          | Err x => Err x
          | Ok i => with_group g (parse_quantifier (atom_of_item i) s2)
          end
        end
      else if is_ch c "[" then
        let neg := match s1 with d :: _ => is_ch d "^" | [] => false end in
        match parse_class (if neg then tl s1 else s1) [] with
        | Err x => Err x
        | Ok (items, rest) => with_group g (parse_quantifier (RSet neg items) rest)
        end
      else if is_ch c "(" then
        match s1 with
        | q :: k :: s3 =>
          if is_ch q "?" then
            if is_ch k ":" then
              match parse_disjunction f s3 g with
              | Err x => Err x
              | Ok (r, rest, g1) =>
                match expect_close rest with
                | Err x => Err x
                | Ok rest' => with_group g1 (parse_quantifier r rest')
                end
              end
            else if is_ch k "=" || is_ch k "!" then
              match parse_disjunction f s3 g with
              | Err x => Err x
              | Ok (r, rest, g1) =>
                match expect_close rest with
                | Err x => Err x
                | Ok rest' =>
                  if is_quantifier_start rest' || is_braced_start rest'
                  then Err Unsupported
                  else Ok (RLook (is_ch k "!") r, rest', g1)
                end
              end
            else if is_ch k "<" then Err Unsupported
            else Err SyntaxError
          else
            match parse_disjunction f s1 (S g) with
            | Err x => Err x
            | Ok (r, rest, g1) =>
              match expect_close rest with
              | Err x => Err x
              | Ok rest' => with_group g1 (parse_quantifier (RGroup g r) rest')
              end
            end
        | _ =>
          match parse_disjunction f s1 (S g) with
          | Err x => Err x
          | Ok (r, rest, g1) =>
            match expect_close rest with
            | Err x => Err x
            | Ok rest' => with_group g1 (parse_quantifier (RGroup g r) rest')
            end
          end
        end
      else with_group g (parse_quantifier (RChar c) s1)
    end
  end.

(** [new RegExp(src)]. *)
Definition compile (src : ustring) : result regex :=
  match parse_disjunction (4 * S (List.length src)) src 1 with
  | Ok (r, [], _) => Ok r
  | Ok (_, _ :: _, _) => Err SyntaxError
  | Err e => Err e
  end.

(** A regex literal of the program; literals in the source are valid. *)
Definition literal (src : string) : regex :=
  match compile (u src) with
  | Ok r => r
  | Err _ => RSet false []
  end.

End Parse.

(* ================================================================== *)
(** ** The analyzer: ignore patterns *)

Module Analyzer.
Import Regex Parse.

(** What the program finds when it probes an optional file with
    [fs.access] and then [fs.readFile]. *)
Inductive probe :=
| Absent                        (* [access] rejects *)
| Unreadable                    (* [access] resolves, [readFile] rejects *)
| Present (content : ustring).

Definition defaultPatterns : list ustring :=
  [u "node_modules"; u ".git"; u "__pycache__"; u "*.pyc"; u "*.pyo";
   u "*.pyd"; u ".Python"; u "*.so"; u "env"; u "venv"; u ".env"; u ".venv";
   u "ENV"; u "env.bak"; u "venv.bak"].

(** The filter on the lines of the ignore-file. *)
Definition keep_line (line : ustring) : bool :=
  match line with
  | [] => false
  | _ =>
    if startsWith (u "#") line then false
    else if startsWith (u "!") line then false
    else true
  end.

(** [loadGitignorePatterns]; the argument is the state of
    [rootPath/.gitignore]. *)
Definition loadGitignorePatterns (gitignore : probe) : list ustring :=
  let '(patterns, hasGitignore) :=
    match gitignore with
    | Absent => ([], false)
    | Unreadable => ([], true)
    | Present content =>
        (filter keep_line (map trim (split 10%N content)), true)
    end in
  if hasGitignore then patterns ++ defaultPatterns
  else u ".*" :: defaultPatterns.

(** [s.replace(/\\/g, "/")] *)
Definition normalize_separators (s : ustring) : ustring :=
  replace1 (ch "\") (u "/") s.

Definition normalizePattern (pattern : ustring) : ustring :=
  let p0 := normalize_separators (trim pattern) in
  let p1 := if startsWith (u "/") p0 then tl p0 else p0 in
  if endsWith (u "/") p1 then removelast p1 else p1.

(** The chain of four [replace] calls. *)
Definition regexPattern (normalizedPattern : ustring) : ustring :=
  replace1 (ch "?") (u "[^/]")
    (replace1 (ch "*") (u "[^/]*")
       (replace2 (ch "*") (u ".*")
          (replace1 (ch ".") (u "\.") normalizedPattern))).

(** The four anchor forms, joined by [|]. *)
Definition regexSource (rp : ustring) : ustring :=
  u "^" ++ rp ++ u "$|" ++
  u "^" ++ rp ++ u "/|" ++
  u "^.*?/" ++ rp ++ u "$|" ++
  u "^.*?/" ++ rp ++ u "/.*$".

(** The callback of [patterns.some].  [Err SyntaxError] stands for the
    exception that [new RegExp] throws; [Err Unsupported] for a source that
    leaves the fragment of the syntax modelled here. *)
Definition pattern_test (normalizedPath : ustring) (pattern : ustring) : result bool :=
  match compile (regexSource (regexPattern (normalizePattern pattern))) with
  | Ok regex => Ok (test false regex normalizedPath)
  | Err e => Err e
  end.

(** [patterns.some(f)] for a callback that may throw. *)
Fixpoint some (f : ustring -> result bool) (patterns : list ustring) : result bool :=
  match patterns with
  | [] => Ok false
  | p :: rest =>
    match f p with
    | Err e => Err e
    | Ok true => Ok true
    | Ok false => some f rest
    end
  end.

Definition isIgnored (filePath : ustring) (patterns : list ustring) : result bool :=
  some (pattern_test (normalize_separators filePath)) patterns.

(* ================================================================== *)
(** ** The analyzer: structural extraction *)

Record FileAnalysis := mkFileAnalysis {
  imports : list ustring;
  functions : list ustring;
  classes : list ustring;
  exports : list ustring;
  methods : list ustring;
  components : list ustring
}.

Definition emptyAnalysis : FileAnalysis := mkFileAnalysis [] [] [] [] [] [].

(** A JavaScript value used as a condition: [undefined] and the empty
    string are falsy. *)
Definition truthy (v : option ustring) : option ustring :=
  match v with
  | Some ((_ :: _) as s) => Some s
  | _ => None
  end.

(** [a || b] on optional strings. *)
Definition or_else (a b : option ustring) : option ustring :=
  match truthy a with
  | Some s => Some s
  | None => b
  end.

(** The text of a group that takes part in every match. *)
Definition group1 (s : ustring) (mt : rmatch) : ustring :=
  match group s mt 1 with
  | Some g => g
  | None => []
  end.

(** The loop [for (const match of matches) if (match[1]) out.push(match[1])]. *)
Definition push_group1 (s : ustring) (matches : list rmatch) : list ustring :=
  flat_map (fun mt => match truthy (group s mt 1) with
                      | Some g => [g]
                      | None => []
                      end) matches.

(** [[...new Set(l)]]: insertion order, later repeats dropped. *)
Fixpoint set_add_all (seen : list ustring) (l : list ustring) : list ustring :=
  match l with
  | [] => seen
  | x :: l' => set_add_all (if includes seen x then seen else seen ++ [x]) l'
  end.

Definition new_Set (l : list ustring) : list ustring := set_add_all [] l.

(** *** C-family profile *)

Definition js_importRegex_src : string :=
  ("^import\s+(?:{(?:[\s\S](?!from))*\s*\}|\*\s+as\s+\w+)\s+from\s+["
           ++ dq ++ "'][^" ++ dq ++ "']+[" ++ dq ++ "']|^import\s+\w+\s+from\s+["
           ++ dq ++ "'][^" ++ dq ++ "']+[" ++ dq ++ "']").

Definition js_importRegex : regex := Eval vm_compute in literal js_importRegex_src.

Definition js_functionRegex_src : string :=
  "(?:export\s+)?(?:async\s+)?(?:function\s+([a-zA-Z_$][a-zA-Z0-9_$]*)|(?:const|let|var)\s+([a-zA-Z_$][a-zA-Z0-9_$]*)\s*=\s*(?:async\s+)?\([^)]*\)\s*=>)|(?:async\s+)?function\s+([a-zA-Z_$][a-zA-Z0-9_$]*)\s*\(".

Definition js_functionRegex : regex := Eval vm_compute in literal js_functionRegex_src.

Definition js_classRegex_src : string :=
  "(?:export\s+)?class\s+([a-zA-Z_$][a-zA-Z0-9_$]*)".

Definition js_classRegex : regex := Eval vm_compute in literal js_classRegex_src.

Definition js_methodRegex_src : string :=
  "(?:public|private|protected)?\s*(?:async\s+)?([a-zA-Z_$][a-zA-Z0-9_$]*)\s*\([^)]*\)\s*{".

Definition js_methodRegex : regex := Eval vm_compute in literal js_methodRegex_src.

(** The regex of the test applied to a method name. *)
Definition js_capitalRegex_src : string :=
  "[A-Z][a-zA-Z0-9]*".

Definition js_capitalRegex : regex := Eval vm_compute in literal js_capitalRegex_src.

Definition js_exportRegex_src : string :=
  "^export\s+(?:const|let|var|function|class|interface|type)\s+([a-zA-Z_$][a-zA-Z0-9_$]*)".

Definition js_exportRegex : regex := Eval vm_compute in literal js_exportRegex_src.

Definition js_reactComponentRegex_src : string :=
  "(?:const|let|var|function)\s+([A-Z][a-zA-Z0-9_$]*)\s*=\s*(?:\([^)]*\)\s*=>|\([^)]*\)\s*\{)".

Definition js_reactComponentRegex : regex := Eval vm_compute in literal js_reactComponentRegex_src.

Definition method_blocklist : list ustring :=
  [u "constructor"; u "if"; u "for"; u "while"; u "switch"; u "catch"].

(** The condition under which a method match is pushed. *)
Definition method_kept (name : ustring) : bool :=
  negb (includes method_blocklist name) && negb (test false js_capitalRegex name).

Definition js_imports (content : ustring) : list ustring :=
  map (fun mt => trim (matched content mt)) (matchAll true js_importRegex content).

Definition js_functions (content : ustring) : list ustring :=
  flat_map (fun mt =>
              match or_else (group content mt 1) (group content mt 2) with
              | Some funcName =>
                  match funcName with [] => [] | _ => [funcName] end
              | None => []
              end)
           (matchAll true js_functionRegex content).

Definition js_methods (content : ustring) : list ustring :=
  flat_map (fun mt =>
              match truthy (group content mt 1) with
              | Some name => if method_kept name then [name] else []
              | None => []
              end)
           (matchAll true js_methodRegex content).

(** *** Indentation-scripting profile *)

Definition py_importRegex_src : string :=
  "^(?:from\s+([^\s]+)\s+)?import\s+([^\s]+(?:,\s*[^\s]+)*)(?:\s+as\s+([^\s]+))?$".

Definition py_importRegex : regex := Eval vm_compute in literal py_importRegex_src.

Definition py_functionRegex_src : string :=
  "^def\s+([a-zA-Z_][a-zA-Z0-9_]*)\s*\(".

Definition py_functionRegex : regex := Eval vm_compute in literal py_functionRegex_src.

Definition py_classRegex_src : string :=
  "^class\s+([a-zA-Z_][a-zA-Z0-9_]*)\s*(?:\([^)]*\))?\s*:".

Definition py_classRegex : regex := Eval vm_compute in literal py_classRegex_src.

Definition py_methodRegex_src : string :=
  "^ {4}def\s+([a-zA-Z_][a-zA-Z0-9_]*)\s*\([^)]*\)\s*:".

Definition py_methodRegex : regex := Eval vm_compute in literal py_methodRegex_src.

(** The body of the [while] loop over the import matches: the entries one
    match contributes, from its three groups. *)
Definition expand_import (g1 g2 g3 : option ustring) : list ustring :=
  let fromModule :=
    match truthy g1 with
    | Some m => trim m ++ u "."
    | None => []
    end in
  let importedNames :=
    map trim (split (ch ",") (match g2 with Some s => s | None => [] end)) in
  let asName :=
    match truthy g3 with
    | Some a => u " as " ++ trim a
    | None => []
    end in
  map (fun name => u "import " ++ fromModule ++ name ++ asName) importedNames.

(** The [while] loop over [importRegex.exec(content)] visits the matches
    that [matchAll] enumerates: every match of this regex holds the word
    [import], so none is empty. *)
Definition py_imports (content : ustring) : list ustring :=
  flat_map (fun mt => expand_import (group content mt 1) (group content mt 2)
                                    (group content mt 3))
           (matchAll true py_importRegex content).

Definition py_functions (content : ustring) : list ustring :=
  new_Set (map (group1 content) (matchAll true py_functionRegex content)).

Definition py_methods (content : ustring) : list ustring :=
  new_Set (map (group1 content) (matchAll true py_methodRegex content)).

Definition js_exts : list ustring := [u ".js"; u ".ts"; u ".jsx"; u ".tsx"].

Definition analyzeFileContent (content ext : ustring) : FileAnalysis :=
  if includes js_exts ext then
    {| imports := js_imports content;
       functions := js_functions content;
       classes := push_group1 content (matchAll true js_classRegex content);
       exports := push_group1 content (matchAll true js_exportRegex content);
       methods := js_methods content;
       components := push_group1 content (matchAll true js_reactComponentRegex content) |}
  else if ueqb ext (u ".py") then
    {| imports := py_imports content;
       functions := py_functions content;
       classes := push_group1 content (matchAll true py_classRegex content);
       exports := [];
       methods := py_methods content;
       components := [] |}
  else emptyAnalysis.

(* ================================================================== *)
(** ** The analyzer: rendering and directory scan *)

Definition nl : ustring := [10%N].

(** One labelled list of [formatAnalysis]; nothing for an empty field. *)
Definition format_field (label : string) (items : list ustring) (indent : ustring)
  : ustring :=
  match items with
  | [] => []
  | _ =>
    indent ++ u "  - " ++ u label ++ u ":" ++ nl ++
    flat_map (fun item => indent ++ u "    - " ++ item ++ nl) items
  end.

Definition formatAnalysis (analysis : FileAnalysis) (indent : ustring) : ustring :=
  format_field "Imports" (imports analysis) indent ++
  format_field "Exports" (exports analysis) indent ++
  format_field "Functions" (functions analysis) indent ++
  format_field "Classes" (classes analysis) indent ++
  format_field "Methods" (methods analysis) indent ++
  format_field "Components" (components analysis) indent.

(** Index of the last dot of a name. *)
Fixpoint last_dot (s : ustring) (i : nat) (found : option nat) : option nat :=
  match s with
  | [] => found
  | c :: s' => last_dot s' (S i) (if is_ch c "." then Some i else found)
  end.

(** Node's [path.extname] on an entry name (a name holds no separator):
    from the last dot to the end, empty when there is no dot, when the only
    dot leads the name, and for [..]. *)
Definition extname (file : ustring) : ustring :=
  match last_dot file 0 None with
  | None => []
  | Some O => []
  | Some i => if ueqb file (u "..") then [] else skipn i file
  end.

Definition analysed_exts : list ustring :=
  [u ".js"; u ".ts"; u ".jsx"; u ".tsx"; u ".vue"; u ".py"].

(** The two glyphs, as UTF-16 surrogate pairs. *)
Definition folder_glyph : ustring := [55357%N; 56513%N].
Definition file_glyph : ustring := [55357%N; 56516%N].

(** A snapshot of the file tree below a path.  [EFile None] is a file whose
    [readFile] rejects; [EDir None] a directory whose [readdir] rejects; an
    entry listed with [None] is one whose [stat] rejects.  The listing is in
    the order in which [readdir] enumerates it. *)
#[warnings="-register-all"] Inductive entry :=
| EFile (body : option ustring)
| EDir (listing : option (list (ustring * option entry))).

(** What [stat] and the later calls give for one name of a directory: a
    directory with the text its scan produces at a given level, or a file
    with its body. *)
Inductive scanned :=
| KDir (sub : nat -> ustring)
| KFile (body : option ustring).

Fixpoint lookup {A : Type} (name : ustring) (table : list (ustring * A)) : option A :=
  match table with
  | [] => None
  | (n, a) :: rest => if ueqb n name then Some a else lookup name rest
  end.

(** One iteration of the [for] loop: the content after it, and whether it
    threw (which ends the loop in the [catch] clause).  The path of an entry
    relative to the directory being scanned is its name. *)
Definition scan_entry (ignorePatterns : list ustring) (level : nat)
    (table : list (ustring * option scanned)) (file : ustring) (content : ustring)
  : ustring * bool :=
  let indent := repeat_str (u "  ") level in
  match lookup file table with
  | None | Some None => (content, true)
  | Some (Some stats) =>
    match isIgnored file ignorePatterns with
    | Err _ => (content, true)
    | Ok true => (content, false)
    | Ok false =>
      match stats with
      | KDir sub =>
          (content ++ indent ++ u "- " ++ folder_glyph ++ u " " ++ file ++ u "/" ++ nl
                   ++ sub (level + 1), false)
      | KFile body =>
          let ext := extname file in
          let content1 := content ++ indent ++ u "- " ++ file_glyph ++ u " " ++ file ++ nl in
          if includes analysed_exts ext then
            match body with
            | None => (content1, true)
            | Some fileContent =>
                (content1 ++ formatAnalysis (analyzeFileContent fileContent ext) indent,
                 false)
            end
          else (content1, false)
      end
    end
  end.

(** The [for] loop over the sorted names. *)
Fixpoint scan_loop (ignorePatterns : list ustring) (level : nat)
    (table : list (ustring * option scanned)) (files : list ustring)
    (content : ustring) : ustring * bool :=
  match files with
  | [] => (content, false)
  | file :: rest =>
    match scan_entry ignorePatterns level table file content with
    | (content', true) => (content', true)
    | (content', false) => scan_loop ignorePatterns level table rest content'
    end
  end.

(** What [stat] tells about one entry, given the scan of directories. *)
Definition stat_entry (scan : entry -> nat -> ustring) (e : option entry)
  : option scanned :=
  match e with
  | None => None
  | Some e' =>
      Some match e' with
           | EFile body => KFile body
           | EDir _ => KDir (scan e')
           end
  end.

Definition stat_all (scan : entry -> nat -> ustring)
    (listing : list (ustring * option entry)) : list (ustring * option scanned) :=
  map (fun p => (fst p, stat_entry scan (snd p))) listing.

(** [scanDirectory(dirPath, ignorePatterns, level)], where [dir] is what
    lies at [dirPath].  Whatever the loop threw, the content accumulated so
    far is returned. *)
Fixpoint scanDirectory (ignorePatterns : list ustring) (dir : entry) (level : nat)
  {struct dir} : ustring :=
  match dir with
  | EFile _ => []
  | EDir None => []
  | EDir (Some listing) =>
    fst (scan_loop ignorePatterns level
           (stat_all (scanDirectory ignorePatterns) listing)
           (sort (map fst listing)) [])
  end.

(* ================================================================== *)
(** ** The analyzer: document assembly and the generation run *)

(** What a run finds at the workspace root. *)
Record workspace := mkWorkspace {
  rootPath : ustring;
  gitignore : probe;
  packageJson : probe;
  requirementsTxt : probe;
  pyprojectToml : probe;
  root : entry
}.

(** The host of a run: the workspace folder if one is open, the two
    configuration values, and whether the calls that persist and show the
    document succeed. *)
Record host := mkHost {
  folder : option workspace;
  outputPath : option ustring;
  structureFileName : option ustring;
  mkdir_ok : bool;
  writeFile_ok : bool;
  show_ok : bool
}.

(** The message shown at the end of a run. *)
Inductive notice :=
| NoFolder            (* "Please open a folder first" *)
| Success             (* "Workspace structure has been generated successfully!" *)
| Failed.             (* "Failed to generate workspace structure: ..." *)

(** What a run leaves behind: the file written, as path and content, and
    the message shown. *)
Record outcome := mkOutcome {
  written : option (ustring * ustring);
  shown : notice
}.

Section Assembler.

(** The text the Project Info block appends for a [package.json] content,
    through [JSON.parse] and the three property reads, whether they throw
    or not. *)
Variable project_info : ustring -> ustring.

(** Node's [path.join]. *)
Variable path_join : list ustring -> ustring.

Definition fence : ustring := u "```".

(** One round of the loop over the configuration files. *)
Definition config_section (configFile : string) (p : probe) : ustring :=
  match p with
  | Present content =>
      u "### " ++ u configFile ++ nl ++ fence ++ nl ++ content ++ nl ++ fence ++ nl ++ nl
  | _ => []
  end.

Definition analyzeWorkspace (w : workspace) : ustring :=
  let ignorePatterns := loadGitignorePatterns (gitignore w) in
  u "# Workspace Structure" ++ nl ++ nl ++
  u "Files listed in .gitignore will be excluded." ++ nl ++ nl ++
  match packageJson w with
  | Present content => project_info content
  | _ => []
  end ++
  u "## Configuration Files" ++ nl ++ nl ++
  config_section "requirements.txt" (requirementsTxt w) ++
  config_section "pyproject.toml" (pyprojectToml w) ++
  config_section "package.json" (packageJson w) ++
  u "## File Structure" ++ nl ++ nl ++
  scanDirectory ignorePatterns (root w) 0.

Definition generateStructure (h : host) : outcome :=
  match folder h with
  | None => mkOutcome None NoFolder
  | Some workspaceFolder =>
    let outputDir := match truthy (outputPath h) with Some d => d | None => [] end in
    let fileName :=
      match truthy (structureFileName h) with
      | Some f => f
      | None => u "workspace-structure.md"
      end in
    let documentation := analyzeWorkspace workspaceFolder in
    let finalOutputPath := path_join [rootPath workspaceFolder; outputDir; fileName] in
    if negb (mkdir_ok h) then mkOutcome None Failed
    else if negb (writeFile_ok h) then mkOutcome None Failed
    else if negb (show_ok h) then mkOutcome (Some (finalOutputPath, documentation)) Failed
    else mkOutcome (Some (finalOutputPath, documentation)) Success
  end.

End Assembler.

End Analyzer.

Import Regex Parse Analyzer.

(* ================================================================== *)
(** ** The terminal logger

    The computations of [src/terminal/logger.ts] (class [TerminalLogger]):
    what is kept of an existing log, how an execution is turned into an
    entry, and what a save appends.  The asynchronous methods are cut at
    their [await] points; each piece below runs without interruption. *)

Module Logger.
Import Regex Parse Analyzer.

Definition MAX_LINES : nat := 1000.

(** [entry.trim()] used as a condition. *)
Definition nonblank (entry : ustring) : bool :=
  match trim entry with
  | [] => false
  | _ :: _ => true
  end.

(** [if (data.length > MAX_LINES) data = data.slice(-MAX_LINES)] *)
Definition keep_last (data : list ustring) : list ustring :=
  if Nat.ltb MAX_LINES (List.length data)
  then skipn (List.length data - MAX_LINES) data
  else data.

(** [startLogging], after the log file is read: its non-blank lines, cut to
    the last [MAX_LINES] of them. *)
Definition load_entries (content : ustring) : list ustring :=
  keep_last (filter nonblank (split 10%N content)).

(** [l.join(sep)] *)
Fixpoint join (sep : ustring) (l : list ustring) : ustring :=
  match l with
  | [] => []
  | [x] => x
  | x :: l' => x ++ sep ++ join sep l'
  end.

(** The text that a save appends to the log file. *)
Definition save_text (recordedData : list ustring) : ustring :=
  join nl recordedData ++ nl.

(** The text of [s] outside the matches [ms], from [pos] on. *)
Fixpoint remove_matches (s : ustring) (pos : nat) (ms : list rmatch) : ustring :=
  match ms with
  | [] => skipn pos s
  | mt :: ms' => substring pos (m_start mt) s ++ remove_matches s (m_end mt) ms'
  end.

(** [s.replace(regex, "")] for a [g] regex: every match is removed. *)
Definition remove_all (multiline : bool) (r : regex) (s : ustring) : ustring :=
  remove_matches s 0 (matchAll multiline r s).

(** The control characters that the patterns name by [\x1b], [\x9b] and
    [\x07], written in the sources below as the code units they denote. *)
Definition ESC : string := String (ascii_of_nat 27) EmptyString.
Definition CSI : string := String (ascii_of_nat 155) EmptyString.
Definition BEL : string := String (ascii_of_nat 7) EmptyString.

Definition ansiRegex_src : string :=
  "[" ++ ESC ++ CSI ++ "][[()#;?]*(?:[0-9]{1,4}(?:;[0-9]{0,4})*)?[0-9A-ORZcf-nqry=><~]".

Definition ansiRegex : regex := Eval vm_compute in literal ansiRegex_src.

Definition oscRegex_src : string := "\]633;[^" ++ BEL ++ "]*" ++ BEL.

Definition oscRegex : regex := Eval vm_compute in literal oscRegex_src.

Definition pasteModeRegex_src : string := "\[(\?2004[hl]|\?2004l)\]".

Definition pasteModeRegex : regex := Eval vm_compute in literal pasteModeRegex_src.

Definition promptMarkRegex_src : string := "\[1m\[7m%\[27m\[1m\[0m".

Definition promptMarkRegex : regex := Eval vm_compute in literal promptMarkRegex_src.

Definition trailingBlankRegex_src : string := "[ \t]+$".

Definition trailingBlankRegex : regex :=
  Eval vm_compute in literal trailingBlankRegex_src.

(** The chain of five [replace] calls and the final [trim] applied to the
    output of a command. *)
Definition clean_output (commandOutput : ustring) : ustring :=
  trim
    (remove_all true trailingBlankRegex
       (remove_all false promptMarkRegex
          (remove_all false pasteModeRegex
             (remove_all false oscRegex
                (remove_all false ansiRegex commandOutput))))).

(** The entry recorded for an execution whose stream has been read. *)
Definition execution_entry (timestamp : ustring) (commandLine : option ustring)
    (rawOutput : ustring) : ustring :=
  let commandOutput := clean_output rawOutput in
  let logEntry :=
    match truthy commandLine with
    | Some value => u "[" ++ timestamp ++ u "] Command: " ++ value
    | None => u "[" ++ timestamp ++ u "] Execution detected"
    end in
  match commandOutput with
  | [] => logEntry
  | _ :: _ => logEntry ++ nl ++ commandOutput
  end.

(** The fields of the logger that the recording and the saving touch. *)
Record logger := mkLogger {
  isLogging : bool;
  recordedData : list ustring;
  hasUnsavedChanges : bool
}.

(** [startLogging] from the point where [readFile] has settled ([None]: it
    rejected) to the point where logging is on. *)
Definition start_loaded (read : option ustring) (st : logger) : logger :=
  mkLogger true
           match read with
           | Some content => load_entries content
           | None => []
           end
           (hasUnsavedChanges st).

(** [this.recordedData.push(logEntry); this.hasUnsavedChanges = true]. *)
Definition record (logEntry : ustring) (st : logger) : logger :=
  mkLogger (isLogging st) (recordedData st ++ [logEntry]) true.

(** The handler of a started execution, from the point where its stream
    has been read ([None]: reading threw).  The handler returned earlier
    when logging was off or the command line starts with [ls]. *)
Definition record_execution (timestamp : ustring) (commandLine : option ustring)
    (stream : option ustring) (st : logger) : logger :=
  match stream with
  | Some rawOutput => record (execution_entry timestamp commandLine rawOutput) st
  | None => st
  end.

(** The save callback up to its [appendFile]: the text to append, if there
    is something to save. *)
Definition save_begin (st : logger) : option ustring :=
  if hasUnsavedChanges st && negb (Nat.eqb (List.length (recordedData st)) 0)
  then Some (save_text (recordedData st))
  else None.

(** The save callback after a successful [appendFile]. *)
Definition save_done (st : logger) : logger :=
  mkLogger (isLogging st) [] false.

End Logger.

(* ================================================================== *)
(** * Vocabulary of the properties

    Predicates, reference definitions in the words of the specification,
    and sample inputs used by the statements below. *)

(** [s] ends with [suffix]. *)
Definition has_suffix (suffix s : ustring) : Prop :=
  exists prefix, s = prefix ++ suffix.

(** First-seen order, in the words of the specification: an entry stays at
    its first occurrence and its later repeats are discarded. *)
Fixpoint first_seen (l : list ustring) : list ustring :=
  match l with
  | [] => []
  | x :: l' => x :: filter (fun y => negb (ueqb y x)) (first_seen l')
  end.


(** An upper-case ASCII letter. *)
Definition is_upper (c : cu) : bool := in_range (ch "A") (ch "Z") c.

(** A stand-in for [path.join] in examples: plain concatenation. *)
Definition join_plain (parts : list ustring) : ustring := List.concat parts.

(** A host whose workspace root cannot be listed, everything else going
    well. *)
Definition unreadable_root_host : host :=
  mkHost (Some (mkWorkspace (u "/w/") Absent Absent Absent Absent (EDir None)))
         None None true true true.

(** The line emitted for a file. *)
Definition file_line (level : nat) (file : ustring) : ustring :=
  repeat_str (u "  ") level ++ u "- " ++ file_glyph ++ u " " ++ file ++ nl.



(** Content made of white space only; the empty content is one. *)
Definition whitespace (s : ustring) : Prop := Forall (fun c => is_space c = true) s.

(** A member of a class that no white-space code unit satisfies. *)
Definition item_nonspace (i : citem) : bool :=
  match i with
  | IChar c => negb (is_space c)
  | IRange lo hi => N.ltb 32 lo && N.ltb hi 160
  | IEsc EscSpace true => true
  | IEsc EscWord false => true
  | IEsc EscDigit false => true
  | _ => false
  end.

(** The class escape [\s]. *)
Definition is_space_escape (i : citem) : bool :=
  match i with
  | IEsc EscSpace false => true
  | _ => false
  end.

(** A class that no white-space code unit satisfies. *)
Definition set_nonspace (neg : bool) (items : list citem) : bool :=
  if neg then existsb is_space_escape items else forallb item_nonspace items.

(** A syntactic check: every match of the regex consumes a code unit that
    is not white space. *)
Fixpoint needs_nonspace (r : regex) : bool :=
  match r with
  | RChar c => negb (is_space c)
  | RSet neg items => set_nonspace neg items
  | RSeq r1 r2 => needs_nonspace r1 || needs_nonspace r2
  | RAlt r1 r2 => needs_nonspace r1 && needs_nonspace r2
  | RQuant (S _) max _ r' =>
      match max with
      | Some O => false
      | _ => needs_nonspace r'
      end
  | RGroup _ r' => needs_nonspace r'
  | _ => false
  end.

(** Turns boolean facts on code units into arithmetic ones. *)
Ltac bool_to_prop :=
  unfold is_space, is_word, is_digit, in_range, cu_eqb in *;
  repeat rewrite ?orb_true_iff, ?andb_true_iff, ?N.leb_le, ?N.eqb_eq, ?N.ltb_lt,
    ?negb_true_iff, ?orb_false_iff, ?andb_false_iff, ?N.leb_gt, ?N.eqb_neq,
    ?N.ltb_ge in *.

(** The four anchor forms of the specification. *)
Inductive anchor := FullPath | DirectoryPrefix | BasenameSuffix | NestedPrefix.




(** Lexicographic order on names, by code unit. *)
Definition in_order (a b : ustring) : Prop := ule a b = true.

(** Two snapshots of the same tree that differ only in the order in which
    each directory is enumerated. *)
Inductive reordered : entry -> entry -> Prop :=
| reordered_file body : reordered (EFile body) (EFile body)
| reordered_unlisted : reordered (EDir None) (EDir None)
| reordered_dir l l' :
    reordered_listing l l' -> reordered (EDir (Some l)) (EDir (Some l'))
with reordered_listing :
  list (ustring * option entry) -> list (ustring * option entry) -> Prop :=
| reordered_nil : reordered_listing [] []
| reordered_cons name e e' l l' :
    reordered_stat e e' -> reordered_listing l l' ->
    reordered_listing ((name, e) :: l) ((name, e') :: l')
| reordered_swap x y l : reordered_listing (x :: y :: l) (y :: x :: l)
| reordered_trans l1 l2 l3 :
    reordered_listing l1 l2 -> reordered_listing l2 l3 -> reordered_listing l1 l3
with reordered_stat : option entry -> option entry -> Prop :=
| reordered_nostat : reordered_stat None None
| reordered_some e e' : reordered e e' -> reordered_stat (Some e) (Some e').

Scheme reordered_mut := Minimality for reordered Sort Prop
  with reordered_listing_mut := Minimality for reordered_listing Sort Prop
  with reordered_stat_mut := Minimality for reordered_stat Sort Prop.

Combined Scheme reordered_mutind
  from reordered_mut, reordered_listing_mut, reordered_stat_mut.

(** In a file tree the names of a directory are pairwise distinct. *)
#[warnings="-register-all"] Inductive distinct_names : entry -> Prop :=
| distinct_file body : distinct_names (EFile body)
| distinct_unlisted : distinct_names (EDir None)
| distinct_dir l :
    NoDup (map fst l) ->
    Forall (fun p => forall e, snd p = Some e -> distinct_names e) l ->
    distinct_names (EDir (Some l)).

(** The same, for the entries of a listing. *)
Definition distinct_listing (l : list (ustring * option entry)) : Prop :=
  Forall (fun p => forall e, snd p = Some e -> distinct_names e) l.

(** What the loop sees of an entry, up to the level passed to a
    sub-scan. *)
Inductive same_stat : option (option scanned) -> option (option scanned) -> Prop :=
| same_missing : same_stat None None
| same_nostat : same_stat (Some None) (Some None)
| same_file body : same_stat (Some (Some (KFile body))) (Some (Some (KFile body)))
| same_dir s s' :
    (forall level, s level = s' level) ->
    same_stat (Some (Some (KDir s))) (Some (Some (KDir s'))).

(** The workspace [w] with another snapshot of its tree, and the host [h]
    with another workspace. *)
Definition with_root (w : workspace) (e : entry) : workspace :=
  mkWorkspace (rootPath w) (gitignore w) (packageJson w) (requirementsTxt w)
              (pyprojectToml w) e.

Definition with_folder (h : host) (w : workspace) : host :=
  mkHost (Some w) (outputPath h) (structureFileName h) (mkdir_ok h)
         (writeFile_ok h) (show_ok h).

(** One tree, enumerated in two orders at both of its levels. *)
Definition enumerated_one_way : entry :=
  EDir (Some [(u "b.txt", Some (EFile None));
              (u "a", Some (EDir (Some [(u "y", None);
                                        (u "x.md", Some (EFile (Some [])))])))]).

Definition enumerated_other_way : entry :=
  EDir (Some [(u "a", Some (EDir (Some [(u "x.md", Some (EFile (Some [])));
                                        (u "y", None)])));
              (u "b.txt", Some (EFile None))]).

(** The outcome of a parsing function is settled: it is not the exhaustion
    of the fuel, and what is left to parse is at most [bound] long. *)
Definition settled (bound : nat) (x : result (regex * ustring * nat)) : Prop :=
  match x with
  | Ok (_, rest, _) => List.length rest <= bound
  | Err e => e <> OutOfFuel
  end.

(** Closes an equation between two runs of one matcher [m] whose
    continuations agree ([Hd]) on the states that [m] can reach. *)
Ltac same_runs Hm Hx Hd :=
  match goal with
  | |- ?m ?a ?d1 = ?m ?a ?d2 => apply Hm; [exact Hx | exact Hd]
  | |- match ?m ?a ?d1 with Some _ => _ | None => _ end = _ =>
      let E := fresh "E" in
      match goal with
      | |- _ = match ?m' ?a' ?d2 with Some _ => _ | None => _ end =>
          assert (E : m a d1 = m' a' d2) by (apply Hm; [exact Hx | exact Hd]);
          rewrite E; reflexivity
      end
  | |- match ?kx with Some _ => _ | None => _ end = _ =>
      destruct kx; [reflexivity|]; apply Hm; [exact Hx | exact Hd]
  end.

(** A matcher moves forward on [inp]: it calls its continuation only on
    states whose end index lies between the current one and the end of the
    input. *)
Definition forward (inp : ustring) (m : mstate -> cont -> option mstate) : Prop :=
  forall x k1 k2,
    endIndex x <= List.length inp ->
    (forall y, endIndex x <= endIndex y <= List.length inp -> k1 y = k2 y) ->
    m x k1 = m x k2.

(** [t] occurs in [s] as a contiguous piece. *)
Definition infix_of (t s : ustring) : Prop := exists a b, s = a ++ t ++ b.

(** [s] starts with [prefix]. *)
Definition has_prefix (prefix s : ustring) : Prop := exists rest, s = prefix ++ rest.

(** A string with no white space at either end. *)
Definition no_outer_space (s : ustring) : Prop :=
  (forall c rest, s = c :: rest -> is_space c = false) /\
  (forall c front, s = front ++ [c] -> is_space c = false).

(** The length of the longest prefix of [l] whose code units satisfy [p]. *)
Fixpoint run_length (p : cu -> bool) (l : ustring) : nat :=
  match l with
  | c :: l' => if p c then S (run_length p l') else 0
  | [] => 0
  end.

(** The regex compiled for the catch-all rule [.*] that is added when there
    is no ignore-file. *)
Definition dotfile_rule_regex : regex :=
  Eval vm_compute in
    match compile (regexSource (regexPattern (normalizePattern (u ".*")))) with
    | Ok r => r
    | Err _ => REmpty
    end.

(** [t] is obtained from [s] by deleting code units. *)
Inductive subseq : ustring -> ustring -> Prop :=
| subseq_nil : subseq [] []
| subseq_keep c t s : subseq t s -> subseq (c :: t) (c :: s)
| subseq_drop c t s : subseq t s -> subseq t (c :: s).

(** Matches that follow one another from [pos] on without overlap. *)
Fixpoint ordered_from (pos : nat) (ms : list rmatch) : Prop :=
  match ms with
  | [] => True
  | mt :: ms' =>
      pos <= m_start mt /\ m_start mt <= m_end mt /\ ordered_from (m_end mt) ms'
  end.

(** An entry that fits on one line. *)
Definition single_line (entry : ustring) : Prop := ~ In 10%N entry.

(** Code units that stand for themselves in the source of a regex. *)
Definition plain (c : cu) : bool :=
  negb (is_ch c "\" || is_ch c "^" || is_ch c "$" || is_ch c "." || is_ch c "*"
        || is_ch c "+" || is_ch c "?" || is_ch c "(" || is_ch c ")"
        || is_ch c "[" || is_ch c "]" || is_ch c "{" || is_ch c "}"
        || is_ch c "|").

(** A rule that names entries literally: plain code units and dots. *)
Definition literal_unit (c : cu) : bool := plain c || is_ch c ".".

Definition literal_name (w : ustring) : bool := forallb literal_unit w.

(** What the translation makes of a literal name: its dots escaped. *)
Definition escape_dots (w : ustring) : ustring :=
  flat_map (fun c => if is_ch c "." then u "\." else [c]) w.

(** The regex that matches the code units of [w], then [k]. *)
Fixpoint chars (w : ustring) (k : regex) : regex :=
  match w with
  | [] => k
  | c :: w' => RSeq (RChar c) (chars w' k)
  end.

Definition lazy_any : regex := RQuant 0 None false RAny.
Definition greedy_any : regex := RQuant 0 None true RAny.

(** The regex of one anchor form for a rule whose translation parses to
    [body K] when [K] follows it. *)
Definition form_of (a : anchor) (body : regex -> regex) : regex :=
  match a with
  | FullPath => RSeq RBol (body (RSeq REol REmpty))
  | DirectoryPrefix => RSeq RBol (body (RSeq (RChar (ch "/")) REmpty))
  | BasenameSuffix =>
      RSeq RBol (RSeq lazy_any (RSeq (RChar (ch "/")) (body (RSeq REol REmpty))))
  | NestedPrefix =>
      RSeq RBol
        (RSeq lazy_any
           (RSeq (RChar (ch "/"))
              (body (RSeq (RChar (ch "/")) (RSeq greedy_any (RSeq REol REmpty))))))
  end.

Definition rule_alternation (body : regex -> regex) : regex :=
  RAlt (form_of FullPath body)
    (RAlt (form_of DirectoryPrefix body)
       (RAlt (form_of BasenameSuffix body) (form_of NestedPrefix body))).

(** The regex of one anchor form for a literal name. *)
Definition form (a : anchor) (w : ustring) : regex := form_of a (chars w).

Definition literal_regex (w : ustring) : regex := rule_alternation (chars w).

(** A source text that does not start with a quantifier. *)
Definition quiet (s : ustring) : bool :=
  match s with
  | d :: _ => negb (is_ch d "*" || is_ch d "+" || is_ch d "?" || is_ch d "{")
  | [] => true
  end.

(** A text without line terminators. *)
Definition one_line (s : ustring) : Prop :=
  Forall (fun c => is_line_terminator c = false) s.

(** The name of a directory entry: a text without separators. *)
Definition entry_name (s : ustring) : bool :=
  forallb (fun c => negb (is_ch c "/") && negb (is_ch c "\")) s.

(** A tree in which every entry has a name. *)
Inductive proper : entry -> Prop :=
| proper_file (body : option ustring) : proper (EFile body)
| proper_unreadable : proper (EDir None)
| proper_dir (listing : list (ustring * option entry)) :
    Forall (fun p => entry_name (fst p) = true) listing ->
    (forall name e, In (name, Some e) listing -> proper e) ->
    proper (EDir (Some listing)).

(** A sample tree: [src/gen/out.js] next to [dist/]. *)
Definition nested_sample : entry :=
  EDir (Some [(u "src", Some (EDir (Some [(u "gen",
                 Some (EDir (Some [(u "out.js", Some (EFile (Some (u "let x;"))))])))])));
              (u "dist", Some (EDir (Some [])))]).

(** The regex that [isIgnored] builds for a rule. *)
Definition rule_regex (pattern : ustring) : result regex :=
  compile (regexSource (regexPattern (normalizePattern pattern))).

(** Zero or more steps of a relation on match states. *)
Inductive iter (R : mstate -> mstate -> Prop) : mstate -> mstate -> Prop :=
| iter_stop x : iter R x x
| iter_step x m y : R x m -> iter R m y -> iter R x y.

(** One code unit satisfying [p] is consumed. *)
Definition takes (inp : ustring) (p : cu -> bool) (x y : mstate) : Prop :=
  exists c, nth_error inp (endIndex x) = Some c /\ p c = true /\
            y = MState (S (endIndex x)) (captures x).

(** What a successful run of a regex does to the match state: the states
    that can be handed to the continuation.  Assertions and the bounds of
    quantifiers are left out, so the relation holds of every run and of
    more. *)
Fixpoint post (inp : ustring) (r : regex) (x y : mstate) : Prop :=
  match r with
  | REmpty | RBol | REol => y = x
  | RChar c => takes inp (cu_eqb c) x y
  | RAny => takes inp (fun c => negb (is_line_terminator c)) x y
  | RSet neg items => takes inp (set_matches neg items) x y
  | RSeq r1 r2 => exists m, post inp r1 x m /\ post inp r2 m y
  | RAlt r1 r2 => post inp r1 x y \/ post inp r2 x y
  | RQuant _ _ _ r' =>
      iter (fun a b => post inp r' (clear_captures (groups r') a) b) x y
  | RGroup n r' =>
      exists m, post inp r' x m /\ y = set_capture n (endIndex x, endIndex m) m
  | RLook neg r' =>
      y = x \/ exists m, post inp r' x m /\ y = MState (endIndex x) (captures m)
  end.

(** The capturing groups of a regex with their bodies. *)
Fixpoint group_spec (r : regex) : list (nat * regex) :=
  match r with
  | RSeq r1 r2 | RAlt r1 r2 => group_spec r1 ++ group_spec r2
  | RQuant _ _ _ r' | RLook _ r' => group_spec r'
  | RGroup n r' => (n, r') :: group_spec r'
  | _ => []
  end.

(** A capture that spans a run of the body of a group with its number. *)
Definition captured_by (inp : ustring) (specs : list (nat * regex))
    (p : nat * (nat * nat)) : Prop :=
  exists body a b,
    In (fst p, body) specs /\ post inp body a b /\
    endIndex a = fst (snd p) /\ endIndex b = snd (snd p).

(** Group [n] is set by every successful run of the regex. *)
Fixpoint defines (n : nat) (r : regex) : bool :=
  match r with
  | RGroup m r' => Nat.eqb m n || defines n r'
  | RSeq r1 r2 =>
      (defines n r1 && negb (existsb (Nat.eqb n) (groups r2))) || defines n r2
  | RAlt r1 r2 => defines n r1 && defines n r2
  | _ => false
  end.

(** Identifiers: a first code unit of one class, then code units of
    another. *)
Definition identifier (first part : cu -> bool) (name : ustring) : bool :=
  match name with
  | c :: rest => first c && forallb part rest
  | [] => false
  end.

Definition js_start (c : cu) : bool := is_letter c || is_ch c "_" || is_ch c "$".
Definition js_part (c : cu) : bool := is_word c || is_ch c "$".
Definition py_start (c : cu) : bool := is_letter c || is_ch c "_".

(** The body of a group that captures an identifier. *)
Definition identifier_body (first part : cu -> bool) (body : regex) : Prop :=
  exists items1 items2 greedy,
    body = RSeq (RSet false items1)
                (RSeq (RQuant 0 None greedy (RSet false items2)) REmpty) /\
    (forall c, set_matches false items1 c = true -> first c = true) /\
    (forall c, set_matches false items2 c = true -> part c = true).

(** Inclusion of one class of code units in another, by cases. *)
Ltac class_cases c :=
  unfold set_matches, js_start, js_part, py_start, is_upper, is_word, is_letter,
    is_digit, is_ch, ch;
  cbn [existsb item_matches xorb];
  repeat match goal with
         | |- context [N_of_ascii ?a] =>
             let v := eval vm_compute in (N_of_ascii a) in
             change (N_of_ascii a) with v
         end;
  repeat match goal with
         | |- context [in_range ?a ?b c] => destruct (in_range a b c)
         | |- context [cu_eqb c ?a] => destruct (cu_eqb c a)
         end;
  cbn [orb]; congruence.

(** The groups of a compiled regex capture identifiers. *)
Ltac identifier_groups :=
  intros body Hb;
  match type of Hb with
  | In _ ?specs => let v := eval vm_compute in specs in change specs with v in Hb
  end;
  cbn [In] in Hb;
  repeat match goal with
         | H : _ \/ _ |- _ => destruct H as [H|H]
         | H : False |- _ => destruct H
         end;
  try discriminate;
  match goal with
  | H : (_, _) = (_, _) |- _ => injection H as <-
  end;
  eexists _, _, _; (split; [reflexivity|]);
  split; intros c; class_cases c.

(** What a star of a rule becomes: a run of code units other than the
    separator. *)
Definition nonslash : regex := RQuant 0 None true (RSet true [IChar (ch "/")]).

(** The text before and after the first star of a rule. *)
Fixpoint star_split (w : ustring) : option (ustring * ustring) :=
  match w with
  | [] => None
  | c :: w' =>
    if is_ch c "*" then Some ([], w')
    else match star_split w' with
         | Some (a, b) => Some (c :: a, b)
         | None => None
         end
  end.

(** The regex of a rule with one star between two literal texts. *)
Definition star_body (a b : ustring) (K : regex) : regex :=
  chars a (RSeq nonslash (chars b K)).

(** A rule that is a literal name, or two literal texts around one star,
    once normalized. *)
Definition simple_rule (pattern : ustring) : bool :=
  match star_split (normalizePattern pattern) with
  | None => literal_name (normalizePattern pattern)
  | Some (a, b) => literal_name a && literal_name b
  end.

(** What a simple rule says of the name of an entry: the name is the rule,
    or it starts and ends with the texts around the star, without overlap. *)
Definition simple_rule_matches (pattern name : ustring) : bool :=
  match star_split (normalizePattern pattern) with
  | None => ueqb name (normalizePattern pattern)
  | Some (a, b) =>
      startsWith a name && endsWith b name
      && Nat.leb (List.length a + List.length b) (List.length name)
  end.

(** Every run of the regex consumes the code unit [c]. *)
Fixpoint needs (c : cu) (r : regex) : bool :=
  match r with
  | RChar d => cu_eqb d c
  | RSeq r1 r2 => needs c r1 || needs c r2
  | RAlt r1 r2 => needs c r1 && needs c r2
  | RGroup _ r' => needs c r'
  | _ => false
  end.

(** The names and the endings that the default rules exclude. *)
Definition default_names : list ustring :=
  [u "node_modules"; u ".git"; u "__pycache__"; u ".Python"; u "env"; u "venv";
   u ".env"; u ".venv"; u "ENV"; u "env.bak"; u "venv.bak"].

Definition default_endings : list ustring :=
  [u ".pyc"; u ".pyo"; u ".pyd"; u ".so"].

Definition default_ignored (name : ustring) : bool :=
  includes default_names name || existsb (fun ending => endsWith ending name) default_endings.

(** The line of a directory in the listing. *)
Definition folder_line (level : nat) (name : ustring) : ustring :=
  repeat_str (u "  ") level ++ u "- " ++ folder_glyph ++ u " " ++ name ++ u "/" ++ nl.

(** The emission order, in the words of the specification: the text of a
    directory is the text of its entries, one entry after the other in the
    order of their names.  [entry_text] is what one entry contributes: its
    line followed by what lies under it (the listing of a directory, the
    details of an analysed file), nothing when it is ignored or cannot be
    looked at. *)
Definition entry_text (pats : list ustring) (level : nat)
    (listing : list (ustring * option entry)) (name : ustring) : ustring :=
  match lookup name listing with
  | Some (Some e) =>
    match isIgnored name pats with
    | Ok false =>
      match e with
      | EDir _ => folder_line level name ++ scanDirectory pats e (level + 1)
      | EFile body =>
          file_line level name ++
          match body with
          | Some fileContent =>
              if includes analysed_exts (extname name)
              then formatAnalysis (analyzeFileContent fileContent (extname name))
                                  (repeat_str (u "  ") level)
              else []
          | None => []
          end
      end
    | _ => []
    end
  | _ => []
  end.

(** The entries at which the listing of a directory ends: one whose [stat]
    fails, one on which the rules throw, a kept file that is to be analysed
    and cannot be read. *)
Definition entry_stops (pats : list ustring)
    (listing : list (ustring * option entry)) (name : ustring) : bool :=
  match lookup name listing with
  | Some (Some e) =>
    match isIgnored name pats with
    | Err _ => true
    | Ok true => false
    | Ok false =>
      match e with
      | EFile None => includes analysed_exts (extname name)
      | _ => false
      end
    end
  | _ => true
  end.

(** The names up to and including the first one that satisfies [stop]. *)
Fixpoint up_to (stop : ustring -> bool) (names : list ustring) : list ustring :=
  match names with
  | [] => []
  | n :: rest => if stop n then [n] else n :: up_to stop rest
  end.

(** The listing of a directory in the words of the specification. *)
Definition listing_in_order (pats : list ustring) (level : nat)
    (listing : list (ustring * option entry)) : ustring :=
  flat_map (entry_text pats level listing)
           (up_to (entry_stops pats listing) (sort (map fst listing))).

(* ================================================================== *)
(** * Properties *)

(** ** Strings *)

Lemma ueqb_eq (a b : ustring) : ueqb a b = true <-> a = b.
Proof.
  revert b; induction a as [|x a IH]; intros [|y b]; simpl; split;
    try congruence; try reflexivity.
  - intros H. apply andb_true_iff in H as [Hx Hab].
    apply N.eqb_eq in Hx. apply IH in Hab. congruence.
  - intros H. injection H as -> ->. apply andb_true_iff. split.
    + apply N.eqb_refl.
    + now apply IH.
Qed.

Lemma ueqb_refl (a : ustring) : ueqb a a = true.
Proof. now apply ueqb_eq. Qed.

Lemma ueqb_neq (a b : ustring) : ueqb a b = false <-> a <> b.
Proof.
  split.
  - intros H E. apply ueqb_eq in E. congruence.
  - intros H. destruct (ueqb a b) eqn:E; [|reflexivity].
    apply ueqb_eq in E. contradiction.
Qed.

Lemma ueqb_sym (a b : ustring) : ueqb a b = ueqb b a.
Proof.
  destruct (ueqb a b) eqn:E.
  - apply ueqb_eq in E. subst. symmetry. apply ueqb_refl.
  - symmetry. apply ueqb_neq. apply ueqb_neq in E. congruence.
Qed.

Lemma includes_In (l : list ustring) (x : ustring) :
  includes l x = true <-> In x l.
Proof.
  unfold includes. rewrite existsb_exists. split.
  - intros (y & Hy & E). apply ueqb_eq in E. now subst.
  - intros H. exists x. split; [assumption | apply ueqb_refl].
Qed.

Lemma includes_not_In (l : list ustring) (x : ustring) :
  includes l x = false <-> ~ In x l.
Proof.
  split.
  - intros H Hin. apply includes_In in Hin. congruence.
  - intros H. destruct (includes l x) eqn:E; [|reflexivity].
    apply includes_In in E. contradiction.
Qed.

(** ** C3: the default exclusions *)

Lemma defaults_in_rules (gitignore : probe) :
  incl defaultPatterns (loadGitignorePatterns gitignore).
Proof.
  intros d Hd. unfold loadGitignorePatterns.
  destruct gitignore; simpl.
  - now right.
  - exact Hd.
  - apply in_or_app. now right.
Qed.

(** [some] answers [Ok false] only when every callback did. *)
Lemma some_false (f : ustring -> result bool) (l : list ustring) :
  some f l = Ok false <-> Forall (fun p => f p = Ok false) l.
Proof.
  induction l as [|p l IH]; simpl.
  - split; [constructor | reflexivity].
  - destruct (f p) as [[|]|e] eqn:E.
    + split; [discriminate | intros H; inversion H; congruence].
    + rewrite IH. split.
      * intros H. now constructor.
      * intros H. now inversion H.
    + split; [discriminate | intros H; inversion H; congruence].
Qed.


(** When no callback throws, [some] is the disjunction of the answers. *)
Lemma some_exists (f : ustring -> result bool) (l : list ustring) :
  Forall (fun q => exists b, f q = Ok b) l ->
  (some f l = Ok true <-> Exists (fun q => f q = Ok true) l).
Proof.
  induction 1 as [|p l [b Hb] Hl IH]; simpl.
  - split; [discriminate | intros H; inversion H].
  - rewrite Hb. destruct b.
    + split; [intros _; now left | reflexivity].
    + rewrite IH. split.
      * intros H. now right.
      * intros H. inversion H; subst; [congruence | assumption].
Qed.

(** A boolean check that no callback throws. *)
Lemma evaluates_all (f : ustring -> result bool) (l : list ustring) :
  forallb (fun q => match f q with Ok _ => true | Err _ => false end) l = true ->
  Forall (fun q => exists b, f q = Ok b) l.
Proof.
  intros H. apply Forall_forall. intros q Hq.
  rewrite forallb_forall in H. specialize (H q Hq).
  destruct (f q) as [b|e]; [now exists b | discriminate].
Defined.

(** An entry that the rules do not report as kept leaves the content of the
    scan unchanged. *)
Lemma scan_entry_not_kept (pats : list ustring) (level : nat)
    (table : list (ustring * option scanned)) (file content : ustring) :
  isIgnored file pats <> Ok false ->
  fst (scan_entry pats level table file content) = content.
Proof.
  intros H. unfold scan_entry.
  destruct (lookup file table) as [[stats|]|]; try reflexivity.
  destruct (isIgnored file pats) as [[|]|e]; try reflexivity.
  now contradiction H.
Qed.

(** C3. Whatever the state of the ignore-file (absent, unreadable, or
    present with any content), the rule set built by
    [loadGitignorePatterns] contains every default exclusion pattern.
    Hence an entry that a default pattern matches is never reported as
    kept, the scan never emits it, and [isIgnored] answers true for it
    whenever the custom patterns can all be evaluated. *)
Theorem default_exclusions_always_active (gitignore : probe) :
  incl defaultPatterns (loadGitignorePatterns gitignore) /\
  forall (file d : ustring),
    In d defaultPatterns ->
    pattern_test (normalize_separators file) d = Ok true ->
    let rules := loadGitignorePatterns gitignore in
    isIgnored file rules <> Ok false /\
    (forall level table content,
        fst (scan_entry rules level table file content) = content) /\
    (Forall (fun q => exists b, pattern_test (normalize_separators file) q = Ok b) rules ->
     isIgnored file rules = Ok true).
Proof.
  split; [apply defaults_in_rules|].
  intros file d Hd Hm rules.
  assert (Hin : In d rules) by now apply defaults_in_rules.
  assert (Hnf : isIgnored file rules <> Ok false).
  { unfold isIgnored. intros H. apply some_false in H.
    rewrite Forall_forall in H. specialize (H d Hin). congruence. }
  split; [exact Hnf|]. split.
  - intros. now apply scan_entry_not_kept.
  - intros Hall. unfold isIgnored. apply some_exists; [exact Hall|].
    apply Exists_exists. now exists d.
Qed.

Lemma default_exclusions_always_active_witness :
  incl defaultPatterns (loadGitignorePatterns (Present (u "*.log"))) /\
  isIgnored (u "node_modules") (loadGitignorePatterns (Present (u "*.log")))
  <> Ok false /\
  fst (scan_entry (loadGitignorePatterns (Present (u "*.log"))) 0 []
                  (u "node_modules") [])
  = [] /\
  isIgnored (u "node_modules") (loadGitignorePatterns (Present (u "*.log")))
  = Ok true.
Proof.
  destruct (default_exclusions_always_active (Present (u "*.log"))) as [H1 H2].
  split; [exact H1|].
  assert (Hd : In (u "node_modules") defaultPatterns) by (now left).
  assert (Hm : pattern_test (normalize_separators (u "node_modules"))
                            (u "node_modules") = Ok true)
    by (vm_compute; reflexivity).
  destruct (H2 (u "node_modules") (u "node_modules") Hd Hm) as (Ha & Hb & Hc).
  split; [exact Ha|]. split; [exact (Hb 0 [] [])|].
  apply Hc. apply evaluates_all. vm_compute. reflexivity.
Defined.

(** ** C1: the translation of a pattern *)

(** C1. The translation escapes dots and maps [*] and [?] to the
    no-separator fragments, but the fragment written for [**] is rewritten
    by the later replacement of [*]: [a/**/b] becomes [a/.[^/]*/b], which
    spans one directory level only, so [a/**/b] does not match [a/x/y/b]
    (while it does match [a/x/b]). *)
Theorem doublestar_fragment_is_rewritten :
  regexPattern (u "a.b") = u "a\.b" /\
  regexPattern (u "a*b") = u "a[^/]*b" /\
  regexPattern (u "a?b") = u "a[^/]b" /\
  regexPattern (u "a/**/b") = u "a/.[^/]*/b" /\
  isIgnored (u "a/x/y/b") [u "a/**/b"] = Ok false /\
  isIgnored (u "a/x/b") [u "a/**/b"] = Ok true.
Proof. repeat apply conj; vm_compute; reflexivity. Qed.

(** ** C10: the alias of a comma-separated import *)

Lemma has_suffix_refl (s : ustring) : has_suffix s s.
Proof. now exists []. Qed.

Lemma has_suffix_app (suffix p s : ustring) :
  has_suffix suffix s -> has_suffix suffix (p ++ s).
Proof. intros [q ->]. exists (p ++ q). now rewrite app_assoc. Qed.

(** C10. When an import match carries an alias, every entry expanded from
    the comma-separated names ends with that alias, one entry per name; in
    particular [import a, b as c] yields [import a as c] and
    [import b as c]. *)
Theorem alias_appended_to_every_name (g1 : option ustring) (names alias : ustring) :
  alias <> [] ->
  let entries := expand_import g1 (Some names) (Some alias) in
  List.length entries = List.length (split (ch ",") names) /\
  Forall (has_suffix (u " as " ++ trim alias)) entries /\
  py_imports (u "import a, b as c") = [u "import a as c"; u "import b as c"].
Proof.
  intros Ha entries. subst entries. unfold expand_import.
  destruct alias as [|c alias]; [contradiction|]. simpl truthy.
  split; [|split].
  - now rewrite !length_map.
  - apply Forall_forall. intros e He.
    apply in_map_iff in He as (name & <- & _).
    exists (u "import " ++
            match truthy g1 with Some m => trim m ++ u "." | None => [] end ++ name).
    now rewrite <- !app_assoc.
  - vm_compute. reflexivity.
Qed.

Lemma alias_appended_to_every_name_witness :
  List.length (expand_import None (Some (u "a, b")) (Some (u "c"))) = 2 /\
  Forall (has_suffix (u " as c"))
         (expand_import None (Some (u "a, b")) (Some (u "c"))).
Proof.
  assert (H : u "c" <> []) by discriminate.
  destruct (alias_appended_to_every_name None (u "a, b") H) as (H1 & H2 & _).
  split; [exact H1 | exact H2].
Defined.

(** ** C6: de-duplication in the indentation-scripting profile *)

Lemma filter_twice {A : Type} (f g : A -> bool) (l : list A) :
  filter f (filter g l) = filter (fun y => g y && f y) l.
Proof.
  induction l as [|a l IH]; simpl; [reflexivity|].
  destruct (g a); simpl; [destruct (f a)|]; now rewrite IH.
Qed.

Lemma includes_app (l1 l2 : list ustring) (x : ustring) :
  includes (l1 ++ l2) x = includes l1 x || includes l2 x.
Proof. unfold includes. apply existsb_app. Qed.

Lemma set_add_all_spec (seen l : list ustring) :
  set_add_all seen l =
  seen ++ filter (fun y => negb (includes seen y)) (first_seen l).
Proof.
  revert seen; induction l as [|x l IH]; intros seen; simpl.
  - now rewrite app_nil_r.
  - rewrite IH. destruct (includes seen x) eqn:E; simpl.
    + f_equal. rewrite filter_twice. apply filter_ext. intros y.
      destruct (ueqb y x) eqn:Eyx; simpl; [|reflexivity].
      apply ueqb_eq in Eyx. subst. now rewrite E.
    + rewrite <- app_assoc. simpl. f_equal. f_equal.
      rewrite filter_twice. apply filter_ext. intros y.
      rewrite includes_app. unfold includes at 2. simpl.
      rewrite orb_false_r, negb_orb. rewrite (ueqb_sym y x).
      apply andb_comm.
Qed.

(** The model of [new Set] agrees with first-seen order. *)
Lemma new_Set_first_seen (l : list ustring) : new_Set l = first_seen l.
Proof.
  unfold new_Set. rewrite set_add_all_spec. simpl.
  induction (first_seen l) as [|a r IH]; simpl; [reflexivity|]. now rewrite IH.
Qed.

Lemma first_seen_In (l : list ustring) (y : ustring) :
  In y (first_seen l) <-> In y l.
Proof.
  induction l as [|x l IH]; simpl; [tauto|].
  rewrite filter_In, IH. split.
  - intros [H|[H _]]; auto.
  - intros [H|H]; auto.
    destruct (ueqb y x) eqn:E.
    + apply ueqb_eq in E. auto.
    + right. auto.
Qed.




(** ** C7: which method names are kept *)

Lemma skipn_nth_error {A : Type} (l : list A) (i : nat) (a : A) :
  nth_error l i = Some a -> skipn i l = a :: skipn (S i) l.
Proof.
  revert i; induction l as [|b l IH]; intros [|i]; simpl; try discriminate.
  - now intros [= ->].
  - intros H. now apply IH.
Qed.

(** A greedy or lazy quantifier without a minimum succeeds whenever its
    continuation does. *)
Lemma repeat_matcher_min0 (multiline : bool) (inp : ustring) fuel m ns max greedy x k :
  k x <> None ->
  @repeat_matcher fuel m ns 0 max greedy x k <> None.
Proof.
  intros Hk. destruct fuel; simpl.
  - now destruct max as [[|]|].
  - destruct max as [[|n]|]; try assumption.
    + destruct greedy.
      * now destruct (m _ _).
      * now destruct (k x).
    + destruct greedy.
      * now destruct (m _ _).
      * now destruct (k x).
Qed.

(** At a given index the name test matches exactly when the code unit
    there is an upper-case letter. *)
Lemma capital_matcher (name : ustring) (i : nat) :
  matcher false name js_capitalRegex (MState i []) Some <> None <->
  exists c, nth_error name i = Some c /\ is_upper c = true.
Proof.
  unfold js_capitalRegex. cbn [matcher]. unfold char_matcher at 1. cbn [endIndex].
  destruct (nth_error name i) as [c|] eqn:E.
  - unfold set_matches at 1. cbn [existsb item_matches xorb orb].
    rewrite ?orb_false_r.
    change (in_range 65%N 90%N c) with (is_upper c).
    destruct (is_upper c) eqn:Eu.
    + split; [intros _; now exists c|]. intros _.
      apply (repeat_matcher_min0 false name). discriminate.
    + split; [congruence|]. intros (c' & [= <-] & H). congruence.
  - split; [congruence|]. now intros (c' & H & _).
Qed.

Lemma capital_search (name : ustring) (n i : nat) :
  i + n = List.length name ->
  (search_from false name js_capitalRegex n i <> None <->
   existsb is_upper (skipn i name) = true).
Proof.
  revert i; induction n as [|n IH]; intros i Hi.
  - assert (El : skipn i name = []) by (apply skipn_all2; lia).
    rewrite El. cbn [existsb search_from].
    destruct (matcher false name js_capitalRegex (MState i []) Some) eqn:E.
    + assert (Hm : matcher false name js_capitalRegex (MState i []) Some <> None)
        by congruence.
      apply capital_matcher in Hm as (c & Hc & _).
      assert (i < List.length name) by (apply nth_error_Some; congruence). lia.
    + split; [congruence | discriminate].
  - destruct (nth_error name i) as [c|] eqn:Ec.
    2:{ apply nth_error_None in Ec. lia. }
    rewrite (skipn_nth_error _ _ Ec). cbn [existsb search_from].
    destruct (matcher false name js_capitalRegex (MState i []) Some) eqn:E.
    + assert (Hm : matcher false name js_capitalRegex (MState i []) Some <> None)
        by congruence.
      apply capital_matcher in Hm as (c' & Hc' & Hu).
      assert (c' = c) by congruence. subst. rewrite Hu.
      split; [reflexivity | discriminate].
    + assert (Hu : is_upper c = false).
      { destruct (is_upper c) eqn:Hu; [|reflexivity].
        assert (Hm : matcher false name js_capitalRegex (MState i []) Some <> None)
          by (apply capital_matcher; now exists c).
        congruence. }
      rewrite Hu. simpl. apply IH. lia.
Qed.

(** The name test is true exactly when the name holds an upper-case letter
    anywhere. *)
Lemma capital_test (name : ustring) :
  test false js_capitalRegex name = existsb is_upper name.
Proof.
  unfold test, exec_at. simpl Nat.ltb. cbv iota.
  rewrite Nat.sub_0_r.
  pose proof (@capital_search name (List.length name) 0 eq_refl) as H.
  simpl skipn in H.
  destruct (search_from false name js_capitalRegex (List.length name) 0) as [[j y]|].
  - symmetry. apply H. discriminate.
  - destruct (existsb is_upper name); [|reflexivity].
    exfalso. now apply H.
Qed.

(** C7. A matched name is kept as a method exactly when it is not one of
    the six block-listed keywords and holds no upper-case letter at all:
    the test on the name is not anchored, so [fooBar] is rejected like
    [FooBar], while [foobar] is kept. *)
Theorem method_names_with_uppercase_rejected :
  (forall name, method_kept name =
                negb (includes method_blocklist name) && negb (existsb is_upper name)) /\
  methods (analyzeFileContent (u "fooBar() {") (u ".ts")) = [] /\
  methods (analyzeFileContent (u "FooBar() {") (u ".ts")) = [] /\
  methods (analyzeFileContent (u "foobar() {") (u ".ts")) = [u "foobar"] /\
  methods (analyzeFileContent (u "if (x) {") (u ".ts")) = [].
Proof.
  split.
  - intros name. unfold method_kept. now rewrite capital_test.
  - repeat split; vm_compute; reflexivity.
Qed.

(** ** C5: an unreadable root *)

(** C5, as the program has it. When the listing of the root fails, the
    scan catches the error and contributes an empty file structure; the run
    goes on, writes the document (heading, configuration sections and an
    empty "File Structure" section) and, when the document can be shown,
    reports success. *)
Theorem unreadable_root_writes_document
    (project_info : ustring -> ustring) (path_join : list ustring -> ustring)
    (h : host) (w : workspace) :
  folder h = Some w ->
  root w = EDir None ->
  mkdir_ok h = true ->
  writeFile_ok h = true ->
  let doc := analyzeWorkspace project_info w in
  (exists path, written (generateStructure project_info path_join h) = Some (path, doc)) /\
  has_suffix (u "## File Structure" ++ nl ++ nl) doc /\
  (show_ok h = true ->
   shown (generateStructure project_info path_join h) = Success).
Proof.
  intros Hf Hr Hm Hw doc. unfold generateStructure. rewrite Hf, Hm, Hw.
  cbn [negb]. split; [|split].
  - destruct (show_ok h); eexists; reflexivity.
  - subst doc. unfold analyzeWorkspace. rewrite Hr.
    change (scanDirectory (loadGitignorePatterns (gitignore w)) (EDir None) 0)
      with (@nil cu).
    rewrite app_nil_r.
    repeat (apply has_suffix_refl || apply has_suffix_app).
  - intros ->. reflexivity.
Qed.

Lemma unreadable_root_writes_document_witness :
  (exists path, written (generateStructure (fun _ => []) join_plain unreadable_root_host)
                = Some (path, analyzeWorkspace (fun _ => [])
                                (mkWorkspace (u "/w/") Absent Absent Absent Absent (EDir None)))) /\
  shown (generateStructure (fun _ => []) join_plain unreadable_root_host) = Success.
Proof.
  destruct (@unreadable_root_writes_document (fun _ => []) join_plain unreadable_root_host
              (mkWorkspace (u "/w/") Absent Absent Absent Absent (EDir None))
              eq_refl eq_refl eq_refl eq_refl) as (H1 & _ & H3).
  split; [exact H1 | exact (H3 eq_refl)].
Defined.

(** As stated, C5 fails here: the root cannot be listed, and yet a file is
    written and success is reported. *)
Lemma unreadable_root_is_not_fatal :
  written (generateStructure (fun _ => []) join_plain unreadable_root_host)
  = Some (u "/w/workspace-structure.md",
          u "# Workspace Structure" ++ nl ++ nl ++
          u "Files listed in .gitignore will be excluded." ++ nl ++ nl ++
          u "## Configuration Files" ++ nl ++ nl ++
          u "## File Structure" ++ nl ++ nl) /\
  shown (generateStructure (fun _ => []) join_plain unreadable_root_host) = Success.
Proof. split; vm_compute; reflexivity. Qed.

(** ** C4: a read error inside a directory *)


Lemma lookup_stat_all scan (listing : list (ustring * option entry)) (f : ustring) :
  lookup f (stat_all scan listing) =
  option_map (stat_entry scan) (lookup f listing).
Proof.
  induction listing as [|[n e] l IH]; simpl; [reflexivity|].
  destruct (ueqb n f); [reflexivity | exact IH].
Qed.




(** ** C9: inputs without declarations *)

Lemma word_not_space (c : cu) : is_space c = true -> is_word c = false.
Proof.
  intros Hs. destruct (is_word c) eqn:Hw; [|reflexivity].
  exfalso. bool_to_prop. lia.
Qed.

Lemma digit_not_space (c : cu) : is_space c = true -> is_digit c = false.
Proof.
  intros Hs. destruct (is_digit c) eqn:Hw; [|reflexivity].
  exfalso. bool_to_prop. lia.
Qed.

Lemma item_nonspace_sound (i : citem) (c : cu) :
  item_nonspace i = true -> is_space c = true -> item_matches i c = false.
Proof.
  intros Hi Hs. destruct i as [d|lo hi|[| |] [|]]; simpl in *; try discriminate.
  - destruct (cu_eqb c d) eqn:E; [|reflexivity].
    apply N.eqb_eq in E. subst. rewrite Hs in Hi. discriminate.
  - destruct (in_range lo hi c) eqn:E; [|reflexivity].
    exfalso. bool_to_prop. lia.
  - now rewrite Hs.
  - now rewrite word_not_space.
  - now rewrite digit_not_space.
Qed.

Lemma set_nonspace_sound (neg : bool) (items : list citem) (c : cu) :
  set_nonspace neg items = true -> is_space c = true ->
  set_matches neg items c = false.
Proof.
  intros Hn Hs. unfold set_matches, set_nonspace in *. destruct neg; simpl.
  - apply negb_false_iff. apply existsb_exists.
    apply existsb_exists in Hn as (i & Hi & Hesc).
    exists i. split; [assumption|].
    destruct i as [d|lo hi|[| |] [|]]; try discriminate. simpl. now rewrite Hs.
  - destruct (existsb _ items) eqn:E; [|reflexivity].
    apply existsb_exists in E as (i & Hi & Hm).
    rewrite forallb_forall in Hn.
    rewrite (@item_nonspace_sound i c (Hn i Hi) Hs) in Hm. discriminate.
Qed.

Section MatcherFailure.

Variable multiline : bool.
Variable inp : ustring.

Local Abbreviation run := (matcher multiline inp).

(** A quantifier succeeds only through its continuation. *)
Lemma repeat_matcher_dead_end (m : mstate -> cont -> option mstate) ns greedy k :
  (forall x k', (forall y, k' y = None) -> m x k' = None) ->
  (forall y, k y = None) ->
  forall fuel min max x, repeat_matcher fuel m ns min max greedy x k = None.
Proof.
  intros Hm Hk. induction fuel as [|fuel IH]; intros min max x; simpl.
  - destruct max as [[|n]|]; try apply Hk; destruct min; auto.
  - assert (Hd : forall y,
               (if Nat.eqb min 0 && Nat.eqb (endIndex y) (endIndex x) then None
                else repeat_matcher fuel m ns (pred min) (dec_max max) greedy y k)
               = None).
    { intros y. destruct (_ && _); [reflexivity | apply IH]. }
    destruct max as [[|n]|]; try apply Hk;
      destruct min; try destruct greedy; rewrite ?Hm, ?Hk; auto.
Qed.

(** A matcher succeeds only through its continuation. *)
Lemma matcher_dead_end (r : regex) :
  forall x k, (forall y, k y = None) -> run r x k = None.
Proof.
  induction r as [|c| |neg items| | |r1 IH1 r2 IH2|r1 IH1 r2 IH2
                 |min max greedy r IH|n r IH|neg r IH];
    intros x k Hk; cbn [matcher]; unfold char_matcher; auto.
  - destruct (nth_error inp (endIndex x)); [destruct (cu_eqb c c0)|]; auto.
  - destruct (nth_error inp (endIndex x)); [destruct (negb _)|]; auto.
  - destruct (nth_error inp (endIndex x)); [destruct (set_matches _ _ _)|]; auto.
  - destruct (at_bol _ _ x); auto.
  - destruct (at_eol _ _ x); auto.
  - now rewrite IH1, IH2.
  - now apply repeat_matcher_dead_end.
  - destruct (run r x Some); destruct neg; auto.
Qed.

Hypothesis blank : whitespace inp.

Lemma blank_unit (i : nat) (c : cu) : nth_error inp i = Some c -> is_space c = true.
Proof.
  intros H. apply nth_error_In in H.
  unfold whitespace in blank. rewrite Forall_forall in blank. now apply blank.
Qed.

(** On white space a regex that needs another code unit never matches. *)
Lemma matcher_blank (r : regex) :
  needs_nonspace r = true -> forall x k, run r x k = None.
Proof.
  induction r as [|c| |neg items| | |r1 IH1 r2 IH2|r1 IH1 r2 IH2
                 |min max greedy r IH|n r IH|neg r IH];
    cbn [needs_nonspace]; intros Hn x k; try discriminate;
    cbn [matcher]; unfold char_matcher.
  - destruct (nth_error inp (endIndex x)) as [d|] eqn:E; [|reflexivity].
    apply blank_unit in E. destruct (cu_eqb c d) eqn:Ec; [|reflexivity].
    apply N.eqb_eq in Ec. subst. rewrite E in Hn. discriminate.
  - destruct (nth_error inp (endIndex x)) as [d|] eqn:E; [|reflexivity].
    apply blank_unit in E. now rewrite (@set_nonspace_sound neg items d Hn E).
  - apply orb_true_iff in Hn as [H|H].
    + now apply IH1.
    + apply matcher_dead_end. intros y. now apply IH2.
  - apply andb_true_iff in Hn as [H1 H2]. now rewrite IH1, IH2.
  - destruct min as [|min]; [discriminate|].
    cbn [Nat.add repeat_matcher].
    destruct max as [[|mx]|]; try discriminate; now apply IH.
  - now apply IH.
Qed.

Lemma search_blank (r : regex) :
  needs_nonspace r = true -> forall n i, search_from multiline inp r n i = None.
Proof.
  intros Hn. induction n as [|n IH]; intros i; simpl; rewrite matcher_blank; auto.
Qed.

Lemma matchAll_blank (r : regex) :
  needs_nonspace r = true ->
  forall fuel i, match_all_from multiline r inp fuel i = [].
Proof.
  intros Hn [|fuel] i; simpl; [reflexivity|].
  unfold exec_at. destruct (Nat.ltb _ _); [reflexivity|].
  now rewrite search_blank.
Qed.

End MatcherFailure.

(** C9, as the program has it. The extractor is total: for every content
    and extension it returns a record.  On empty input and on input made of
    white space only, all six fields are empty, whatever the extension.
    Unbalanced braces or parentheses do not make it fail, but the record
    then holds what the patterns matched: [class A {] gives the class [A]
    and [function f(] the function [f]. *)
Theorem blank_content_yields_empty_analysis (content ext : ustring) :
  whitespace content ->
  analyzeFileContent content ext = emptyAnalysis /\
  analyzeFileContent [] ext = emptyAnalysis /\
  classes (analyzeFileContent (u "class A {") (u ".ts")) = [u "A"] /\
  functions (analyzeFileContent (u "function f(") (u ".ts")) = [u "f"].
Proof.
  intros Hw.
  assert (H : forall s, whitespace s -> analyzeFileContent s ext = emptyAnalysis).
  { intros s Hs.
    unfold analyzeFileContent, js_imports, js_functions, js_methods, py_imports,
      py_functions, py_methods, matchAll.
    rewrite !(matchAll_blank true Hs) by reflexivity.
    destruct (includes js_exts ext); [reflexivity|].
    destruct (ueqb ext (u ".py")); reflexivity. }
  split; [now apply H|]. split; [apply H; constructor|].
  split; vm_compute; reflexivity.
Qed.

Lemma blank_content_yields_empty_analysis_witness :
  analyzeFileContent (u "  " ++ nl ++ [9%N]) (u ".ts") = emptyAnalysis.
Proof.
  assert (Hw : whitespace (u "  " ++ nl ++ [9%N]))
    by (repeat constructor).
  exact (proj1 (@blank_content_yields_empty_analysis _ (u ".ts") Hw)).
Defined.

(** As stated, C9 fails here: the brace of [class A {] is never closed, and the
    record returned is not empty. *)
Lemma unbalanced_content_is_analysed :
  analyzeFileContent (u "class A {") (u ".ts") <> emptyAnalysis.
Proof.
  intros H. apply (f_equal classes) in H. vm_compute in H. discriminate.
Qed.

(** ** C2: when a path is ignored *)



(** An alternation matches somewhere exactly when one of its two sides
    does. *)
Lemma search_alt (multiline : bool) (s : ustring) (a b : regex) (n i : nat) :
  search_from multiline s (RAlt a b) n i <> None <->
  search_from multiline s a n i <> None \/ search_from multiline s b n i <> None.
Proof.
  revert i; induction n as [|n IH]; intros i; cbn [search_from matcher];
    destruct (matcher multiline s a (MState i []) Some);
    destruct (matcher multiline s b (MState i []) Some);
    try rewrite IH; intuition congruence.
Qed.

Lemma test_alt (multiline : bool) (a b : regex) (s : ustring) :
  test multiline (RAlt a b) s = test multiline a s || test multiline b s.
Proof.
  unfold test, exec_at. destruct (Nat.ltb _ _); [reflexivity|].
  pose proof (search_alt multiline s a b (List.length s - 0) 0) as H.
  destruct (search_from multiline s (RAlt a b) _ _) as [[? ?]|];
    destruct (search_from multiline s a _ _) as [[? ?]|];
    destruct (search_from multiline s b _ _) as [[? ?]|];
    try reflexivity; exfalso; intuition congruence.
Qed.



(** The four anchor forms at work for the pattern [build], and the
    short-circuit: a pattern after the first match is not compiled. *)
Example anchor_forms_of_build :
  isIgnored (u "build") [u "build"] = Ok true /\
  isIgnored (u "build/out.js") [u "build"] = Ok true /\
  isIgnored (u "src/build") [u "build"] = Ok true /\
  isIgnored (u "src/build/out.js") [u "build"] = Ok true /\
  isIgnored (u "rebuild") [u "build"] = Ok false /\
  isIgnored (u "builds") [u "build"] = Ok false /\
  isIgnored (u "build") [u "build"; u "("] = Ok true.
Proof. repeat apply conj; vm_compute; reflexivity. Qed.


(** ** C8: order of emission and independence of the enumeration *)

Section CodeUnitOrder.

Lemma ult_cons (x y : cu) (a b : ustring) :
  ult (x :: a) (y :: b) = true <-> (x < y)%N \/ (x = y /\ ult a b = true).
Proof.
  simpl. unfold cu_eqb.
  rewrite orb_true_iff, andb_true_iff, N.ltb_lt, N.eqb_eq. tauto.
Qed.

Lemma ult_irrefl (a : ustring) : ult a a = false.
Proof.
  induction a as [|x a IH]; [reflexivity|].
  destruct (ult (x :: a) (x :: a)) eqn:E; [|reflexivity].
  apply ult_cons in E as [H|[_ H]]; [lia | congruence].
Qed.

Lemma ult_trans (a b c : ustring) :
  ult a b = true -> ult b c = true -> ult a c = true.
Proof.
  revert b c; induction a as [|x a IH]; intros [|y b] [|z c]; try discriminate;
    try reflexivity.
  rewrite !ult_cons. intros [H1|[-> H1]] [H2|[-> H2]].
  - left. lia.
  - now left.
  - now left.
  - right. split; [reflexivity|]. now apply (IH b).
Qed.

Lemma ult_trichotomy (a b : ustring) :
  a = b \/ ult a b = true \/ ult b a = true.
Proof.
  revert b; induction a as [|x a IH]; intros [|y b]; simpl; auto.
  destruct (N.lt_trichotomy x y) as [H|[->|H]].
  - right. left. apply orb_true_iff. left. now apply N.ltb_lt.
  - destruct (IH b) as [->|[H|H]].
    + now left.
    + right. left. unfold cu_eqb. now rewrite N.eqb_refl, H, orb_true_r.
    + right. right. unfold cu_eqb. now rewrite N.eqb_refl, H, orb_true_r.
  - right. right. apply orb_true_iff. left. now apply N.ltb_lt.
Qed.

Lemma ule_total (a b : ustring) : ule a b = false -> ule b a = true.
Proof.
  unfold ule. rewrite negb_false_iff, negb_true_iff. intros H.
  destruct (ult a b) eqn:E; [|reflexivity].
  pose proof (ult_trans _ _ _ H E) as Hc. now rewrite ult_irrefl in Hc.
Qed.

Lemma ule_antisym (a b : ustring) : ule a b = true -> ule b a = true -> a = b.
Proof.
  unfold ule. rewrite !negb_true_iff. intros H1 H2.
  destruct (ult_trichotomy a b) as [E|[E|E]]; congruence.
Qed.

Lemma ule_trans (a b c : ustring) :
  ule a b = true -> ule b c = true -> ule a c = true.
Proof.
  unfold ule. rewrite !negb_true_iff. intros H1 H2.
  destruct (ult c a) eqn:E; [|reflexivity].
  destruct (ult_trichotomy a b) as [->|[H|H]]; [congruence| |congruence].
  pose proof (ult_trans _ _ _ E H). congruence.
Qed.

(** Insertions commute: the sorted result does not depend on the order in
    which the names arrive. *)
Lemma insert_sorted_comm (x y : ustring) (l : list ustring) :
  insert_sorted x (insert_sorted y l) = insert_sorted y (insert_sorted x l).
Proof.
  induction l as [|z l IH]; simpl.
  - destruct (ule x y) eqn:Exy, (ule y x) eqn:Eyx; try reflexivity.
    + now rewrite (ule_antisym _ _ Exy Eyx).
    + apply ule_total in Exy. congruence.
  - destruct (ule y z) eqn:Eyz, (ule x z) eqn:Exz; simpl;
      rewrite ?Eyz, ?Exz.
    + destruct (ule x y) eqn:Exy, (ule y x) eqn:Eyx; try reflexivity.
      * now rewrite (ule_antisym _ _ Exy Eyx).
      * apply ule_total in Exy. congruence.
    + destruct (ule x y) eqn:Exy; [|reflexivity].
      pose proof (ule_trans _ _ _ Exy Eyz). congruence.
    + destruct (ule y x) eqn:Eyx; [|reflexivity].
      pose proof (ule_trans _ _ _ Eyx Exz). congruence.
    + now rewrite IH.
Qed.

Lemma sort_permutation_invariant (l l' : list ustring) :
  Permutation l l' -> sort l = sort l'.
Proof.
  induction 1 as [|x l l' _ IH|x y l|l1 l2 l3 _ IH1 _ IH2]; simpl.
  - reflexivity.
  - now rewrite IH.
  - apply insert_sorted_comm.
  - congruence.
Qed.

Lemma insert_sorted_permutation (x : ustring) (l : list ustring) :
  Permutation (x :: l) (insert_sorted x l).
Proof.
  induction l as [|y l IH]; simpl; [reflexivity|].
  destruct (ule x y); [reflexivity|].
  rewrite perm_swap. now apply perm_skip.
Qed.

Lemma sort_permutation (l : list ustring) : Permutation l (sort l).
Proof.
  induction l as [|x l IH]; simpl; [reflexivity|].
  rewrite <- insert_sorted_permutation. now apply perm_skip.
Qed.

Lemma insert_sorted_sorted (x : ustring) (l : list ustring) :
  Sorted in_order l -> Sorted in_order (insert_sorted x l).
Proof.
  induction 1 as [|y l Hs IH Hd]; simpl.
  - repeat constructor.
  - destruct (ule x y) eqn:E.
    + constructor; [now constructor | now constructor].
    + constructor; [assumption|].
      destruct l as [|z l]; simpl.
      * constructor. now apply ule_total.
      * destruct (ule x z); constructor.
        -- now apply ule_total.
        -- now inversion Hd.
Qed.

Lemma sort_sorted (l : list ustring) : Sorted in_order (sort l).
Proof.
  induction l as [|x l IH]; simpl; [constructor | now apply insert_sorted_sorted].
Qed.

End CodeUnitOrder.

Lemma same_stat_refl (x : option (option scanned)) : same_stat x x.
Proof. destruct x as [[[s|b]|]|]; now constructor. Qed.

Lemma same_stat_trans (x y z : option (option scanned)) :
  same_stat x y -> same_stat y z -> same_stat x z.
Proof.
  intros H1 H2; inversion H1; subst; inversion H2; subst; constructor.
  intros level. congruence.
Qed.

Lemma scan_entry_same_stat pats level t t' (f content : ustring) :
  same_stat (lookup f t) (lookup f t') ->
  scan_entry pats level t f content = scan_entry pats level t' f content.
Proof.
  intros H. unfold scan_entry. inversion H as [| |b|s s' Hs]; try reflexivity.
  destruct (isIgnored f pats) as [[|]|]; try reflexivity.
  now rewrite Hs.
Qed.

Lemma scan_loop_same_stat pats level t t' (files : list ustring) :
  (forall f, same_stat (lookup f t) (lookup f t')) ->
  forall content,
    scan_loop pats level t files content = scan_loop pats level t' files content.
Proof.
  intros H. induction files as [|f files IH]; intros content; simpl.
  - reflexivity.
  - rewrite (scan_entry_same_stat pats level _ _ f content (H f)).
    destruct (scan_entry pats level t' f content) as [c [|]]; [reflexivity | apply IH].
Qed.

Lemma reordered_scan :
  (forall e e', reordered e e' ->
     distinct_names e ->
     distinct_names e' /\
     forall pats level, scanDirectory pats e level = scanDirectory pats e' level) /\
  (forall l l', reordered_listing l l' ->
     distinct_listing l -> NoDup (map fst l) ->
     distinct_listing l' /\ Permutation (map fst l) (map fst l') /\
     forall pats f,
       same_stat (lookup f (stat_all (scanDirectory pats) l))
                 (lookup f (stat_all (scanDirectory pats) l'))) /\
  (forall o o', reordered_stat o o' ->
     (forall e, o = Some e -> distinct_names e) ->
     (forall e, o' = Some e -> distinct_names e) /\
     forall pats,
       same_stat (Some (stat_entry (scanDirectory pats) o))
                 (Some (stat_entry (scanDirectory pats) o'))).
Proof.
  apply reordered_mutind.
  - (* file *) intros body H. split; [assumption | reflexivity].
  - (* unlisted directory *) intros H. split; [assumption | reflexivity].
  - (* directory *)
    intros l l' _ IH H. inversion H as [| |l0 Hnd Hall]; subst.
    destruct (IH Hall Hnd) as (Hd' & Hp & Ht). split.
    + constructor; [|exact Hd'].
      eapply Permutation_NoDup; [exact Hp | exact Hnd].
    + intros pats level. cbn [scanDirectory].
      rewrite (sort_permutation_invariant Hp).
      now rewrite (scan_loop_same_stat pats level _ _ _ (Ht pats)).
  - (* empty listing *)
    intros _ _. repeat split; [constructor | constructor |].
    intros. simpl. constructor.
  - (* same name, related entries *)
    intros name e e' l l' _ IHe _ IHl Hd Hnd.
    inversion Hd as [|p l0 Hp Hl]; subst. inversion Hnd as [|n l0 Hni Hnd']; subst.
    destruct (IHe Hp) as (He' & Hse). destruct (IHl Hl Hnd') as (Hl' & Hperm & Ht).
    repeat split.
    + constructor; assumption.
    + simpl. now apply perm_skip.
    + intros pats f. simpl. destruct (ueqb name f); [apply Hse | apply Ht].
  - (* two neighbours swapped *)
    intros [n1 e1] [n2 e2] l Hd Hnd.
    inversion Hd as [|p l0 Hp1 Hl1]; subst. inversion Hl1 as [|p l0 Hp2 Hl2]; subst.
    repeat split.
    + repeat constructor; assumption.
    + simpl. apply perm_swap.
    + intros pats f. simpl.
      destruct (ueqb n1 f) eqn:E1, (ueqb n2 f) eqn:E2; try apply same_stat_refl.
      apply ueqb_eq in E1, E2. subst. simpl in Hnd.
      inversion Hnd as [|n l0 Hni _]; subst. exfalso. apply Hni. now left.
  - (* composition *)
    intros l1 l2 l3 _ IH1 _ IH2 Hd Hnd.
    destruct (IH1 Hd Hnd) as (Hd2 & Hp12 & Ht12).
    assert (Hnd2 : NoDup (map fst l2)) by (eapply Permutation_NoDup; eassumption).
    destruct (IH2 Hd2 Hnd2) as (Hd3 & Hp23 & Ht23).
    repeat split; [assumption | now rewrite Hp12 |].
    intros pats f. eapply same_stat_trans; [apply Ht12 | apply Ht23].
  - (* no stat *)
    intros H. split; [assumption|]. intros pats. apply same_stat_refl.
  - (* related entries *)
    intros e e' Hr IH H. destruct (IH (H e eq_refl)) as (Hd' & Hs). split.
    + intros e0 [= <-]. exact Hd'.
    + intros pats. simpl. inversion Hr; subst; constructor;
        intros level; apply Hs.
Qed.

(** A directory of files that are kept and not analysed is rendered as the
    lines of its names in the order of the loop. *)
Lemma scan_loop_plain_files pats level table (files : list ustring) :
  Forall (fun f => (exists body, lookup f table = Some (Some (KFile body))) /\
                   isIgnored f pats = Ok false /\
                   includes analysed_exts (extname f) = false) files ->
  forall content,
    scan_loop pats level table files content
    = (content ++ flat_map (file_line level) files, false).
Proof.
  induction 1 as [|f files ((body & Hl) & Hi & He) _ IH]; intros content; simpl.
  - now rewrite app_nil_r.
  - unfold scan_entry. rewrite Hl, Hi, He. rewrite IH.
    unfold file_line. now rewrite <- !app_assoc.
Qed.

Lemma scan_entry_emits (pats : list ustring) (level : nat)
    (listing : list (ustring * option entry)) (f content : ustring) :
  scan_entry pats level (stat_all (scanDirectory pats) listing) f content
  = (content ++ entry_text pats level listing f, entry_stops pats listing f).
Proof.
  unfold scan_entry, entry_text, entry_stops. rewrite lookup_stat_all.
  destruct (lookup f listing) as [[e|]|]; cbn [option_map stat_entry];
    try (now rewrite app_nil_r).
  destruct (isIgnored f pats) as [[|]|err]; try (now rewrite app_nil_r).
  destruct e as [body|sub].
  - unfold file_line.
    destruct (includes analysed_exts (extname f)), body;
      rewrite ?app_nil_r, <- ?app_assoc; reflexivity.
  - unfold folder_line. now rewrite <- !app_assoc.
Qed.

(** The loop emits the texts of the entries one after the other, in the
    order of the names it is given, up to the first entry that stops it. *)
Lemma scan_loop_emits (pats : list ustring) (level : nat)
    (listing : list (ustring * option entry)) (files : list ustring) :
  forall content,
    scan_loop pats level (stat_all (scanDirectory pats) listing) files content
    = (content ++ flat_map (entry_text pats level listing)
                           (up_to (entry_stops pats listing) files),
       existsb (entry_stops pats listing) files).
Proof.
  induction files as [|f files IH]; intros content;
    cbn [scan_loop up_to existsb flat_map]; [now rewrite app_nil_r|].
  rewrite scan_entry_emits.
  destruct (entry_stops pats listing f); cbn [flat_map orb].
  - now rewrite app_nil_r.
  - now rewrite IH, app_assoc.
Qed.

Lemma scan_in_order (pats : list ustring) (level : nat)
    (listing : list (ustring * option entry)) :
  scanDirectory pats (EDir (Some listing)) level = listing_in_order pats level listing.
Proof. cbn [scanDirectory]. now rewrite scan_loop_emits. Qed.

Lemma up_to_prefix (stop : ustring -> bool) (names : list ustring) :
  exists rest, names = up_to stop names ++ rest.
Proof.
  induction names as [|n names [rest IH]]; [now exists []|]. cbn [up_to].
  destruct (stop n); [now exists names|]. exists rest. cbn [app]. now f_equal.
Qed.

(** The document is what does not depend on the tree, followed by the
    listing of the root. *)
Lemma document_ends_with_scan (project_info : ustring -> ustring) (w : workspace) :
  analyzeWorkspace project_info w
  = analyzeWorkspace project_info (with_root w (EDir None))
    ++ scanDirectory (loadGitignorePatterns (gitignore w)) (root w) 0.
Proof.
  unfold analyzeWorkspace.
  cbn [with_root gitignore packageJson requirementsTxt pyprojectToml root
       scanDirectory].
  now rewrite app_nil_r, <- !app_assoc.
Qed.

Lemma written_document (project_info : ustring -> ustring)
    (path_join : list ustring -> ustring) (h : host) (w : workspace)
    (path doc : ustring) :
  folder h = Some w ->
  written (generateStructure project_info path_join h) = Some (path, doc) ->
  doc = analyzeWorkspace project_info w.
Proof.
  intros Hf. unfold generateStructure. rewrite Hf.
  destruct (mkdir_ok h), (writeFile_ok h), (show_ok h); cbn [negb written];
    congruence.
Qed.

Lemma up_to_app (stop : ustring -> bool) (pre rest : list ustring) :
  existsb stop pre = false -> up_to stop (pre ++ rest) = pre ++ up_to stop rest.
Proof.
  induction pre as [|n pre IH]; [reflexivity|]. cbn [existsb app up_to].
  intros H. apply orb_false_iff in H as [Hn Hp]. rewrite Hn. now rewrite IH.
Qed.

(** C8. The generator is a function of the snapshot, and the only freedom
    a snapshot leaves is the order in which each directory is enumerated.
    The listing of every directory, at any level, is the text of its
    entries one after the other in code-unit (lexicographic) order of their
    names, whatever the kind of the entries, up to the first entry that ends
    the loop; the names emitted are a prefix of the sorted names.  Two
    snapshots of the same tree (names distinct within each directory) that
    differ only in the enumeration order of their directories give the same
    scan and the same run of the generator.  The document written is the
    text that does not depend on the tree followed by the scan of the root,
    so the same scan means the same bytes. *)
Theorem scan_independent_of_enumeration (e e' : entry) :
  reordered e e' ->
  distinct_names e ->
  (forall pats level, scanDirectory pats e level = scanDirectory pats e' level) /\
  (forall project_info path_join h w,
      folder h = Some w -> root w = e ->
      generateStructure project_info path_join h
      = generateStructure project_info path_join (with_folder h (with_root w e'))) /\
  (forall listing : list (ustring * option entry),
      Sorted in_order (sort (map fst listing)) /\
      Permutation (map fst listing) (sort (map fst listing))) /\
  (forall pats level listing,
      Forall (fun f => (exists body, lookup f listing = Some (Some (EFile body))) /\
                       isIgnored f pats = Ok false /\
                       includes analysed_exts (extname f) = false)
             (map fst listing) ->
      scanDirectory pats (EDir (Some listing)) level
      = flat_map (file_line level) (sort (map fst listing))) /\
  (forall pats level listing,
      scanDirectory pats (EDir (Some listing)) level
      = listing_in_order pats level listing) /\
  (forall pats (listing : list (ustring * option entry)),
      exists rest,
        sort (map fst listing)
        = up_to (entry_stops pats listing) (sort (map fst listing)) ++ rest) /\
  (forall project_info w,
      analyzeWorkspace project_info w
      = analyzeWorkspace project_info (with_root w (EDir None))
        ++ scanDirectory (loadGitignorePatterns (gitignore w)) (root w) 0) /\
  (forall project_info path_join h w path doc,
      folder h = Some w ->
      written (generateStructure project_info path_join h) = Some (path, doc) ->
      doc = analyzeWorkspace project_info w).
Proof.
  intros Hr Hd.
  destruct (proj1 reordered_scan e e' Hr Hd) as [_ Hscan].
  split; [exact Hscan|]. split; [|split; [|split; [|split; [|split; [|split]]]]].
  - intros project_info path_join h w Hf Hroot.
    unfold generateStructure. rewrite Hf. cbn [folder with_folder].
    assert (Ha : analyzeWorkspace project_info w
                 = analyzeWorkspace project_info (with_root w e')).
    { unfold analyzeWorkspace. cbn [with_root gitignore packageJson
        requirementsTxt pyprojectToml root]. now rewrite Hroot, Hscan. }
    now rewrite Ha.
  - intros listing. split; [apply sort_sorted | apply sort_permutation].
  - intros pats level listing Hall. cbn [scanDirectory].
    rewrite scan_loop_plain_files; [reflexivity|].
    apply Forall_forall. intros f Hf.
    apply (Permutation_in _ (Permutation_sym (sort_permutation _))) in Hf.
    rewrite Forall_forall in Hall. destruct (Hall f Hf) as ((body & Hl) & Hi & He).
    repeat split; try assumption.
    exists body. now rewrite lookup_stat_all, Hl.
  - intros pats level listing. apply scan_in_order.
  - intros pats listing. apply up_to_prefix.
  - intros project_info w. apply document_ends_with_scan.
  - intros project_info path_join h w path doc. apply written_document.
Qed.

Lemma scan_independent_of_enumeration_witness :
  scanDirectory [u "*.log"] enumerated_one_way 0
  = scanDirectory [u "*.log"] enumerated_other_way 0.
Proof.
  assert (Hr : reordered enumerated_one_way enumerated_other_way).
  { apply reordered_dir. eapply reordered_trans; [apply reordered_swap|].
    apply reordered_cons.
    - apply reordered_some, reordered_dir, reordered_swap.
    - apply reordered_cons; [|apply reordered_nil].
      apply reordered_some, reordered_file. }
  assert (Hd : distinct_names enumerated_one_way).
  { apply distinct_dir.
    - repeat constructor; simpl; intros H;
        repeat (destruct H as [H|H]; [discriminate H|]); exact H.
    - repeat constructor; simpl; intros e [= <-]; try apply distinct_file.
      apply distinct_dir.
      + repeat constructor; simpl; intros H;
          repeat (destruct H as [H|H]; [discriminate H|]); exact H.
      + repeat constructor; simpl; intros e; try discriminate.
        intros [= <-]. apply distinct_file. }
  exact (proj1 (scan_independent_of_enumeration Hr Hd) [u "*.log"] 0).
Defined.

(** ** The parser has fuel enough *)

Lemma settled_mono (n m : nat) x : n <= m -> settled n x -> settled m x.
Proof. destruct x as [[[r rest] g]|e]; simpl; [lia | auto]. Qed.

Lemma parse_digits_length (s : ustring) (acc : option nat) :
  List.length (snd (parse_digits s acc)) <= List.length s.
Proof.
  revert acc; induction s as [|c s IH]; intros acc; simpl; [lia|].
  destruct (is_digit c); simpl; [|lia].
  etransitivity; [apply IH | lia].
Qed.

Lemma parse_braces_length (s : ustring) n mx rest :
  parse_braces s = Some (n, mx, rest) -> List.length rest <= List.length s.
Proof.
  unfold parse_braces. destruct s as [|c s1]; [discriminate|].
  destruct (is_ch c "{"); [|discriminate].
  pose proof (parse_digits_length s1 None) as H1.
  destruct (parse_digits s1 None) as [[n1|] [|d s2]]; try discriminate.
  simpl in H1. destruct (is_ch d "}").
  - intros [= <- <- <-]. simpl. lia.
  - destruct (is_ch d ","); [|discriminate].
    pose proof (parse_digits_length s2 None) as H2.
    destruct (parse_digits s2 None) as [[m|] [|e s3]]; try discriminate;
      simpl in H2; destruct (is_ch e "}"); try discriminate;
      intros [= <- <- <-]; simpl; lia.
Qed.

Lemma take_lazy_length (s : ustring) :
  List.length (snd (take_lazy s)) <= List.length s.
Proof.
  destruct s as [|c s]; simpl; [lia|]. destruct (is_ch c "?"); simpl; lia.
Qed.

Lemma parse_quantifier_settled (r : regex) (s : ustring) (g : nat) :
  settled (List.length s) (with_group g (parse_quantifier r s)).
Proof.
  unfold parse_quantifier.
  destruct (parse_braces s) as [[[n mx] s1]|] eqn:Eb.
  - apply parse_braces_length in Eb.
    destruct (match mx with Some m => Nat.ltb m n | None => false end);
      [simpl; discriminate|].
    pose proof (take_lazy_length s1). destruct (take_lazy s1) as [lz rest].
    simpl in *. lia.
  - destruct s as [|q s1]; [simpl; lia|].
    pose proof (take_lazy_length s1). destruct (take_lazy s1) as [lz rest].
    simpl in H.
    destruct (is_ch q "*"); [simpl; lia|].
    destruct (is_ch q "+"); [simpl; lia|].
    destruct (is_ch q "?"); simpl; lia.
Qed.

Lemma no_quantifier_settled (r : regex) (s : ustring) (g : nat) :
  settled (List.length s) (with_group g (no_quantifier r s)).
Proof.
  unfold no_quantifier. destruct (_ || _); simpl; [discriminate | lia].
Qed.

Lemma parse_escape_settled (e : cu) (x : error) :
  parse_escape e = Err x -> x <> OutOfFuel.
Proof.
  unfold parse_escape.
  repeat match goal with
         | |- (if ?b then _ else _) = _ -> _ => destruct b; try discriminate
         end.
  intros [= <-]. discriminate.
Qed.

Lemma class_range_settled (i j : citem) (x : error) :
  class_range i j = Err x -> x <> OutOfFuel.
Proof.
  unfold class_range. destruct i, j; try discriminate.
  destruct (N.ltb _ _); [|discriminate]. intros [= <-]. discriminate.
Qed.

Lemma parse_class_settled (n : nat) :
  forall s acc,
    List.length s <= n ->
    match parse_class s acc with
    | Ok (_, rest) => List.length rest < List.length s
    | Err e => e <> OutOfFuel
    end.
Proof.
  induction n as [|n IH]; intros s acc Hn; destruct s as [|c s1];
    try (simpl; discriminate); simpl in Hn; [lia|].
  assert (Hrec : forall s' acc', List.length s' <= List.length s1 ->
             match parse_class s' acc' with
             | Ok (_, rest) => List.length rest < List.length (c :: s1)
             | Err e => e <> OutOfFuel
             end).
  { intros s' acc' Hs'. specialize (IH s' acc' ltac:(lia)).
    destruct (parse_class s' acc') as [[? ?]|?]; simpl in *; [lia | auto]. }
  cbn [parse_class]. destruct (is_ch c "]"); [simpl; lia|].
  destruct (is_ch c "\").
  - destruct s1 as [|e s2]; [discriminate|].
    destruct (parse_escape e) as [i|x] eqn:Ee;
      [|now apply parse_escape_settled in Ee].
    destruct s2 as [|d [|h s4]]; try (apply Hrec; simpl; lia).
    destruct (is_ch d "-" && negb (is_ch h "]")); [|apply Hrec; simpl; lia].
    destruct (is_ch h "\").
    + destruct s4 as [|e2 s5]; [discriminate|].
      destruct (parse_escape e2) as [j|x] eqn:Ee2;
        [|now apply parse_escape_settled in Ee2].
      destruct (class_range i j) as [items|x] eqn:Er;
        [|now apply class_range_settled in Er].
      apply Hrec. simpl. lia.
    + destruct (class_range i (IChar h)) as [items|x] eqn:Er;
        [|now apply class_range_settled in Er].
      apply Hrec. simpl. lia.
  - destruct s1 as [|d [|h s3]]; try (apply Hrec; simpl; lia).
    destruct (is_ch d "-" && negb (is_ch h "]")); [|apply Hrec; simpl; lia].
    destruct (is_ch h "\").
    + destruct s3 as [|e2 s4]; [discriminate|].
      destruct (parse_escape e2) as [j|x] eqn:Ee2;
        [|now apply parse_escape_settled in Ee2].
      destruct (class_range (IChar c) j) as [items|x] eqn:Er;
        [|now apply class_range_settled in Er].
      apply Hrec. simpl. lia.
    + destruct (class_range (IChar c) (IChar h)) as [items|x] eqn:Er;
        [|now apply class_range_settled in Er].
      apply Hrec. simpl. lia.
Qed.

Lemma expect_close_settled (s : ustring) :
  match expect_close s with
  | Ok rest => List.length rest < List.length s
  | Err e => e <> OutOfFuel
  end.
Proof.
  destruct s as [|c s]; simpl; [discriminate|].
  destruct (is_ch c ")"); [lia | discriminate].
Qed.

(** With three units of fuel for each code unit, and three more, parsing
    never stops for lack of fuel. *)
Lemma parse_settled (fuel : nat) :
  (forall s g, 3 * List.length s + 3 <= fuel ->
               settled (List.length s) (parse_disjunction fuel s g)) /\
  (forall s g, 3 * List.length s + 2 <= fuel ->
               settled (List.length s) (parse_alternative fuel s g)) /\
  (forall s g, 3 * List.length s + 1 <= fuel ->
               settled (pred (List.length s)) (parse_term fuel s g)).
Proof.
  induction fuel as [|f (IHD & IHA & IHT)].
  - repeat split; intros; lia.
  - assert (Hgroup : forall (s' : ustring) (g0 bound : nat) (wrap : regex -> regex),
               3 * List.length s' + 3 <= f -> List.length s' <= bound ->
               settled bound
                 match parse_disjunction f s' g0 with
                 | Err x => Err x
                 | Ok (r, rest, g1) =>
                   match expect_close rest with
                   | Err x => Err x
                   | Ok rest' => with_group g1 (parse_quantifier (wrap r) rest')
                   end
                 end).
    { intros s' g0 bound wrap Hf Hb.
      pose proof (IHD s' g0 Hf) as HD.
      destruct (parse_disjunction f s' g0) as [[[r rest] g1]|e]; [|exact HD].
      simpl in HD. pose proof (expect_close_settled rest) as Hc.
      destruct (expect_close rest) as [rest'|e]; [|exact Hc].
      eapply settled_mono; [|apply parse_quantifier_settled]. lia. }
    repeat split; intros s g Hf.
    + cbn [parse_disjunction].
      pose proof (IHA s g ltac:(lia)) as HA.
      destruct (parse_alternative f s g) as [[[r1 rest] g1]|e]; [|exact HA].
      simpl in HA. destruct rest as [|c rest']; [simpl; lia|].
      simpl in HA. destruct (is_ch c "|"); [|simpl; exact HA].
      pose proof (IHD rest' g1 ltac:(lia)) as HD.
      destruct (parse_disjunction f rest' g1) as [[[r2 rest2] g2]|e];
        simpl in *; [lia | exact HD].
    + cbn [parse_alternative].
      destruct s as [|c s1]; [simpl; lia|].
      destruct (is_ch c "|" || is_ch c ")"); [simpl; lia|].
      pose proof (IHT (c :: s1) g ltac:(simpl in *; lia)) as HT.
      destruct (parse_term f (c :: s1) g) as [[[r1 rest] g1]|e]; [|exact HT].
      simpl in HT, Hf.
      pose proof (IHA rest g1 ltac:(lia)) as HA.
      destruct (parse_alternative f rest g1) as [[[r2 rest2] g2]|e];
        simpl in *; [lia | exact HA].
    + cbn [parse_term].
      destruct s as [|c s1]; [simpl; discriminate|].
      simpl in Hf. cbn [List.length pred].
      destruct (is_ch c "^"); [apply no_quantifier_settled|].
      destruct (is_ch c "$"); [apply no_quantifier_settled|].
      destruct (is_ch c "*" || is_ch c "+" || is_ch c "?" || is_ch c ")");
        [simpl; discriminate|].
      destruct (is_ch c "."); [apply parse_quantifier_settled|].
      destruct (is_braced_start (c :: s1)); [simpl; discriminate|].
      destruct (is_ch c "\").
      { destruct s1 as [|e s2]; [simpl; discriminate|].
        destruct (parse_escape e) as [i|x] eqn:Ee;
          [|now apply parse_escape_settled in Ee].
        eapply settled_mono; [|apply parse_quantifier_settled]. simpl. lia. }
      destruct (is_ch c "[").
      { cbv zeta.
        match goal with
        | |- context [parse_class ?cls []] =>
            assert (Hl : List.length cls <= List.length s1)
              by (destruct s1 as [|d s2]; simpl; [lia|];
                  destruct (is_ch d "^"); simpl; lia);
            pose proof (@parse_class_settled (List.length cls) cls [] (le_n _)) as Hc;
            destruct (parse_class cls []) as [[items rest]|x]; [|exact Hc]
        end.
        eapply settled_mono; [|apply parse_quantifier_settled]. lia. }
      destruct (is_ch c "(").
      { destruct s1 as [|q [|k s3]];
          try (apply Hgroup; simpl in *; lia).
        destruct (is_ch q "?"); [|apply Hgroup; simpl in *; lia].
        destruct (is_ch k ":"); [apply Hgroup; simpl in *; lia|].
        destruct (is_ch k "=" || is_ch k "!").
        - pose proof (IHD s3 g ltac:(simpl in *; lia)) as HD.
          destruct (parse_disjunction f s3 g) as [[[r rest] g1]|e]; [|exact HD].
          simpl in HD. pose proof (expect_close_settled rest) as Hc.
          destruct (expect_close rest) as [rest'|e]; [|exact Hc].
          destruct (_ || _); simpl in *; [discriminate | lia].
        - destruct (is_ch k "<"); simpl; discriminate. }
      apply parse_quantifier_settled.
Qed.

(** [new RegExp] is decided: the parser never runs out of fuel. *)
Lemma compile_never_out_of_fuel (src : ustring) : compile src <> Err OutOfFuel.
Proof.
  unfold compile.
  pose proof (proj1 (parse_settled (4 * S (List.length src))) src 1 ltac:(lia)) as H.
  destruct (parse_disjunction _ src 1) as [[[r [|c rest]] g]|e]; try discriminate.
  simpl in H. congruence.
Qed.

(** ** The quantifier has fuel enough *)

Section MatcherFuel.

Variable multiline : bool.
Variable inp : ustring.

Local Abbreviation len := (List.length inp).

Lemma repeat_matcher_forward (m : mstate -> cont -> option mstate) ns greedy :
  forward inp m ->
  forall fuel min max, forward inp (repeat_matcher fuel m ns min max greedy).
Proof.
  intros Hm. induction fuel as [|fuel IH]; intros min max x k1 k2 Hx Hk; simpl.
  - destruct max as [[|n]|]; destruct min; try reflexivity; apply Hk; lia.
  - assert (Hd : forall y, endIndex (clear_captures ns x) <= endIndex y <= len ->
               (if Nat.eqb min 0 && Nat.eqb (endIndex y) (endIndex x) then None
                else repeat_matcher fuel m ns (pred min) (dec_max max) greedy y k1)
               = (if Nat.eqb min 0 && Nat.eqb (endIndex y) (endIndex x) then None
                  else repeat_matcher fuel m ns (pred min) (dec_max max) greedy y k2)).
    { intros y Hy. destruct (_ && _); [reflexivity|].
      apply IH; [lia|]. intros z Hz. apply Hk. simpl in Hy. lia. }
    assert (Hkx : k1 x = k2 x) by (apply Hk; lia).
    destruct max as [[|n]|]; try exact Hkx;
      destruct min; try destruct greedy; rewrite ?Hkx; same_runs Hm Hx Hd.
Qed.

Lemma matcher_forward (r : regex) : forward inp (matcher multiline inp r).
Proof.
  induction r as [|c| |neg items| | |r1 IH1 r2 IH2|r1 IH1 r2 IH2
                 |min max greedy r IH|n r IH|neg r IH];
    intros x k1 k2 Hx Hk; cbn [matcher]; unfold char_matcher.
  - apply Hk. lia.
  - destruct (nth_error inp (endIndex x)) eqn:E; [|reflexivity].
    destruct (cu_eqb c c0); [|reflexivity]. apply Hk. simpl.
    assert (endIndex x < len) by (apply nth_error_Some; congruence). lia.
  - destruct (nth_error inp (endIndex x)) eqn:E; [|reflexivity].
    destruct (negb _); [|reflexivity]. apply Hk. simpl.
    assert (endIndex x < len) by (apply nth_error_Some; congruence). lia.
  - destruct (nth_error inp (endIndex x)) eqn:E; [|reflexivity].
    destruct (set_matches _ _ _); [|reflexivity]. apply Hk. simpl.
    assert (endIndex x < len) by (apply nth_error_Some; congruence). lia.
  - destruct (at_bol _ _ x); [apply Hk; lia | reflexivity].
  - destruct (at_eol _ _ x); [apply Hk; lia | reflexivity].
  - apply IH1; [exact Hx|]. intros y Hy. apply IH2; [lia|].
    intros z Hz. apply Hk. lia.
  - now rewrite (IH1 x k1 k2 Hx Hk), (IH2 x k1 k2 Hx Hk).
  - now apply repeat_matcher_forward.
  - apply IH; [exact Hx|]. intros y Hy. apply Hk. simpl. lia.
  - destruct (matcher multiline inp r x Some); destruct neg; try reflexivity;
      apply Hk; simpl; lia.
Qed.

Lemma repeat_matcher_S fuel (m : mstate -> cont -> option mstate) ns min max greedy x k :
  repeat_matcher (S fuel) m ns min max greedy x k =
  match max with
  | Some O => k x
  | _ =>
    let d := fun y =>
      if Nat.eqb min 0 && Nat.eqb (endIndex y) (endIndex x) then None
      else repeat_matcher fuel m ns (pred min) (dec_max max) greedy y k in
    let xr := clear_captures ns x in
    match min with
    | S _ => m xr d
    | O =>
      if greedy then match m xr d with Some z => Some z | None => k x end
      else match k x with Some z => Some z | None => m xr d end
    end
  end.
Proof. reflexivity. Qed.

(** Past [min] plus the number of code units left, more fuel changes
    nothing: the bound given to the quantifier is not a restriction. *)
Lemma repeat_matcher_fuel (m : mstate -> cont -> option mstate) ns greedy :
  forward inp m ->
  (forall x k, (forall y, k y = None) -> m x k = None) ->
  forall fuel min max x k,
    endIndex x <= len ->
    min + (len - endIndex x) <= fuel ->
    repeat_matcher (S fuel) m ns min max greedy x k
    = repeat_matcher fuel m ns min max greedy x k.
Proof.
  intros Hm Hdead. induction fuel as [|fuel IH]; intros min max x k Hx Hf.
  - assert (min = 0) by lia. subst min.
    assert (Hnone : forall d : cont,
               (forall y, endIndex x <= endIndex y <= len -> d y = None) ->
               m (clear_captures ns x) d = None).
    { intros d Hd. transitivity (m (clear_captures ns x) (fun _ => None));
        [|now apply Hdead].
      apply Hm; [exact Hx | exact Hd]. }
    cbn [repeat_matcher].
    destruct max as [[|n]|]; try reflexivity;
      (rewrite Hnone;
       [destruct greedy; try reflexivity; now destruct (k x)|]);
      intros y Hy; cbn [Nat.eqb andb];
      (replace (Nat.eqb (endIndex y) (endIndex x)) with true;
       [reflexivity | symmetry; apply Nat.eqb_eq; lia]).
  - rewrite (repeat_matcher_S (S fuel)), (repeat_matcher_S fuel).
    assert (Hd : forall y, endIndex (clear_captures ns x) <= endIndex y <= len ->
               (if Nat.eqb min 0 && Nat.eqb (endIndex y) (endIndex x) then None
                else repeat_matcher (S fuel) m ns (pred min) (dec_max max) greedy y k)
               = (if Nat.eqb min 0 && Nat.eqb (endIndex y) (endIndex x) then None
                  else repeat_matcher fuel m ns (pred min) (dec_max max) greedy y k)).
    { intros y Hy. simpl in Hy.
      destruct (Nat.eqb min 0 && Nat.eqb (endIndex y) (endIndex x)) eqn:Ec;
        [reflexivity|].
      apply IH; [lia|].
      apply andb_false_iff in Ec as [Ec|Ec]; apply Nat.eqb_neq in Ec; lia. }
    destruct max as [[|n]|]; try reflexivity;
      destruct min; try destruct greedy; cbv zeta; same_runs Hm Hx Hd.
Qed.

End MatcherFuel.

(** The bound that [matcher] hands to a quantifier is such a bound: the
    result is the one any larger amount of fuel gives. *)
Lemma quantifier_fuel_adequate (multiline : bool) (inp : ustring) (r : regex)
    (min : nat) (max : option nat) (greedy : bool) (x : mstate) (k : cont)
    (extra : nat) :
  endIndex x <= List.length inp ->
  repeat_matcher (min + (List.length inp - endIndex x) + extra)
                 (matcher multiline inp r) (groups r) min max greedy x k
  = matcher multiline inp (RQuant min max greedy r) x k.
Proof.
  intros Hx. cbn [matcher]. induction extra as [|extra IH].
  - now rewrite Nat.add_0_r.
  - rewrite <- plus_n_Sm, <- IH.
    apply (@repeat_matcher_fuel inp); try assumption; try lia.
    + apply matcher_forward.
    + intros y k' Hk'. now apply matcher_dead_end.
Qed.

(** A snapshot is a reordering of itself. *)
Lemma reordered_refl : forall e, reordered e e.
Proof.
  fix IH 1. intros [body|[l|]].
  - constructor.
  - constructor.
    induction l as [|[n [e|]] l IHl]; constructor; try assumption; constructor.
    apply IH.
  - constructor.
Qed.

(** ** The regex literals of the program *)

(** Every regex literal of the extractor is in the modelled fragment. *)
Lemma regex_literals_compile :
  Forall (fun src => exists r, compile (u src) = Ok r)
         [js_importRegex_src; js_functionRegex_src; js_classRegex_src;
          js_methodRegex_src; js_capitalRegex_src; js_exportRegex_src;
          js_reactComponentRegex_src; py_importRegex_src; py_functionRegex_src;
          py_classRegex_src; py_methodRegex_src].
Proof.
  repeat (constructor; [eexists; vm_compute; reflexivity|]). constructor.
Qed.

(* ================================================================== *)
(** * Further properties of the analyzer *)

(** ** Rule sets compose *)

Lemma some_app (f : ustring -> result bool) (l1 l2 : list ustring) :
  some f (l1 ++ l2) =
  match some f l1 with
  | Ok false => some f l2
  | r => r
  end.
Proof.
  induction l1 as [|p l1 IH]; simpl; [reflexivity|].
  destruct (f p) as [[|]|e]; [reflexivity | exact IH | reflexivity].
Qed.

(** X1. Rules are tried in order and the first answer that is not "no
    match" decides: on a concatenated rule set [isIgnored] answers as on
    the first part, and consults the second part only when the first did
    not match.  So a path that a rule set ignores stays ignored whatever
    rules are appended (no later rule re-includes it), and the empty rule
    set ignores nothing. *)
Theorem ignore_rules_compose (filePath : ustring) (rules more : list ustring) :
  isIgnored filePath (rules ++ more) =
    match isIgnored filePath rules with
    | Ok false => isIgnored filePath more
    | r => r
    end /\
  (isIgnored filePath rules = Ok true ->
   isIgnored filePath (rules ++ more) = Ok true) /\
  isIgnored filePath [] = Ok false.
Proof.
  unfold isIgnored. split; [apply some_app|]. split; [|reflexivity].
  intros H. now rewrite some_app, H.
Qed.

Lemma ignore_rules_compose_witness :
  isIgnored (u "debug.log") ([u "*.log"] ++ [u "("]) = Ok true.
Proof.
  apply (proj1 (proj2 (ignore_rules_compose (u "debug.log") [u "*.log"] [u "("]))).
  vm_compute. reflexivity.
Defined.

(** ** Separators *)

Lemma normalize_separators_map (s : ustring) :
  normalize_separators s =
  map (fun c => if cu_eqb c (ch "\") then ch "/" else c) s.
Proof.
  unfold normalize_separators. change (u "/") with [ch "/"].
  induction s as [|x s IH]; cbn [replace1 map]; [reflexivity|].
  destruct (cu_eqb x (ch "\")); cbn [app]; now rewrite IH.
Qed.

Lemma normalize_separators_idem (s : ustring) :
  normalize_separators (normalize_separators s) = normalize_separators s.
Proof.
  rewrite !normalize_separators_map, map_map. apply map_ext. intros c.
  destruct (cu_eqb c (ch "\")) eqn:E; [reflexivity | now rewrite E].
Qed.

Lemma trimStart_map (f : cu -> cu) (s : ustring) :
  (forall c, is_space (f c) = is_space c) ->
  trimStart (map f s) = map f (trimStart s).
Proof.
  intros Hf. induction s as [|c s IH]; simpl; [reflexivity|].
  rewrite Hf. destruct (is_space c); [exact IH | reflexivity].
Qed.

Lemma trim_map (f : cu -> cu) (s : ustring) :
  (forall c, is_space (f c) = is_space c) ->
  trim (map f s) = map f (trim s).
Proof.
  intros Hf. unfold trim, trimEnd.
  now rewrite (trimStart_map f s Hf), <- map_rev, (trimStart_map f _ Hf), map_rev.
Qed.

Lemma trim_normalize_separators (s : ustring) :
  trim (normalize_separators s) = normalize_separators (trim s).
Proof.
  rewrite !normalize_separators_map. apply trim_map. intros c.
  destruct (cu_eqb c (ch "\")) eqn:E; [|reflexivity].
  apply N.eqb_eq in E. now subst.
Qed.

Lemma normalizePattern_separators (pattern : ustring) :
  normalizePattern (normalize_separators pattern) = normalizePattern pattern.
Proof.
  unfold normalizePattern.
  now rewrite trim_normalize_separators, normalize_separators_idem.
Qed.

Lemma some_map (f : ustring -> result bool) (g : ustring -> ustring)
    (l : list ustring) :
  some f (map g l) = some (fun p => f (g p)) l.
Proof.
  induction l as [|p l IH]; simpl; [reflexivity|].
  destruct (f (g p)) as [[|]|e]; [reflexivity | exact IH | reflexivity].
Qed.

Lemma some_ext (f g : ustring -> result bool) (l : list ustring) :
  (forall p, f p = g p) -> some f l = some g l.
Proof.
  intros H. induction l as [|p l IH]; simpl; [reflexivity|].
  rewrite H. destruct (g p) as [[|]|e]; [reflexivity | exact IH | reflexivity].
Qed.

(** X2. Backslashes count as separators on both sides: a path and the
    patterns written with backslashes are treated exactly as their
    forward-slash forms, so a rule set ignores the same entries whatever
    separator the host or the ignore-file uses. *)
Theorem ignore_independent_of_separator (filePath : ustring) (patterns : list ustring) :
  isIgnored (normalize_separators filePath) (map normalize_separators patterns)
  = isIgnored filePath patterns.
Proof.
  unfold isIgnored. rewrite some_map, normalize_separators_idem.
  apply some_ext. intros p. unfold pattern_test.
  now rewrite normalizePattern_separators.
Qed.

(** ** The lines of the ignore-file *)

Lemma trimStart_head (s : ustring) (c : cu) (rest : ustring) :
  trimStart s = c :: rest -> is_space c = false.
Proof.
  induction s as [|x s IH]; simpl; [discriminate|].
  destruct (is_space x) eqn:E; [exact IH|]. intros [= <- _]. exact E.
Qed.

Lemma trimStart_keeps_last (front : ustring) (c : cu) :
  is_space c = false -> exists front', trimStart (front ++ [c]) = front' ++ [c].
Proof.
  intros Hc. induction front as [|x front IH]; simpl.
  - rewrite Hc. now exists [].
  - destruct (is_space x); [exact IH|]. now exists (x :: front).
Qed.

Lemma trim_no_outer_space (s : ustring) : no_outer_space (trim s).
Proof.
  unfold trim, trimEnd. split.
  - intros c rest H.
    destruct (trimStart s) as [|c0 t] eqn:Et; [discriminate H|].
    pose proof (@trimStart_head s c0 t Et) as Hc0.
    simpl rev in H.
    destruct (@trimStart_keeps_last (rev t) c0 Hc0) as [front' E].
    rewrite E, rev_app_distr in H. simpl in H. now injection H as <- _.
  - intros c front H. apply (f_equal (@rev cu)) in H.
    rewrite rev_involutive, rev_app_distr in H. simpl in H.
    now apply trimStart_head in H.
Qed.

(** X3. From a readable ignore-file the rule set takes, in order and before
    the defaults, its lines without surrounding white space, leaving out the
    blank lines, the comments and the negations: every custom rule is
    non-empty, starts with neither [#] nor [!] and has no white space at
    either end.  A file that holds only blank lines, comments and negations
    yields the defaults alone. *)
Theorem ignore_file_lines_are_filtered (content : ustring) :
  exists custom,
    loadGitignorePatterns (Present content) = custom ++ defaultPatterns /\
    Forall (fun p => p <> [] /\ startsWith (u "#") p = false /\
                     startsWith (u "!") p = false /\ no_outer_space p) custom /\
    (Forall (fun line => trim line = [] \/ startsWith (u "#") (trim line) = true \/
                         startsWith (u "!") (trim line) = true)
            (split 10%N content) ->
     custom = []).
Proof.
  exists (filter keep_line (map trim (split 10%N content))).
  split; [reflexivity|]. split.
  - apply Forall_forall. intros p Hp. apply filter_In in Hp as [Hin Hk].
    apply in_map_iff in Hin as (line & <- & _).
    unfold keep_line in Hk. destruct (trim line) as [|c t] eqn:Et; [discriminate|].
    rewrite <- Et in *.
    destruct (startsWith (u "#") (trim line)); [discriminate|].
    destruct (startsWith (u "!") (trim line)); [discriminate|].
    repeat split; try reflexivity; try apply trim_no_outer_space.
    rewrite Et. discriminate.
  - intros Hall. induction (split 10%N content) as [|line lines IH]; [reflexivity|].
    inversion Hall as [|? ? Hl Hrest]; subst. simpl.
    replace (keep_line (trim line)) with false; [now apply IH|].
    unfold keep_line. destruct Hl as [->|[->| H]]; try reflexivity.
    + now destruct (trim line).
    + destruct (trim line); [reflexivity|].
      rewrite H. now destruct (startsWith (u "#") _).
Qed.

Lemma ignore_file_lines_are_filtered_witness :
  loadGitignorePatterns
    (Present (u "# build output" ++ nl ++ u "  " ++ nl ++ u "!keep.log"))
  = defaultPatterns.
Proof.
  destruct (ignore_file_lines_are_filtered
              (u "# build output" ++ nl ++ u "  " ++ nl ++ u "!keep.log"))
    as (custom & E & _ & H).
  rewrite E, H; [reflexivity|].
  replace (split 10%N (u "# build output" ++ nl ++ u "  " ++ nl ++ u "!keep.log"))
    with [u "# build output"; u "  "; u "!keep.log"] by (vm_compute; reflexivity).
  constructor; [right; left; reflexivity|].
  constructor; [left; reflexivity|].
  constructor; [right; right; reflexivity|]. constructor.
Defined.

(** ** Without an ignore-file *)

Lemma matcher_alt_left (multiline : bool) (inp : ustring) (a b : regex) x k :
  matcher multiline inp a x k <> None ->
  matcher multiline inp (RAlt a b) x k <> None.
Proof. cbn [matcher]. now destruct (matcher multiline inp a x k). Qed.

Lemma matcher_alt_right (multiline : bool) (inp : ustring) (a b : regex) x k :
  matcher multiline inp b x k <> None ->
  matcher multiline inp (RAlt a b) x k <> None.
Proof.
  cbn [matcher]. destruct (matcher multiline inp a x k); [discriminate | auto].
Qed.

Lemma run_length_stop (p : cu -> bool) (l : ustring) (c : cu) :
  nth_error l (run_length p l) = Some c -> p c = false.
Proof.
  induction l as [|x l IH]; simpl; [discriminate|].
  destruct (p x) eqn:E; simpl; [exact IH|]. now intros [= <-].
Qed.

Lemma run_length_le (p : cu -> bool) (l : ustring) :
  run_length p l <= List.length l.
Proof.
  induction l as [|x l IH]; simpl; [lia|]. destruct (p x); simpl; lia.
Qed.

(** A greedy star over a class runs to the end of the longest run of the
    class; it succeeds when its continuation succeeds there. *)
Lemma greedy_run (inp : ustring) (p : cu -> bool)
    (m : mstate -> cont -> option mstate) (k : cont) :
  (forall x k', m x k' = char_matcher inp p x k') ->
  forall fuel i caps,
    fuel = List.length inp - i -> i <= List.length inp ->
    (forall caps', k (MState (i + run_length p (skipn i inp)) caps') <> None) ->
    repeat_matcher fuel m [] 0 None true (MState i caps) k <> None.
Proof.
  intros Hm. induction fuel as [|fuel IH]; intros i caps Hf Hi Hk.
  - simpl. specialize (Hk caps).
    rewrite skipn_all2 in Hk by lia. simpl in Hk. now rewrite Nat.add_0_r in Hk.
  - rewrite repeat_matcher_S. cbv zeta. rewrite Hm. unfold char_matcher.
    cbn [endIndex clear_captures captures].
    destruct (nth_error inp i) as [c|] eqn:Ec.
    2:{ apply nth_error_None in Ec. lia. }
    rewrite (skipn_nth_error _ _ Ec) in Hk. cbn [run_length] in Hk.
    destruct (p c).
    + cbn [endIndex]. change (Nat.eqb 0 0) with true. cbn [andb].
      replace (Nat.eqb (S i) i) with false by (symmetry; apply Nat.eqb_neq; lia).
      assert (Hin : repeat_matcher fuel m [] (pred 0) (dec_max None) true
                      (MState (S i) (filter (fun _ => negb false) caps)) k <> None).
      { apply IH; [lia | |].
        - assert (i < List.length inp) by (apply nth_error_Some; congruence). lia.
        - intros caps'. specialize (Hk caps').
          now rewrite <- plus_n_Sm in Hk. }
      cbn [existsb] in *.
      destruct (repeat_matcher fuel m [] (pred 0) (dec_max None) true _ k);
        [discriminate | contradiction].
    + specialize (Hk caps). now rewrite Nat.add_0_r in Hk.
Qed.

Lemma search_from_first (multiline : bool) (s : ustring) (r : regex) (n i : nat) :
  matcher multiline s r (MState i []) Some <> None ->
  search_from multiline s r n i <> None.
Proof.
  intros H. destruct n; simpl;
    destruct (matcher multiline s r (MState i []) Some); congruence.
Qed.

Lemma test_at_start (multiline : bool) (r : regex) (s : ustring) :
  matcher multiline s r (MState 0 []) Some <> None -> test multiline r s = true.
Proof.
  intros H. unfold test, exec_at. cbn [Nat.ltb Nat.leb].
  apply (search_from_first multiline s r (List.length s - 0) 0) in H.
  now destruct (search_from multiline s r (List.length s - 0) 0) as [[? ?]|].
Qed.

Lemma dotfile_rule_compiles :
  compile (regexSource (regexPattern (normalizePattern (u ".*"))))
  = Ok dotfile_rule_regex.
Proof. vm_compute. reflexivity. Qed.

Lemma dotfile_rule_matches (rest : ustring) :
  test false dotfile_rule_regex (ch "." :: rest) = true.
Proof.
  apply test_at_start.
  set (inp := ch "." :: rest).
  set (notslash := set_matches true [IChar (ch "/")]).
  assert (Hrun : forall k,
             (forall caps', k (MState (1 + run_length notslash rest) caps') <> None) ->
             matcher false inp (RQuant 0 None true (RSet true [IChar (ch "/")]))
                     (MState 1 []) k <> None).
  { intros k Hk. cbn [matcher groups Nat.add endIndex].
    apply (@greedy_run inp notslash); try reflexivity.
    - subst inp. simpl. lia.
    - exact Hk. }
  unfold dotfile_rule_regex.
  destruct (Nat.eq_dec (1 + run_length notslash rest) (List.length inp)) as [E|E].
  - apply matcher_alt_left. cbn [matcher]. cbn [at_bol endIndex].
    unfold char_matcher at 1. cbn [endIndex nth_error inp captures].
    change (cu_eqb 46%N (ch ".")) with true. cbv iota.
    apply Hrun. intros caps'. cbn [matcher]. unfold at_eol. cbn [endIndex].
    rewrite E.
    replace (nth_error inp (List.length inp)) with (@None cu)
      by (symmetry; apply nth_error_None; lia).
    rewrite Nat.eqb_refl. discriminate.
  - apply matcher_alt_right, matcher_alt_left. cbn [matcher]. cbn [at_bol endIndex].
    unfold char_matcher at 1. cbn [endIndex nth_error inp captures].
    change (cu_eqb 46%N (ch ".")) with true. cbv iota.
    apply Hrun. intros caps'. cbn [matcher]. unfold char_matcher.
    cbn [endIndex Nat.add nth_error inp].
    pose proof (run_length_le notslash rest) as Hle.
    destruct (nth_error rest (run_length notslash rest)) as [c|] eqn:Ec.
    + pose proof (run_length_stop notslash rest Ec) as Hc.
      unfold notslash, set_matches in Hc. cbn [existsb item_matches] in Hc.
      rewrite orb_false_r in Hc. apply negb_false_iff in Hc.
      unfold cu_eqb in *. apply N.eqb_eq in Hc. subst c.
      discriminate.
    + apply nth_error_None in Ec. subst inp. simpl in E. lia.
Qed.

(** X4. When the workspace has no ignore-file, every path whose first
    component starts with a dot is ignored: the catch-all rule [.*] comes
    first in the rule set and matches it as a whole or as a directory
    prefix. *)
Theorem dot_entries_ignored_without_ignore_file (rest : ustring) :
  isIgnored (ch "." :: rest) (loadGitignorePatterns Absent) = Ok true.
Proof.
  unfold isIgnored, loadGitignorePatterns. cbn [some].
  unfold pattern_test. rewrite dotfile_rule_compiles.
  rewrite normalize_separators_map. cbn [map].
  change (cu_eqb (ch ".") (ch "\")) with false. cbv iota.
  now rewrite dotfile_rule_matches.
Qed.

(** ** What the extractor reports *)

Lemma infix_of_refl (s : ustring) : infix_of s s.
Proof. exists [], []. now rewrite app_nil_r. Qed.

Lemma infix_of_nil (s : ustring) : infix_of [] s.
Proof. now exists [], s. Qed.

Lemma infix_of_trans (a b c : ustring) :
  infix_of a b -> infix_of b c -> infix_of a c.
Proof.
  intros (x & y & ->) (x' & y' & ->). exists (x' ++ x), (y ++ y').
  now rewrite <- !app_assoc.
Qed.

Lemma substring_infix (i e : nat) (s : ustring) : infix_of (substring i e s) s.
Proof.
  unfold substring. exists (firstn i s), (skipn (e - i) (skipn i s)).
  now rewrite firstn_skipn, firstn_skipn.
Qed.

Lemma trimStart_suffix (s : ustring) : exists a, s = a ++ trimStart s.
Proof.
  induction s as [|c s [a IH]]; simpl; [now exists []|].
  destruct (is_space c); [|now exists []].
  exists (c :: a). simpl. now f_equal.
Qed.

Lemma trim_infix (s : ustring) : infix_of (trim s) s.
Proof.
  unfold trim, trimEnd.
  destruct (trimStart_suffix s) as [a Ea].
  destruct (trimStart_suffix (rev (trimStart s))) as [b Eb].
  exists a, (rev b). rewrite Ea at 1. f_equal.
  rewrite <- rev_app_distr, <- Eb. now rewrite rev_involutive.
Qed.

Lemma group_infix (s : ustring) (mt : rmatch) (n : nat) (g : ustring) :
  group s mt n = Some g -> infix_of g s.
Proof.
  unfold group. destruct (get_capture n (m_caps mt)) as [[i e]|]; [|discriminate].
  intros [= <-]. apply substring_infix.
Qed.

Lemma truthy_Some (v : option ustring) (g : ustring) :
  truthy v = Some g -> v = Some g.
Proof. destruct v as [[|c t]|]; simpl; congruence. Qed.

Lemma push_group1_infix (s : ustring) (ms : list rmatch) (name : ustring) :
  In name (push_group1 s ms) -> infix_of name s.
Proof.
  unfold push_group1. rewrite in_flat_map. intros (mt & _ & H).
  destruct (truthy (group s mt 1)) as [g|] eqn:E; [|destruct H].
  destruct H as [<-|[]]. apply truthy_Some in E. now apply group_infix in E.
Qed.

Lemma group1_infix (s : ustring) (mt : rmatch) : infix_of (group1 s mt) s.
Proof.
  unfold group1. destruct (group s mt 1) as [g|] eqn:E;
    [now apply group_infix in E | apply infix_of_nil].
Qed.

Lemma new_Set_infix (s : ustring) (ms : list rmatch) (name : ustring) :
  In name (new_Set (map (group1 s) ms)) -> infix_of name s.
Proof.
  rewrite new_Set_first_seen, first_seen_In, in_map_iff.
  intros (mt & <- & _). apply group1_infix.
Qed.

Lemma js_functions_infix (s name : ustring) :
  In name (js_functions s) -> infix_of name s.
Proof.
  unfold js_functions. rewrite in_flat_map. intros (mt & _ & H).
  destruct (or_else (group s mt 1) (group s mt 2)) as [[|c t]|] eqn:E;
    try destruct H as [<-|[]]; try destruct H.
  unfold or_else in E. destruct (truthy (group s mt 1)) as [g|] eqn:E1.
  - injection E as ->. apply truthy_Some in E1. now apply group_infix in E1.
  - now apply group_infix in E.
Qed.

Lemma js_methods_kept (s name : ustring) :
  In name (js_methods s) -> infix_of name s /\ method_kept name = true.
Proof.
  unfold js_methods. rewrite in_flat_map. intros (mt & _ & H).
  destruct (truthy (group s mt 1)) as [g|] eqn:E; [|destruct H].
  destruct (method_kept g) eqn:Ek; [|destruct H].
  destruct H as [<-|[]]. split; [|exact Ek].
  apply truthy_Some in E. now apply group_infix in E.
Qed.

(** X5. The extractor reports only text of the file: every function,
    class, export, method and component name it returns, for any
    extension, occurs in the content, and so does every import of the
    C-family profile. *)
Theorem extracted_names_occur_in_content (content ext name : ustring) :
  let a := analyzeFileContent content ext in
  (In name (functions a) \/ In name (classes a) \/ In name (exports a) \/
   In name (methods a) \/ In name (components a) ->
   infix_of name content) /\
  (includes js_exts ext = true -> In name (imports a) -> infix_of name content).
Proof.
  intros a. subst a. unfold analyzeFileContent.
  destruct (includes js_exts ext); [|destruct (ueqb ext (u ".py"))];
    cbn [functions classes exports methods components imports emptyAnalysis];
    split; try discriminate.
  - intros [H|[H|[H|[H|H]]]];
      first [ now apply js_functions_infix | now apply push_group1_infix in H
            | now apply js_methods_kept in H ].
  - intros _. unfold js_imports. rewrite in_map_iff. intros (mt & <- & _).
    eapply infix_of_trans; [apply trim_infix | apply substring_infix].
  - unfold py_functions, py_methods. intros [H|[H|[H|[H|H]]]];
      first [ now apply new_Set_infix in H | now apply push_group1_infix in H
            | destruct H ].
  - intros [H|[H|[H|[H|H]]]]; destruct H.
Qed.

Lemma extracted_names_occur_in_content_witness :
  infix_of (u "Shape") (u "export class Shape {").
Proof.
  apply (proj1 (extracted_names_occur_in_content
                  (u "export class Shape {") (u ".ts") (u "Shape"))).
  right. left. vm_compute. now left.
Defined.

(** X6. In the C-family profile no name listed under the methods is one of
    the six block-listed words [constructor], [if], [for], [while],
    [switch], [catch], and none holds an upper-case letter. *)
Theorem methods_are_lower_case_and_not_keywords (content ext name : ustring) :
  includes js_exts ext = true ->
  In name (methods (analyzeFileContent content ext)) ->
  ~ In name [u "constructor"; u "if"; u "for"; u "while"; u "switch"; u "catch"] /\
  existsb is_upper name = false.
Proof.
  intros He. unfold analyzeFileContent. rewrite He. cbn [methods].
  intros H. apply js_methods_kept in H as [_ Hk].
  unfold method_kept in Hk. apply andb_true_iff in Hk as [Hb Hc].
  rewrite capital_test in Hc. split.
  - apply (@includes_not_In method_blocklist name). now apply negb_true_iff.
  - now apply negb_true_iff.
Qed.

Lemma methods_are_lower_case_and_not_keywords_witness :
  ~ In (u "render")
       [u "constructor"; u "if"; u "for"; u "while"; u "switch"; u "catch"] /\
  existsb is_upper (u "render") = false.
Proof.
  apply (@methods_are_lower_case_and_not_keywords
           (u "if (x) { } render() {") (u ".jsx") (u "render")).
  - reflexivity.
  - vm_compute. now left.
Defined.

(** Other keywords are not block-listed: an anonymous function assigned to
    a variable is listed as a method named [function]. *)
Lemma function_keyword_is_listed :
  methods (analyzeFileContent (u "var f = function() {") (u ".js")) = [u "function"].
Proof. vm_compute. reflexivity. Qed.

(** ** Rendering *)

Lemma format_field_nil (label : string) (items : list ustring) (indent : ustring) :
  format_field label items indent = [] <-> items = [].
Proof.
  split; [|now intros ->].
  destruct items as [|x items]; [reflexivity|]. unfold format_field.
  intros H. apply app_eq_nil in H as [_ H]. discriminate H.
Qed.

(** X7. A file gets detail lines exactly when something was detected in
    it: the rendering of an analysis is empty if and only if its six fields
    are all empty. *)
Theorem details_rendered_iff_detected (analysis : FileAnalysis) (indent : ustring) :
  formatAnalysis analysis indent = [] <-> analysis = emptyAnalysis.
Proof.
  split.
  - unfold formatAnalysis. intros H.
    repeat (apply app_eq_nil in H as [?H H]).
    repeat match goal with
           | H : format_field _ _ _ = [] |- _ => apply format_field_nil in H
           end.
    destruct analysis; simpl in *. now subst.
  - now intros ->.
Qed.

Lemma analyze_blank (content ext : ustring) :
  whitespace content -> analyzeFileContent content ext = emptyAnalysis.
Proof.
  intros Hs.
  unfold analyzeFileContent, js_imports, js_functions, js_methods, py_imports,
    py_functions, py_methods, matchAll.
  rewrite !(matchAll_blank true Hs) by reflexivity.
  destruct (includes js_exts ext); [reflexivity|].
  destruct (ueqb ext (u ".py")); reflexivity.
Qed.

(** X8. A readable file that is kept and whose content is blank (empty or
    white space only) contributes exactly its name line to the scan,
    whatever its extension, and the loop goes on. *)
Theorem blank_file_is_listed_by_name_only
    (pats : list ustring) (level : nat) (table : list (ustring * option scanned))
    (file fileContent content : ustring) :
  lookup file table = Some (Some (KFile (Some fileContent))) ->
  isIgnored file pats = Ok false ->
  whitespace fileContent ->
  scan_entry pats level table file content = (content ++ file_line level file, false).
Proof.
  intros Hl Hi Hw. unfold scan_entry. rewrite Hl, Hi.
  rewrite (analyze_blank _ Hw).
  change (formatAnalysis emptyAnalysis (repeat_str (u "  ") level)) with (@nil cu).
  unfold file_line. rewrite app_nil_r.
  destruct (includes analysed_exts (extname file)); now rewrite <- ?app_assoc.
Qed.

Lemma blank_file_is_listed_by_name_only_witness :
  scan_entry [u "*.log"] 1 [(u "empty.py", Some (KFile (Some (u "  "))))]
             (u "empty.py") []
  = (file_line 1 (u "empty.py"), false).
Proof.
  apply (@blank_file_is_listed_by_name_only [u "*.log"] 1
           [(u "empty.py", Some (KFile (Some (u "  "))))]
           (u "empty.py") (u "  ") []).
  - reflexivity.
  - vm_compute. reflexivity.
  - repeat constructor.
Defined.

(** ** Ignored entries *)

Lemma scan_loop_ext pats level t t' :
  (forall f content,
      scan_entry pats level t f content = scan_entry pats level t' f content) ->
  forall files content,
    scan_loop pats level t files content = scan_loop pats level t' files content.
Proof.
  intros H. induction files as [|f files IH]; intros content; simpl;
    [reflexivity|].
  rewrite H. destruct (scan_entry pats level t' f content) as [c [|]];
    [reflexivity | apply IH].
Qed.

Lemma lookup_app {A : Type} (name : ustring) (l1 l2 : list (ustring * A)) :
  lookup name (l1 ++ l2) =
  match lookup name l1 with
  | Some a => Some a
  | None => lookup name l2
  end.
Proof.
  induction l1 as [|[n a] l1 IH]; simpl; [reflexivity|].
  destruct (ueqb n name); [reflexivity | exact IH].
Qed.

(** X9. An ignored entry counts only through its [stat], which comes before
    the test of the rules.  When the rules ignore a name and its [stat]
    succeeds, the scan of its directory is the same whatever lies at that
    entry (a file or a directory, readable or not, with any content).  When
    its [stat] fails, the scan of the directory ends there although the
    entry is ignored: the text is that of the entries whose names sort
    before it, and the entries after it are lost. *)
Theorem ignored_entry_counts_only_by_its_stat
    (pats : list ustring) (before after : list (ustring * option entry))
    (name : ustring) (level : nat) :
  isIgnored name pats = Ok true ->
  (forall e1 e2,
      scanDirectory pats (EDir (Some (before ++ (name, Some e1) :: after))) level
      = scanDirectory pats (EDir (Some (before ++ (name, Some e2) :: after))) level) /\
  (forall pre post,
      lookup name before = None ->
      sort (map fst (before ++ (name, None) :: after)) = pre ++ name :: post ->
      existsb (entry_stops pats (before ++ (name, None) :: after)) pre = false ->
      scanDirectory pats (EDir (Some (before ++ (name, None) :: after))) level
      = flat_map (entry_text pats level (before ++ (name, None) :: after)) pre).
Proof.
  intros Hi. split.
  - intros e1 e2. cbn [scanDirectory]. rewrite !map_app. cbn [map fst].
    f_equal. apply scan_loop_ext. intros f content.
    unfold scan_entry. rewrite !lookup_stat_all, !lookup_app.
    destruct (lookup f before) as [o|]; [reflexivity|].
    cbn [lookup]. destruct (ueqb name f) eqn:E; [|reflexivity].
    apply ueqb_eq in E. subst f. cbn [option_map stat_entry]. now rewrite Hi.
  - intros pre post Hb Hs Hpre. rewrite scan_in_order. unfold listing_in_order.
    rewrite Hs, (@up_to_app _ pre (name :: post) Hpre). cbn [up_to].
    assert (Hl : lookup name (before ++ (name, None) :: after) = Some None).
    { rewrite lookup_app, Hb. cbn [lookup]. now rewrite ueqb_refl. }
    unfold entry_stops at 1. rewrite Hl.
    rewrite flat_map_app. cbn [flat_map]. unfold entry_text at 2. rewrite Hl.
    now rewrite !app_nil_r.
Qed.

Lemma ignored_entry_counts_only_by_its_stat_witness :
  scanDirectory defaultPatterns
    (EDir (Some ([(u "a.txt", Some (EFile None))] ++
                 (u "node_modules", Some (EDir None)) :: []))) 0
  = scanDirectory defaultPatterns
      (EDir (Some ([(u "a.txt", Some (EFile None))] ++
                   (u "node_modules",
                    Some (EDir (Some [(u "x.js", Some (EFile None))]))) :: []))) 0 /\
  scanDirectory defaultPatterns
    (EDir (Some ([(u "a.txt", Some (EFile None))] ++
                 (u "node_modules", None) :: [(u "z.txt", Some (EFile None))]))) 0
  = flat_map (entry_text defaultPatterns 0
                ([(u "a.txt", Some (EFile None))] ++
                 (u "node_modules", None) :: [(u "z.txt", Some (EFile None))]))
             [u "a.txt"].
Proof.
  split.
  - apply (proj1 (@ignored_entry_counts_only_by_its_stat defaultPatterns
                    [(u "a.txt", Some (EFile None))] [] (u "node_modules") 0
                    ltac:(vm_compute; reflexivity))).
  - apply (proj2 (@ignored_entry_counts_only_by_its_stat defaultPatterns
                    [(u "a.txt", Some (EFile None))]
                    [(u "z.txt", Some (EFile None))] (u "node_modules") 0
                    ltac:(vm_compute; reflexivity))
             [u "a.txt"] [u "z.txt"]);
      vm_compute; reflexivity.
Defined.

(** ** The generation run *)

(** X10. A run writes the document only when a workspace folder is open and
    both the creation of the output directory and the write succeed; it
    reports success only when the document it assembled has been written
    and shown; without a workspace folder it writes nothing and asks for a
    folder. *)
Theorem document_written_only_when_possible
    (project_info : ustring -> ustring) (path_join : list ustring -> ustring)
    (h : host) :
  let run := generateStructure project_info path_join h in
  (written run <> None ->
   exists w, folder h = Some w /\ mkdir_ok h = true /\ writeFile_ok h = true) /\
  (shown run = Success ->
   exists w path,
     folder h = Some w /\ show_ok h = true /\
     written run = Some (path, analyzeWorkspace project_info w)) /\
  (folder h = None -> run = mkOutcome None NoFolder).
Proof.
  intros run. subst run. unfold generateStructure.
  destruct (folder h) as [w|]; cbn [written shown].
  - destruct (mkdir_ok h), (writeFile_ok h), (show_ok h); cbn [negb written shown];
      repeat split; try congruence; try discriminate;
      intros _; eexists; try eexists; repeat split; reflexivity.
  - repeat split; congruence.
Qed.

Lemma document_written_only_when_possible_witness :
  exists w, folder unreadable_root_host = Some w /\
            mkdir_ok unreadable_root_host = true /\
            writeFile_ok unreadable_root_host = true.
Proof.
  apply (proj1 (document_written_only_when_possible
                  (fun _ => []) join_plain unreadable_root_host)).
  discriminate.
Defined.

(* ================================================================== *)
(** * Properties of the terminal logger *)

Import Logger.

(** ** Loading an existing log *)

Lemma skipn_suffix {A : Type} (n : nat) (l : list A) :
  exists dropped, l = dropped ++ skipn n l.
Proof. exists (firstn n l). now rewrite firstn_skipn. Qed.

(** X11. When logging starts on an existing log, the entries kept are its
    non-blank lines, in order; there are never more than [MAX_LINES] of
    them, the oldest being dropped first; a log of at most [MAX_LINES]
    non-blank lines is kept whole. *)
Theorem loaded_entries_are_bounded (content : ustring) :
  let lines := filter nonblank (split 10%N content) in
  List.length (load_entries content) <= MAX_LINES /\
  Forall (fun entry => nonblank entry = true) (load_entries content) /\
  (exists dropped, lines = dropped ++ load_entries content) /\
  (List.length lines <= MAX_LINES -> load_entries content = lines).
Proof.
  intros lines. unfold load_entries, keep_last. fold lines.
  destruct (Nat.ltb MAX_LINES (List.length lines)) eqn:E.
  - apply Nat.ltb_lt in E. repeat split.
    + rewrite length_skipn. lia.
    + apply Forall_forall. intros e He.
      destruct (skipn_suffix (List.length lines - MAX_LINES) lines) as [d Hd].
      assert (Hin : In e lines) by (rewrite Hd; apply in_or_app; now right).
      now apply filter_In in Hin.
    + apply skipn_suffix.
    + lia.
  - apply Nat.ltb_ge in E. repeat split.
    + exact E.
    + apply Forall_forall. intros e He. now apply filter_In in He.
    + now exists [].
Qed.

Lemma loaded_entries_are_bounded_witness :
  load_entries (u "ls" ++ nl ++ nl ++ u "  " ++ nl ++ u "make")
  = filter nonblank (split 10%N (u "ls" ++ nl ++ nl ++ u "  " ++ nl ++ u "make")).
Proof.
  apply (proj2 (proj2 (proj2 (loaded_entries_are_bounded
           (u "ls" ++ nl ++ nl ++ u "  " ++ nl ++ u "make"))))).
  vm_compute. lia.
Defined.

(** ** Saving and loading again *)

Lemma split_aux_app (c : cu) (cur a b : ustring) :
  split_aux c cur (a ++ c :: b) = split_aux c cur a ++ split c b.
Proof.
  revert cur; induction a as [|x a IH]; intros cur; simpl.
  - unfold cu_eqb. now rewrite N.eqb_refl.
  - destruct (cu_eqb x c); [|apply IH]. simpl. f_equal. apply IH.
Qed.

Lemma split_app (c : cu) (a b : ustring) :
  split c (a ++ c :: b) = split c a ++ split c b.
Proof. apply split_aux_app. Qed.

Lemma split_aux_single (c : cu) (cur s : ustring) :
  ~ In c s -> split_aux c cur s = [rev cur ++ s].
Proof.
  revert cur; induction s as [|x s IH]; intros cur Hn; simpl.
  - now rewrite app_nil_r.
  - destruct (cu_eqb x c) eqn:E.
    + apply N.eqb_eq in E. subst. exfalso. apply Hn. now left.
    + rewrite IH by (intros H; apply Hn; now right).
      simpl. now rewrite <- app_assoc.
Qed.

Lemma split_single_line (entry : ustring) :
  single_line entry -> split 10%N entry = [entry].
Proof. intros H. unfold split. now rewrite split_aux_single. Qed.

Lemma saved_lines (data : list ustring) :
  filter nonblank (split 10%N (save_text data))
  = filter nonblank (flat_map (split 10%N) data).
Proof.
  unfold save_text, nl. induction data as [|x [|y data] IH].
  - reflexivity.
  - cbn [join flat_map]. rewrite split_app, !filter_app. reflexivity.
  - change (join [10%N] (x :: y :: data)) with (x ++ 10%N :: join [10%N] (y :: data)).
    rewrite <- app_assoc. cbn [app]. rewrite split_app, filter_app, IH.
    cbn [flat_map]. now rewrite !filter_app.
Qed.

Lemma load_saved_single_lines (data : list ustring) :
  Forall (fun entry => single_line entry /\ nonblank entry = true) data ->
  List.length data <= MAX_LINES ->
  load_entries (save_text data) = data.
Proof.
  intros Hall Hlen. unfold load_entries. rewrite saved_lines.
  assert (Hflat : flat_map (split 10%N) data = data).
  { clear Hlen. induction Hall as [|x l [Hx _] _ IH]; [reflexivity|].
    cbn [flat_map]. now rewrite (split_single_line Hx), IH. }
  rewrite Hflat.
  assert (Hf : filter nonblank data = data).
  { clear Hlen Hflat. induction Hall as [|x l [_ Hx] _ IH]; [reflexivity|].
    simpl. now rewrite Hx, IH. }
  rewrite Hf. unfold keep_last.
  replace (Nat.ltb MAX_LINES (List.length data)) with false; [reflexivity|].
  symmetry. apply Nat.ltb_ge. exact Hlen.
Qed.

(** X12. What a save appends is read back, when logging starts again, as
    the non-blank lines of the saved entries, cut to the last [MAX_LINES]:
    an entry that holds the lines of a command's output comes back as one
    entry per line.  Entries that fit on one line and are not blank, at
    most [MAX_LINES] of them, come back unchanged. *)
Theorem saved_entries_load_back (data : list ustring) :
  load_entries (save_text data)
  = keep_last (filter nonblank (flat_map (split 10%N) data)) /\
  (Forall (fun entry => single_line entry /\ nonblank entry = true) data ->
   List.length data <= MAX_LINES ->
   load_entries (save_text data) = data).
Proof.
  split; [unfold load_entries; now rewrite saved_lines|].
  apply load_saved_single_lines.
Qed.

Lemma saved_entries_load_back_witness :
  load_entries (save_text [u "[t1] Command: make"; u "[t2] Exit code: 0"])
  = [u "[t1] Command: make"; u "[t2] Exit code: 0"].
Proof.
  apply (proj2 (saved_entries_load_back
                  [u "[t1] Command: make"; u "[t2] Exit code: 0"])).
  - repeat constructor; try reflexivity;
      intros H; vm_compute in H; repeat (destruct H as [H|H]; [discriminate H|]);
      exact H.
  - vm_compute. lia.
Defined.

(** ** Matches lie in the input, in order *)

Lemma repeat_matcher_result (m : mstate -> cont -> option mstate) ns greedy :
  (forall x k z, m x k = Some z -> exists y, k y = Some z) ->
  forall fuel min max x k z,
    repeat_matcher fuel m ns min max greedy x k = Some z ->
    exists y, k y = Some z.
Proof.
  intros Hm. induction fuel as [|fuel IH]; intros min max x k z.
  - simpl. destruct max as [[|n]|]; destruct min; try discriminate;
      intros H; now exists x.
  - rewrite repeat_matcher_S. cbv zeta.
    assert (Hd : forall y,
               (if Nat.eqb min 0 && Nat.eqb (endIndex y) (endIndex x) then None
                else repeat_matcher fuel m ns (pred min) (dec_max max) greedy y k)
               = Some z -> exists y', k y' = Some z).
    { intros y. destruct (_ && _); [discriminate | apply IH]. }
    assert (Hmd : m (clear_captures ns x)
                    (fun y =>
                       if Nat.eqb min 0 && Nat.eqb (endIndex y) (endIndex x) then None
                       else repeat_matcher fuel m ns (pred min) (dec_max max) greedy y k)
                  = Some z -> exists y', k y' = Some z).
    { intros H. apply Hm in H as [y Hy]. now apply Hd in Hy. }
    destruct max as [[|n]|]; try (intros H; now exists x);
      destruct min; try destruct greedy; try exact Hmd;
      match goal with
      | |- match ?a with Some _ => _ | None => _ end = _ -> _ =>
          destruct a eqn:Ea; intros H
      end;
      try (injection H as ->);
      first [ now apply Hmd | now exists x ].
Qed.

(** What a matcher returns is what its continuation returned. *)
Lemma matcher_result (multiline : bool) (inp : ustring) (r : regex) :
  forall x k z, matcher multiline inp r x k = Some z -> exists y, k y = Some z.
Proof.
  induction r as [|c| |neg items| | |r1 IH1 r2 IH2|r1 IH1 r2 IH2
                 |min max greedy r IH|n r IH|neg r IH];
    intros x k z; cbn [matcher]; unfold char_matcher.
  - intros H. now exists x.
  - destruct (nth_error inp (endIndex x)); [|discriminate].
    destruct (cu_eqb c c0); [|discriminate]. intros H. eauto.
  - destruct (nth_error inp (endIndex x)); [|discriminate].
    destruct (negb _); [|discriminate]. intros H. eauto.
  - destruct (nth_error inp (endIndex x)); [|discriminate].
    destruct (set_matches _ _ _); [|discriminate]. intros H. eauto.
  - destruct (at_bol _ _ x); [|discriminate]. intros H. eauto.
  - destruct (at_eol _ _ x); [|discriminate]. intros H. eauto.
  - intros H. apply IH1 in H as [y Hy]. now apply IH2 in Hy.
  - destruct (matcher multiline inp r1 x k) eqn:E.
    + intros [= <-]. now apply IH1 in E.
    + apply IH2.
  - now apply repeat_matcher_result.
  - intros H. apply IH in H as [y Hy]. eauto.
  - destruct (matcher multiline inp r x Some); destruct neg; try discriminate;
      intros H; eauto.
Qed.

(** A match ends at or after the index where it starts, within the
    input. *)
Lemma matcher_end_bounds (multiline : bool) (inp : ustring) (r : regex)
    (x y : mstate) :
  endIndex x <= List.length inp ->
  matcher multiline inp r x Some = Some y ->
  endIndex x <= endIndex y <= List.length inp.
Proof.
  intros Hx H.
  set (k2 := fun y : mstate =>
               if Nat.leb (endIndex x) (endIndex y)
                  && Nat.leb (endIndex y) (List.length inp)
               then Some y else None).
  assert (E : matcher multiline inp r x Some = matcher multiline inp r x k2).
  { apply matcher_forward; [exact Hx|]. intros z Hz. unfold k2.
    replace (Nat.leb (endIndex x) (endIndex z)) with true
      by (symmetry; apply Nat.leb_le; lia).
    replace (Nat.leb (endIndex z) (List.length inp)) with true
      by (symmetry; apply Nat.leb_le; lia).
    reflexivity. }
  rewrite E in H. apply matcher_result in H as [y' Hy]. unfold k2 in Hy.
  destruct (Nat.leb (endIndex x) (endIndex y')) eqn:E1; [|discriminate].
  destruct (Nat.leb (endIndex y') (List.length inp)) eqn:E2; [|discriminate].
  injection Hy as <-. apply Nat.leb_le in E1, E2. lia.
Qed.

Lemma search_from_bounds (multiline : bool) (s : ustring) (r : regex) :
  forall n i j y,
    i + n <= List.length s ->
    search_from multiline s r n i = Some (j, y) ->
    i <= j /\ j <= endIndex y /\ endIndex y <= List.length s.
Proof.
  induction n as [|n IH]; intros i j y Hi; cbn [search_from];
    destruct (matcher multiline s r (MState i []) Some) as [z|] eqn:E;
    try discriminate.
  - intros [= <- <-]. apply matcher_end_bounds in E; simpl in *; lia.
  - intros [= <- <-]. apply matcher_end_bounds in E; simpl in *; lia.
  - intros H. apply IH in H; lia.
Qed.

Lemma exec_at_bounds (multiline : bool) (r : regex) (s : ustring)
    (lastIndex : nat) (mt : rmatch) :
  exec_at multiline r s lastIndex = Some mt ->
  lastIndex <= m_start mt /\ m_start mt <= m_end mt /\ m_end mt <= List.length s.
Proof.
  unfold exec_at. destruct (Nat.ltb (List.length s) lastIndex) eqn:E;
    [discriminate|]. apply Nat.ltb_ge in E.
  destruct (search_from multiline s r (List.length s - lastIndex) lastIndex)
    as [[j y]|] eqn:Es; [|discriminate].
  intros [= <-]. simpl. apply search_from_bounds in Es; lia.
Qed.

Lemma match_all_ordered (multiline : bool) (r : regex) (s : ustring) :
  forall fuel lastIndex,
    ordered_from lastIndex (match_all_from multiline r s fuel lastIndex).
Proof.
  induction fuel as [|fuel IH]; intros lastIndex; cbn [match_all_from];
    [exact I|].
  destruct (exec_at multiline r s lastIndex) as [mt|] eqn:E; [|exact I].
  apply exec_at_bounds in E. cbn [ordered_from].
  repeat split; try lia.
  destruct (Nat.eqb (m_end mt) (m_start mt)).
  - specialize (IH (S (m_end mt))).
    destruct (match_all_from multiline r s fuel (S (m_end mt))) as [|m2 ms];
      [exact I|]. cbn [ordered_from] in *. intuition lia.
  - apply IH.
Qed.

(** ** Cleaning the output of a command *)

Lemma subseq_refl (s : ustring) : subseq s s.
Proof. induction s; now constructor. Qed.

Lemma subseq_nil_l (s : ustring) : subseq [] s.
Proof. induction s; now constructor. Qed.

Lemma subseq_app_drop (a t s : ustring) : subseq t s -> subseq t (a ++ s).
Proof. intros H. induction a; simpl; [exact H | now constructor]. Qed.

Lemma subseq_app (t1 s1 t2 s2 : ustring) :
  subseq t1 s1 -> subseq t2 s2 -> subseq (t1 ++ t2) (s1 ++ s2).
Proof. intros H1 H2. induction H1; simpl; try now constructor. exact H2. Qed.

Lemma subseq_trans (a b c : ustring) : subseq a b -> subseq b c -> subseq a c.
Proof.
  intros Hab Hbc. revert a Hab.
  induction Hbc as [|x b c Hbc IH|x b c Hbc IH]; intros a Hab.
  - exact Hab.
  - inversion Hab; subst; constructor; now apply IH.
  - constructor. now apply IH.
Qed.

Lemma subseq_In (t s : ustring) (c : cu) : subseq t s -> In c t -> In c s.
Proof.
  induction 1 as [|x t s _ IH|x t s _ IH]; simpl; [tauto | |]; intuition.
Qed.

Lemma infix_subseq (t s : ustring) : infix_of t s -> subseq t s.
Proof.
  intros (a & b & ->). apply subseq_app_drop.
  rewrite <- (app_nil_r t) at 1. apply subseq_app;
    [apply subseq_refl | apply subseq_nil_l].
Qed.

Lemma remove_matches_subseq (s : ustring) (ms : list rmatch) :
  forall pos, ordered_from pos ms -> subseq (remove_matches s pos ms) (skipn pos s).
Proof.
  induction ms as [|mt ms IH]; intros pos; cbn [remove_matches ordered_from].
  - intros _. apply subseq_refl.
  - intros (H1 & H2 & H3). unfold substring.
    rewrite <- (firstn_skipn (m_start mt - pos) (skipn pos s)) at 2.
    apply subseq_app; [apply subseq_refl|].
    rewrite skipn_skipn.
    replace (m_start mt - pos + pos) with (m_start mt) by lia.
    eapply subseq_trans; [apply IH, H3|].
    replace (m_end mt) with (m_end mt - m_start mt + m_start mt) by lia.
    rewrite <- skipn_skipn.
    destruct (skipn_suffix (m_end mt - m_start mt) (skipn (m_start mt) s)) as [d Hd].
    rewrite Hd at 2. apply subseq_app_drop, subseq_refl.
Qed.

(** Removing the matches of a regex only deletes code units. *)
Lemma remove_all_subseq (multiline : bool) (r : regex) (s : ustring) :
  subseq (remove_all multiline r s) s.
Proof.
  unfold remove_all, matchAll.
  apply (remove_matches_subseq s _ 0), match_all_ordered.
Qed.

(** X13. Cleaning the output of a command only deletes code units: the
    cleaned text is the raw text with some code units left out, none added
    and none moved, and it neither starts nor ends with white space. *)
Theorem cleaning_only_deletes (rawOutput : ustring) :
  subseq (clean_output rawOutput) rawOutput /\
  no_outer_space (clean_output rawOutput).
Proof.
  split; [|apply trim_no_outer_space].
  unfold clean_output.
  eapply subseq_trans; [apply infix_subseq, trim_infix|].
  repeat (eapply subseq_trans; [apply remove_all_subseq|]).
  apply subseq_refl.
Qed.

Lemma trim_blank (s : ustring) : whitespace s -> trim s = [].
Proof.
  intros H. unfold trim, trimEnd.
  assert (E : trimStart s = []).
  { induction H as [|c s Hc _ IH]; simpl; [reflexivity|]. now rewrite Hc. }
  now rewrite E.
Qed.

Lemma remove_all_blank (multiline : bool) (r : regex) (s : ustring) :
  whitespace s -> needs_nonspace r = true -> remove_all multiline r s = s.
Proof.
  intros Hs Hr. unfold remove_all, matchAll.
  now rewrite (matchAll_blank multiline Hs r Hr).
Qed.

Lemma clean_output_blank (rawOutput : ustring) :
  whitespace rawOutput -> clean_output rawOutput = [].
Proof.
  intros Hs. unfold clean_output.
  rewrite !(@remove_all_blank false _ rawOutput Hs) by reflexivity.
  apply trim_blank. unfold whitespace in *. rewrite Forall_forall in *.
  intros c Hc. apply Hs. eapply subseq_In; [apply remove_all_subseq | exact Hc].
Qed.

(** X14. Every entry recorded for an execution starts with its bracketed
    timestamp, and a command whose output is blank once cleaned (empty or
    white space only) is recorded as that single header line: the command
    line when there is one, "Execution detected" otherwise. *)
Theorem blank_output_gives_one_line (timestamp : ustring)
    (commandLine : option ustring) (rawOutput : ustring) :
  has_prefix (u "[" ++ timestamp ++ u "] ")
             (execution_entry timestamp commandLine rawOutput) /\
  (whitespace rawOutput ->
   execution_entry timestamp commandLine rawOutput =
   match commandLine with
   | Some (c :: value) => u "[" ++ timestamp ++ u "] Command: " ++ c :: value
   | _ => u "[" ++ timestamp ++ u "] Execution detected"
   end).
Proof.
  split.
  - unfold execution_entry, has_prefix.
    destruct (clean_output rawOutput) as [|o out];
      destruct (truthy commandLine) as [value|];
      eexists; rewrite <- ?app_assoc; cbn [app u map list_ascii_of_string];
      repeat rewrite <- app_assoc; reflexivity.
  - intros Hs. unfold execution_entry. rewrite (clean_output_blank Hs).
    now destruct commandLine as [[|c value]|].
Qed.

Lemma blank_output_gives_one_line_witness :
  execution_entry (u "2025-01-01T00:00:00.000Z") (Some (u "cd src"))
                  (u "  " ++ nl)
  = u "[2025-01-01T00:00:00.000Z] Command: cd src".
Proof.
  apply (proj2 (blank_output_gives_one_line (u "2025-01-01T00:00:00.000Z")
                  (Some (u "cd src")) (u "  " ++ nl))).
  repeat constructor.
Defined.

(** ** Starting again on an existing log *)

(** X15. The entries loaded from the log file when logging starts are part
    of what the next save appends: if logging starts on a log that holds
    the entries [old] (one non-blank line each, at most [MAX_LINES]) and an
    entry is then recorded, the save appends the entries of [old] once more,
    followed by the new entry; after that save nothing is left to append. *)
Theorem restart_appends_loaded_entries_again
    (old : list ustring) (logEntry : ustring) (st : logger) :
  Forall (fun entry => single_line entry /\ nonblank entry = true) old ->
  List.length old <= MAX_LINES ->
  let st' := record logEntry (start_loaded (Some (save_text old)) st) in
  save_begin st' = Some (save_text (old ++ [logEntry])) /\
  save_begin (save_done st') = None.
Proof.
  intros Hall Hlen st'. subst st'. split; [|reflexivity].
  unfold save_begin, record, start_loaded.
  cbn [recordedData hasUnsavedChanges andb].
  rewrite (load_saved_single_lines Hall Hlen).
  rewrite length_app. cbn [List.length].
  replace (Nat.eqb (List.length old + 1) 0) with false; [reflexivity|].
  symmetry. apply Nat.eqb_neq. lia.
Qed.

Lemma restart_appends_loaded_entries_again_witness :
  save_begin (record (u "[t2] Command: make")
                (start_loaded (Some (save_text [u "[t1] Command: pwd"]))
                              (mkLogger false [] false)))
  = Some (save_text [u "[t1] Command: pwd"; u "[t2] Command: make"]).
Proof.
  apply (@restart_appends_loaded_entries_again
           [u "[t1] Command: pwd"] (u "[t2] Command: make")
           (mkLogger false [] false)).
  - repeat constructor; try reflexivity.
    intros H; vm_compute in H; repeat (destruct H as [H|H]; [discriminate H|]);
      exact H.
  - vm_compute. lia.
Defined.

(* ================================================================== *)
(** * Patterns made of plain names *)

(** ** More fuel does not change what the parser answers *)

Lemma bind_stable {T U : Type} (a a' : result T) (k : T -> result U) :
  (a <> Err OutOfFuel -> a' = a) ->
  match a with Ok v => k v | Err x => Err x end <> Err OutOfFuel ->
  match a' with Ok v => k v | Err x => Err x end
  = match a with Ok v => k v | Err x => Err x end.
Proof.
  intros Ha Hne. rewrite Ha; [reflexivity|].
  destruct a as [v|e]; [discriminate | intros Hc; apply Hne; congruence].
Qed.

Lemma parse_stable (f : nat) :
  (forall f' s g, f <= f' -> parse_disjunction f s g <> Err OutOfFuel ->
                  parse_disjunction f' s g = parse_disjunction f s g) /\
  (forall f' s g, f <= f' -> parse_alternative f s g <> Err OutOfFuel ->
                  parse_alternative f' s g = parse_alternative f s g) /\
  (forall f' s g, f <= f' -> parse_term f s g <> Err OutOfFuel ->
                  parse_term f' s g = parse_term f s g).
Proof.
  induction f as [|f (IHD & IHA & IHT)].
  - repeat split; intros f' s g _ H; now contradiction H.
  - repeat split; intros [|f'] s g Hle; try lia;
      assert (Hle' : f <= f') by lia.
    + cbn [parse_disjunction].
      set (k := fun v : regex * ustring * nat =>
                  let '(r1, rest, g1) := v in
                  match rest with
                  | c :: rest' =>
                    if is_ch c "|" then
                      match parse_disjunction f rest' g1 with
                      | Err e => Err e
                      | Ok (r2, rest2, g2) => Ok (RAlt r1 r2, rest2, g2)
                      end
                    else Ok (r1, rest, g1)
                  | [] => Ok (r1, rest, g1)
                  end).
      intros Hne.
      change (match parse_alternative f s g with Ok v => k v | Err e => Err e end
              <> Err OutOfFuel) in Hne.
      assert (E : parse_alternative f' s g = parse_alternative f s g).
      { apply IHA; [exact Hle'|]. intros Hc. rewrite Hc in Hne. now apply Hne. }
      rewrite E. destruct (parse_alternative f s g) as [[[r1 rest] g1]|e];
        [|reflexivity].
      unfold k in Hne. destruct rest as [|c rest']; [reflexivity|].
      destruct (is_ch c "|"); [|reflexivity].
      now apply bind_stable; [apply IHD|].
    + cbn [parse_alternative]. destruct s as [|c s1]; [reflexivity|].
      destruct (is_ch c "|" || is_ch c ")"); [reflexivity|].
      intros Hne.
      assert (E : parse_term f' (c :: s1) g = parse_term f (c :: s1) g).
      { apply IHT; [exact Hle'|]. intros Hc. rewrite Hc in Hne. now apply Hne. }
      rewrite E. destruct (parse_term f (c :: s1) g) as [[[r1 rest] g1]|e];
        [|reflexivity].
      now apply bind_stable; [apply IHA|].
    + cbn [parse_term]. destruct s as [|c s1]; [reflexivity|].
      destruct (is_ch c "^"); [reflexivity|].
      destruct (is_ch c "$"); [reflexivity|].
      destruct (is_ch c "*" || is_ch c "+" || is_ch c "?" || is_ch c ")");
        [reflexivity|].
      destruct (is_ch c "."); [reflexivity|].
      destruct (is_braced_start (c :: s1)); [reflexivity|].
      destruct (is_ch c "\"); [reflexivity|].
      destruct (is_ch c "["); [reflexivity|].
      destruct (is_ch c "("); [|reflexivity].
      destruct s1 as [|q [|k s3]];
        try (intros Hne; now apply bind_stable; [apply IHD|]).
      destruct (is_ch q "?");
        [|intros Hne; now apply bind_stable; [apply IHD|]].
      destruct (is_ch k ":");
        [intros Hne; now apply bind_stable; [apply IHD|]|].
      destruct (is_ch k "=" || is_ch k "!"); [|reflexivity].
      intros Hne. now apply bind_stable; [apply IHD|].
Qed.

(** [compile] gives the answer of the parser at any sufficient fuel. *)
Lemma compile_at_fuel (src : ustring) (f : nat) (r : regex) (g : nat) :
  parse_disjunction f src 1 = Ok (r, [], g) -> compile src = Ok r.
Proof.
  intros H. unfold compile.
  set (F := 4 * S (List.length src)).
  destruct (Nat.le_ge_cases f F) as [Hle|Hle].
  - rewrite (proj1 (parse_stable f) F src 1 Hle) by (rewrite H; discriminate).
    now rewrite H.
  - assert (Hs : settled (List.length src) (parse_disjunction F src 1)).
    { apply (proj1 (parse_settled F)). unfold F. lia. }
    assert (E : parse_disjunction f src 1 = parse_disjunction F src 1).
    { apply (proj1 (parse_stable F) f src 1 Hle).
      destruct (parse_disjunction F src 1) as [[[? ?] ?]|e];
        [discriminate | simpl in Hs; congruence]. }
    rewrite <- E, H. reflexivity.
Qed.

(** ** Parsing the source of a literal rule *)

Lemma plain_spec (c : cu) :
  plain c = true ->
  is_ch c "\" = false /\ is_ch c "^" = false /\ is_ch c "$" = false /\
  is_ch c "." = false /\ is_ch c "*" = false /\ is_ch c "+" = false /\
  is_ch c "?" = false /\ is_ch c "(" = false /\ is_ch c ")" = false /\
  is_ch c "[" = false /\ is_ch c "]" = false /\ is_ch c "{" = false /\
  is_ch c "}" = false /\ is_ch c "|" = false.
Proof.
  unfold plain. intros H. apply negb_true_iff in H.
  repeat rewrite orb_false_iff in H. tauto.
Qed.

Lemma replace1_absent (c : cu) (by_ s : ustring) :
  forallb (fun x => negb (cu_eqb x c)) s = true -> replace1 c by_ s = s.
Proof.
  induction s as [|x s IH]; [reflexivity|]. cbn [replace1 forallb].
  intros H. apply andb_true_iff in H as [Hx Hs]. apply negb_true_iff in Hx.
  rewrite Hx. f_equal. now apply IH.
Qed.

Lemma replace2_absent (c : cu) (by_ s : ustring) :
  forallb (fun x => negb (cu_eqb x c)) s = true -> replace2 c by_ s = s.
Proof.
  assert (H : forall n s, List.length s <= n ->
              forallb (fun x => negb (cu_eqb x c)) s = true ->
              replace2 c by_ s = s).
  { clear s. induction n as [|n IH]; intros [|x [|y s]] Hn Hs;
      try reflexivity; simpl in Hn; try lia.
    change (replace2 c by_ (x :: y :: s))
      with (if cu_eqb x c && cu_eqb y c then by_ ++ replace2 c by_ s
            else x :: replace2 c by_ (y :: s)).
    cbn [forallb] in Hs.
    apply andb_true_iff in Hs as [Hx Hs]. apply negb_true_iff in Hx.
    rewrite Hx. cbn [andb]. f_equal. apply IH; [simpl; lia | exact Hs]. }
  now apply (H (List.length s)).
Qed.

Lemma escape_dots_keeps (a : ascii) (w : ustring) :
  literal_name w = true ->
  (forall c, plain c = true -> is_ch c a = false) ->
  is_ch (ch "\") a = false -> is_ch (ch ".") a = false ->
  forallb (fun x => negb (cu_eqb x (ch a))) (escape_dots w) = true.
Proof.
  intros Hw Hp Hb Hd. induction w as [|c w IH]; [reflexivity|].
  cbn [literal_name forallb] in Hw. apply andb_true_iff in Hw as [Hc Hw].
  cbn [escape_dots flat_map]. rewrite forallb_app. fold (escape_dots w).
  rewrite (IH Hw), andb_true_r.
  destruct (is_ch c ".") eqn:Ed.
  - change (negb (cu_eqb (ch "\") (ch a)) && (negb (cu_eqb (ch ".") (ch a)) && true)
            = true).
    unfold is_ch in Hb, Hd. now rewrite Hb, Hd.
  - unfold literal_unit in Hc. rewrite Ed, orb_false_r in Hc.
    cbn [forallb]. apply Hp in Hc. unfold is_ch in Hc. now rewrite Hc.
Qed.

Lemma regexPattern_literal (w : ustring) :
  literal_name w = true -> regexPattern w = escape_dots w.
Proof.
  intros Hw. unfold regexPattern.
  assert (E1 : replace1 (ch ".") (u "\.") w = escape_dots w).
  { clear Hw. induction w as [|c w IH]; [reflexivity|].
    cbn [replace1 escape_dots flat_map]. unfold is_ch.
    destruct (cu_eqb c (ch ".")); cbn [app]; now rewrite IH. }
  rewrite E1.
  assert (Hs : forallb (fun x => negb (cu_eqb x (ch "*"))) (escape_dots w) = true).
  { apply escape_dots_keeps; [exact Hw | | reflexivity | reflexivity].
    intros c Hc. now destruct (@plain_spec c Hc) as (_ & _ & _ & _ & H & _). }
  assert (Hq : forallb (fun x => negb (cu_eqb x (ch "?"))) (escape_dots w) = true).
  { apply escape_dots_keeps; [exact Hw | | reflexivity | reflexivity].
    intros c Hc. now destruct (@plain_spec c Hc) as (_ & _ & _ & _ & _ & _ & H & _). }
  now rewrite (@replace2_absent _ _ _ Hs), (@replace1_absent _ _ _ Hs),
    (@replace1_absent _ _ _ Hq).
Qed.

Lemma parse_quantifier_quiet (r : regex) (s : ustring) :
  quiet s = true -> parse_quantifier r s = Ok (r, s).
Proof.
  destruct s as [|d s]; [reflexivity|]. cbn [quiet]. intros H.
  apply negb_true_iff in H. repeat rewrite orb_false_iff in H.
  destruct H as (((Hs & Hp) & Hq) & Hb).
  unfold parse_quantifier, parse_braces. rewrite Hb.
  destruct (take_lazy s). now rewrite Hs, Hp, Hq.
Qed.

Lemma no_quantifier_quiet (r : regex) (s : ustring) :
  quiet s = true -> no_quantifier r s = Ok (r, s).
Proof.
  destruct s as [|d s]; [reflexivity|]. cbn [quiet]. intros H.
  apply negb_true_iff in H. repeat rewrite orb_false_iff in H.
  destruct H as (((Hs & Hp) & Hq) & Hb).
  unfold no_quantifier, is_braced_start, parse_braces, is_quantifier_start.
  now rewrite Hb, Hs, Hp, Hq.
Qed.

Lemma term_plain (f : nat) (c : cu) (s : ustring) (g : nat) :
  plain c = true -> quiet s = true ->
  parse_term (S f) (c :: s) g = Ok (RChar c, s, g).
Proof.
  intros Hc Hs.
  destruct (@plain_spec c Hc)
    as (H1 & H2 & H3 & H4 & H5 & H6 & H7 & H8 & H9 & H10 & H11 & H12 & H13 & H14).
  cbn [parse_term]. unfold is_braced_start, parse_braces.
  rewrite H1, H2, H3, H4, H5, H6, H7, H8, H9, H10, H12. cbn [orb].
  now rewrite parse_quantifier_quiet.
Qed.

Lemma term_dot (f : nat) (s : ustring) (g : nat) :
  quiet s = true ->
  parse_term (S f) (ch "\" :: ch "." :: s) g = Ok (RChar (ch "."), s, g).
Proof.
  intros Hs.
  change (parse_term (S f) (ch "\" :: ch "." :: s) g)
    with (with_group g (parse_quantifier (RChar (ch ".")) s)).
  now rewrite parse_quantifier_quiet.
Qed.

Lemma alt_cons (f1 f2 : nat) (c : cu) (s : ustring) (g : nat)
    (r1 r2 : regex) (rest rest2 : ustring) (g1 g2 : nat) :
  is_ch c "|" || is_ch c ")" = false ->
  parse_term f1 (c :: s) g = Ok (r1, rest, g1) ->
  parse_alternative f2 rest g1 = Ok (r2, rest2, g2) ->
  parse_alternative (S (Nat.max f1 f2)) (c :: s) g = Ok (RSeq r1 r2, rest2, g2).
Proof.
  intros Hc H1 H2. cbn [parse_alternative]. rewrite Hc.
  rewrite (proj2 (proj2 (parse_stable f1)) (Nat.max f1 f2) (c :: s) g)
    by (try lia; rewrite H1; discriminate).
  rewrite H1.
  rewrite (proj1 (proj2 (parse_stable f2)) (Nat.max f1 f2) rest g1)
    by (try lia; rewrite H2; discriminate).
  now rewrite H2.
Qed.

Lemma disj_cons (f1 f2 : nat) (s : ustring) (g : nat)
    (r1 r2 : regex) (rest' rest2 : ustring) (g1 g2 : nat) :
  parse_alternative f1 s g = Ok (r1, ch "|" :: rest', g1) ->
  parse_disjunction f2 rest' g1 = Ok (r2, rest2, g2) ->
  parse_disjunction (S (Nat.max f1 f2)) s g = Ok (RAlt r1 r2, rest2, g2).
Proof.
  intros H1 H2. cbn [parse_disjunction].
  rewrite (proj1 (proj2 (parse_stable f1)) (Nat.max f1 f2) s g)
    by (try lia; rewrite H1; discriminate).
  rewrite H1. change (is_ch (ch "|") "|") with true. cbv iota.
  rewrite (proj1 (parse_stable f2) (Nat.max f1 f2) rest' g1)
    by (try lia; rewrite H2; discriminate).
  now rewrite H2.
Qed.

Lemma quiet_escape_dots (w tail : ustring) :
  literal_name w = true -> quiet tail = true -> quiet (escape_dots w ++ tail) = true.
Proof.
  destruct w as [|c w]; [now intros _|]. intros Hw _.
  cbn [literal_name forallb] in Hw. apply andb_true_iff in Hw as [Hc _].
  cbn [escape_dots flat_map]. destruct (is_ch c ".") eqn:Ed; [reflexivity|].
  unfold literal_unit in Hc. rewrite Ed, orb_false_r in Hc.
  destruct (@plain_spec c Hc)
    as (H1 & H2 & H3 & H4 & H5 & H6 & H7 & H8 & H9 & H10 & H11 & H12 & H13 & H14).
  cbn [app quiet]. now rewrite H5, H6, H7, H12.
Qed.

(** The escaped name parses to the sequence of its code units. *)
Lemma alt_chars (w : ustring) :
  literal_name w = true ->
  forall (tail : ustring) (K : regex) (rest : ustring) (g g' f : nat),
    quiet tail = true ->
    parse_alternative f tail g = Ok (K, rest, g') ->
    exists f', parse_alternative f' (escape_dots w ++ tail) g = Ok (chars w K, rest, g').
Proof.
  induction w as [|c w IH]; intros Hw tail K rest g g' f Ht Hp.
  - now exists f.
  - pose proof Hw as Hw'. cbn [literal_name forallb] in Hw'.
    apply andb_true_iff in Hw' as [Hc Hw'].
    destruct (IH Hw' tail K rest g g' f Ht Hp) as [f0 H0].
    pose proof (@quiet_escape_dots w tail Hw' Ht) as Hq.
    cbn [escape_dots flat_map chars]. fold (escape_dots w).
    destruct (is_ch c ".") eqn:Ed.
    + apply N.eqb_eq in Ed. subst c.
      exists (S (Nat.max 1 f0)).
      rewrite <- app_assoc.
      exact (@alt_cons 1 f0 (ch "\") (ch "." :: escape_dots w ++ tail) g
               (RChar (ch ".")) (chars w K) (escape_dots w ++ tail) rest g g'
               eq_refl (@term_dot 0 _ g Hq) H0).
    + unfold literal_unit in Hc. rewrite Ed, orb_false_r in Hc.
      exists (S (Nat.max 1 f0)).
      assert (Hb : is_ch c "|" || is_ch c ")" = false).
      { destruct (@plain_spec c Hc)
          as (H1 & H2 & H3 & H4 & H5 & H6 & H7 & H8 & H9 & H10 & H11 & H12 & H13 & H14).
        now rewrite H14, H9. }
      exact (@alt_cons 1 f0 c (escape_dots w ++ tail) g
               (RChar c) (chars w K) (escape_dots w ++ tail) rest g g'
               Hb (@term_plain 0 c _ g Hc Hq) H0).
Qed.

Lemma alt_bol (X : ustring) (R : regex) (rest : ustring) (g g' f : nat) :
  quiet X = true ->
  parse_alternative f X g = Ok (R, rest, g') ->
  exists f', parse_alternative f' (u "^" ++ X) g = Ok (RSeq RBol R, rest, g').
Proof.
  intros Hq H. exists (S (Nat.max 1 f)).
  refine (@alt_cons 1 f (ch "^") X g RBol R X rest g g' eq_refl _ H).
  change (parse_term 1 (ch "^" :: X) g) with (with_group g (no_quantifier RBol X)).
  now rewrite no_quantifier_quiet.
Qed.

Lemma alt_nested (X : ustring) (R : regex) (rest : ustring) (g g' f : nat) :
  quiet X = true ->
  parse_alternative f X g = Ok (R, rest, g') ->
  exists f', parse_alternative f' (u "^.*?/" ++ X) g
             = Ok (RSeq RBol (RSeq lazy_any (RSeq (RChar (ch "/")) R)), rest, g').
Proof.
  intros Hq H.
  assert (H1 : parse_alternative (S (Nat.max 1 f)) (ch "/" :: X) g
               = Ok (RSeq (RChar (ch "/")) R, rest, g')).
  { exact (@alt_cons 1 f (ch "/") X g (RChar (ch "/")) R X rest g g'
             eq_refl (@term_plain 0 (ch "/") _ g eq_refl Hq) H). }
  assert (H2 : parse_alternative (S (Nat.max 1 (S (Nat.max 1 f))))
                 (ch "." :: ch "*" :: ch "?" :: ch "/" :: X) g
               = Ok (RSeq lazy_any (RSeq (RChar (ch "/")) R), rest, g')).
  { exact (@alt_cons 1 _ (ch ".") (ch "*" :: ch "?" :: ch "/" :: X) g lazy_any _
             (ch "/" :: X) rest g g' eq_refl eq_refl H1). }
  eexists.
  exact (@alt_cons 1 _ (ch "^") (ch "." :: ch "*" :: ch "?" :: ch "/" :: X) g RBol _
           (ch "." :: ch "*" :: ch "?" :: ch "/" :: X) rest g g' eq_refl eq_refl H2).
Qed.

Lemma alt_before_bar (f : nat) (Y : ustring) (g : nat) :
  parse_alternative (S f) (ch "|" :: Y) g = Ok (REmpty, ch "|" :: Y, g).
Proof. reflexivity. Qed.

(** The source built around a translated rule [rp] compiles to the
    alternation of its four anchor forms, when [rp] parses on its own
    whatever follows it. *)
Lemma anchored_rule_compiles (rp : ustring) (body : regex -> regex) :
  (forall tail, quiet tail = true -> quiet (rp ++ tail) = true) ->
  (forall (tail : ustring) (K : regex) (rest : ustring) (g g' f : nat),
      quiet tail = true ->
      parse_alternative f tail g = Ok (K, rest, g') ->
      exists f', parse_alternative f' (rp ++ tail) g = Ok (body K, rest, g')) ->
  compile (regexSource rp) = Ok (rule_alternation body).
Proof.
  intros Hquiet Hbody.
  (* the fourth form, up to the end of the source *)
  assert (T4 : parse_alternative 7 (u "/.*$") 1
               = Ok (RSeq (RChar (ch "/")) (RSeq greedy_any (RSeq REol REmpty)), [], 1))
    by reflexivity.
  destruct (Hbody (u "/.*$") _ _ _ _ _ eq_refl T4) as [f4 C4].
  destruct (@alt_nested (rp ++ u "/.*$") _ _ 1 1 f4
              (Hquiet (u "/.*$") eq_refl) C4) as [a4 A4].
  assert (D4 : parse_disjunction (S a4) (u "^.*?/" ++ rp ++ u "/.*$") 1
               = Ok (form_of NestedPrefix body, [], 1)).
  { cbn [parse_disjunction]. now rewrite A4. }
  (* the third form *)
  set (S4 := u "^.*?/" ++ rp ++ u "/.*$") in *.
  assert (T3 : parse_alternative 3 (ch "$" :: ch "|" :: S4) 1
               = Ok (RSeq REol REmpty, ch "|" :: S4, 1)) by reflexivity.
  destruct (Hbody (ch "$" :: ch "|" :: S4) _ _ _ _ _ eq_refl T3) as [f3 C3].
  destruct (@alt_nested (rp ++ ch "$" :: ch "|" :: S4) _ _ 1 1 f3
              (Hquiet (ch "$" :: ch "|" :: S4) eq_refl) C3) as [a3 A3].
  pose proof (@disj_cons _ _ _ _ _ _ _ _ _ _ A3 D4) as D3.
  set (S3 := u "^.*?/" ++ rp ++ ch "$" :: ch "|" :: S4) in *.
  (* the second form *)
  assert (T2 : parse_alternative 2 (ch "/" :: ch "|" :: S3) 1
               = Ok (RSeq (RChar (ch "/")) REmpty, ch "|" :: S3, 1)).
  { exact (@alt_cons 1 1 (ch "/") (ch "|" :: S3) 1 (RChar (ch "/")) REmpty
             (ch "|" :: S3) (ch "|" :: S3) 1 1 eq_refl
             (@term_plain 0 (ch "/") (ch "|" :: S3) 1 eq_refl eq_refl)
             (@alt_before_bar 0 S3 1)). }
  destruct (Hbody (ch "/" :: ch "|" :: S3) _ _ _ _ _ eq_refl T2) as [f2 C2].
  destruct (@alt_bol (rp ++ ch "/" :: ch "|" :: S3) _ _ 1 1 f2
              (Hquiet (ch "/" :: ch "|" :: S3) eq_refl) C2) as [a2 A2].
  pose proof (@disj_cons _ _ _ _ _ _ _ _ _ _ A2 D3) as D2.
  set (S2 := u "^" ++ rp ++ ch "/" :: ch "|" :: S3) in *.
  (* the first form *)
  assert (T1 : parse_alternative 3 (ch "$" :: ch "|" :: S2) 1
               = Ok (RSeq REol REmpty, ch "|" :: S2, 1)) by reflexivity.
  destruct (Hbody (ch "$" :: ch "|" :: S2) _ _ _ _ _ eq_refl T1) as [f1 C1].
  destruct (@alt_bol (rp ++ ch "$" :: ch "|" :: S2) _ _ 1 1 f1
              (Hquiet (ch "$" :: ch "|" :: S2) eq_refl) C1) as [a1 A1].
  pose proof (@disj_cons _ _ _ _ _ _ _ _ _ _ A1 D2) as D1.
  apply compile_at_fuel with (f := S (Nat.max a1 (S (Nat.max a2 (S (Nat.max a3 (S a4)))))))
                             (g := 1).
  exact D1.
Qed.

(** The source of a literal rule compiles to the alternation of its four
    anchor forms. *)
Lemma literal_rule_compiles (w : ustring) :
  literal_name w = true ->
  compile (regexSource (escape_dots w)) = Ok (literal_regex w).
Proof.
  intros Hw. apply anchored_rule_compiles.
  - intros tail. now apply quiet_escape_dots.
  - now apply alt_chars.
Qed.

(** ** Matching the regex of a literal rule *)

Lemma startsWith_prefix (p s : ustring) :
  startsWith p s = true <-> has_prefix p s.
Proof.
  revert s; induction p as [|x p IH]; intros s; cbn [startsWith].
  - split; [now exists s | reflexivity].
  - destruct s as [|y s].
    + split; [discriminate | now intros [r Hr]].
    + rewrite andb_true_iff, IH. unfold cu_eqb. rewrite N.eqb_eq. split.
      * intros [-> [r ->]]. now exists r.
      * intros [r Hr]. injection Hr as -> ->. split; [reflexivity | now exists r].
Qed.

Lemma chars_app (v w : ustring) (K : regex) :
  chars (v ++ w) K = chars v (chars w K).
Proof. induction v as [|c v IH]; [reflexivity|]. cbn [app chars]. now rewrite IH. Qed.

(** The sequence of the code units of [w] matches where the input goes on
    with [w]. *)
Lemma matcher_chars (multiline : bool) (inp w : ustring) (K : regex)
    (caps : list (nat * (nat * nat))) (k : cont) (i : nat) :
  matcher multiline inp (chars w K) (MState i caps) k =
  if startsWith w (skipn i inp)
  then matcher multiline inp K (MState (i + List.length w) caps) k
  else None.
Proof.
  revert i; induction w as [|c w IH]; intros i.
  - cbn [chars startsWith List.length]. now rewrite Nat.add_0_r.
  - cbn [chars matcher]. unfold char_matcher. cbn [endIndex captures].
    destruct (nth_error inp i) as [y|] eqn:E.
    + rewrite (skipn_nth_error _ _ E). cbn [startsWith].
      destruct (cu_eqb c y); cbn [andb]; [|reflexivity].
      rewrite IH. cbn [List.length]. now rewrite Nat.add_succ_r.
    + apply nth_error_None in E. now rewrite skipn_all2 by lia.
Qed.

(** A starred class, greedy or lazy, succeeds exactly when the continuation
    does after some stretch of the input that holds none of the code units
    [q] that the class excludes. *)
Lemma star_run (inp : ustring) (q : cu -> bool) (greedy : bool) (k : cont)
    (m : mstate -> cont -> option mstate) :
  (forall x k', m x k' = char_matcher inp (fun c => negb (q c)) x k') ->
  forall fuel i,
    List.length inp - i <= fuel ->
    repeat_matcher fuel m [] 0 None greedy (MState i []) k <> None
    <-> exists mid rest,
          skipn i inp = mid ++ rest /\ Forall (fun c => q c = false) mid /\
          k (MState (i + List.length mid) []) <> None.
Proof.
  intros Hchar.
  assert (Hstop : forall i,
             (forall c tl, skipn i inp = c :: tl -> q c = true) ->
             k (MState i []) <> None
             <-> exists mid rest,
                   skipn i inp = mid ++ rest /\
                   Forall (fun c => q c = false) mid /\
                   k (MState (i + List.length mid) []) <> None).
  { intros i Hs. split.
    - intros Hk. exists [], (skipn i inp).
      cbn [List.length app]. rewrite Nat.add_0_r. now repeat split; [constructor|].
    - intros (mid & rest & E & Hm & Hk). destruct mid as [|c mid].
      + cbn [List.length] in Hk. now rewrite Nat.add_0_r in Hk.
      + specialize (Hs c (mid ++ rest) E). inversion Hm; congruence. }
  induction fuel as [|fuel IH]; intros i Hf.
  - cbn [repeat_matcher]. apply Hstop. intros c tl E.
    rewrite skipn_all2 in E by lia. discriminate.
  - rewrite repeat_matcher_S. cbv zeta. rewrite Hchar. unfold char_matcher.
    cbn [clear_captures endIndex captures filter]. change (Nat.eqb 0 0) with true.
    cbn [andb pred dec_max].
    destruct (nth_error inp i) as [c|] eqn:E.
    + pose proof (skipn_nth_error _ _ E) as Es.
      destruct (q c) eqn:L; cbn [negb].
      * transitivity (k (MState i []) <> None).
        { destruct greedy; destruct (k (MState i [])); intuition congruence. }
        apply Hstop. intros c' tl E'. rewrite Es in E'. now injection E' as <- _.
      * replace (Nat.eqb (S i) i) with false
          by (symmetry; apply Nat.eqb_neq; lia).
        specialize (IH (S i) ltac:(lia)).
        set (inner := repeat_matcher fuel m [] 0 None greedy (MState (S i) []) k) in *.
        transitivity (k (MState i []) <> None \/ inner <> None).
        { destruct greedy; destruct (k (MState i [])); destruct inner;
            intuition congruence. }
        rewrite IH. split.
        -- intros [Hk | (mid & rest & E' & Hm & Hk)].
           ++ exists [], (skipn i inp). cbn [List.length app].
              rewrite Nat.add_0_r. now repeat split; [constructor|].
           ++ exists (c :: mid), rest. rewrite Es, E'. repeat split.
              ** now constructor.
              ** cbn [List.length]. now rewrite Nat.add_succ_r.
        -- intros (mid & rest & E' & Hm & Hk). destruct mid as [|c' mid].
           ++ left. cbn [List.length] in Hk. now rewrite Nat.add_0_r in Hk.
           ++ right. rewrite Es in E'. injection E' as <- E'.
              exists mid, rest. repeat split; [exact E' | now inversion Hm |].
              cbn [List.length] in Hk. now rewrite Nat.add_succ_r in Hk.
    + transitivity (k (MState i []) <> None).
      { destruct greedy; destruct (k (MState i [])); intuition congruence. }
      apply Hstop. intros c tl E'. apply nth_error_None in E.
      rewrite skipn_all2 in E' by lia. discriminate.
Qed.

Lemma matcher_star_any (inp : ustring) (greedy : bool) (R : regex) (i : nat)
    (k : cont) :
  matcher false inp (RSeq (RQuant 0 None greedy RAny) R) (MState i []) k <> None
  <-> exists mid rest,
        skipn i inp = mid ++ rest /\ one_line mid /\
        matcher false inp R (MState (i + List.length mid) []) k <> None.
Proof.
  change (matcher false inp (RSeq (RQuant 0 None greedy RAny) R) (MState i []) k)
    with (repeat_matcher (0 + (List.length inp - i)) (matcher false inp RAny) []
            0 None greedy (MState i []) (fun y => matcher false inp R y k)).
  apply (@star_run inp is_line_terminator greedy (fun y => matcher false inp R y k)
           (matcher false inp RAny) (fun _ _ => eq_refl)).
  cbn [Nat.add]. lia.
Qed.

Lemma matcher_star_nonslash (inp : ustring) (R : regex) (i : nat) (k : cont) :
  matcher false inp (RSeq nonslash R) (MState i []) k <> None
  <-> exists mid rest,
        skipn i inp = mid ++ rest /\ Forall (fun c => is_ch c "/" = false) mid /\
        matcher false inp R (MState (i + List.length mid) []) k <> None.
Proof.
  change (matcher false inp (RSeq nonslash R) (MState i []) k)
    with (repeat_matcher (0 + (List.length inp - i))
            (matcher false inp (RSet true [IChar (ch "/")])) []
            0 None true (MState i []) (fun y => matcher false inp R y k)).
  rewrite (@star_run inp (fun c => is_ch c "/" || false) true
             (fun y => matcher false inp R y k)
             (matcher false inp (RSet true [IChar (ch "/")])) (fun _ _ => eq_refl))
    by (cbn [Nat.add]; lia).
  split; intros (mid & rest & E & Hm & Hk); exists mid, rest;
    (repeat split; [exact E | | exact Hk]);
    (eapply Forall_impl; [|exact Hm]); cbv beta; intros c Hc.
  - now rewrite orb_false_r in Hc.
  - now rewrite orb_false_r.
Qed.

Lemma skipn_past (a b : ustring) (n : nat) :
  skipn (List.length a + n) (a ++ b) = skipn n b.
Proof. induction a as [|x a IH]; [reflexivity | exact IH]. Qed.

Lemma skipn_exact (a b : ustring) : skipn (List.length a) (a ++ b) = b.
Proof. now rewrite <- (Nat.add_0_r (List.length a)), skipn_past. Qed.

(** The end of the input, after the code units of [v]. *)
Lemma matcher_chars_eol (inp v : ustring) (i : nat) :
  i <= List.length inp ->
  matcher false inp (chars v (RSeq REol REmpty)) (MState i []) Some <> None
  <-> skipn i inp = v.
Proof.
  intros Hi. rewrite matcher_chars.
  destruct (startsWith v (skipn i inp)) eqn:E.
  - apply startsWith_prefix in E as [rest E]. cbn [matcher]. unfold at_eol.
    cbn [endIndex andb].
    assert (Hn : nth_error inp (i + List.length v) = nth_error rest 0).
    { rewrite <- nth_error_skipn, E, nth_error_app2 by lia.
      now rewrite Nat.sub_diag. }
    rewrite Hn, E. destruct rest as [|c rest]; cbn [nth_error].
    + assert (Hl : List.length inp = i + List.length v).
      { pose proof (f_equal (@List.length cu) E) as Hl.
        rewrite length_skipn, app_nil_r in Hl. lia. }
      rewrite Hl, Nat.eqb_refl, app_nil_r. split; [reflexivity | discriminate].
    + split; [congruence|]. intros Hv.
      apply (f_equal (@List.length cu)) in Hv. rewrite length_app in Hv.
      cbn [List.length] in Hv. lia.
  - split; [congruence|]. intros Hv. rewrite Hv in E.
    assert (Hp : startsWith v v = true) by (apply startsWith_prefix; exists []; now rewrite app_nil_r).
    congruence.
Qed.

Lemma search_bol_later (inp : ustring) (R : regex) (n i : nat) :
  search_from false inp (RSeq RBol R) n (S i) = None.
Proof.
  revert i; induction n as [|n IH]; intros i; cbn [search_from matcher];
    unfold at_bol; cbn [endIndex andb]; [reflexivity | apply IH].
Qed.

(** Without the [m] flag, a regex that starts with [^] is tried at the
    start of the input only. *)
Lemma test_bol (inp : ustring) (R : regex) :
  test false (RSeq RBol R) inp = true
  <-> matcher false inp R (MState 0 []) Some <> None.
Proof.
  unfold test, exec_at. cbn [Nat.ltb Nat.leb].
  destruct (List.length inp - 0) as [|n]; cbn [search_from matcher];
    unfold at_bol; cbn [endIndex];
    destruct (matcher false inp R (MState 0 []) Some);
    try rewrite search_bol_later; split; congruence.
Qed.

Lemma literal_full (w path : ustring) :
  test false (form FullPath w) path = true <-> path = w.
Proof.
  unfold form, form_of. rewrite test_bol, matcher_chars_eol by lia. reflexivity.
Qed.

Lemma literal_prefix (w path : ustring) :
  test false (form DirectoryPrefix w) path = true
  <-> has_prefix (w ++ u "/") path.
Proof.
  unfold form, form_of. rewrite test_bol.
  change (RSeq (RChar (ch "/")) REmpty) with (chars (u "/") REmpty).
  rewrite <- chars_app, matcher_chars. cbn [skipn matcher].
  rewrite <- startsWith_prefix.
  destruct (startsWith (w ++ u "/") path); split; congruence.
Qed.

Lemma literal_basename (w path : ustring) :
  test false (form BasenameSuffix w) path = true
  <-> exists pre, one_line pre /\ path = pre ++ u "/" ++ w.
Proof.
  unfold form, form_of. rewrite test_bol.
  change (RSeq lazy_any (RSeq (RChar (ch "/")) (chars w (RSeq REol REmpty))))
    with (RSeq (RQuant 0 None false RAny) (chars (u "/" ++ w) (RSeq REol REmpty))).
  rewrite matcher_star_any. cbn [skipn Nat.add]. split.
  - intros (mid & rest & E & Hm & Hk). exists mid. split; [exact Hm|].
    apply matcher_chars_eol in Hk.
    + rewrite E, skipn_app, Nat.sub_diag, skipn_all in Hk. cbn [skipn app] in Hk.
      now rewrite E, Hk.
    + rewrite E, length_app. lia.
  - intros (pre & Hp & ->). exists pre, (u "/" ++ w). repeat split; [exact Hp|].
    apply matcher_chars_eol; [rewrite length_app; lia|].
    now rewrite skipn_app, Nat.sub_diag, skipn_all.
Qed.

Lemma literal_nested (w path : ustring) :
  test false (form NestedPrefix w) path = true
  <-> exists pre post,
        one_line pre /\ one_line post /\ path = pre ++ u "/" ++ w ++ u "/" ++ post.
Proof.
  unfold form, form_of. rewrite test_bol.
  change (RSeq lazy_any
            (RSeq (RChar (ch "/"))
               (chars w (RSeq (RChar (ch "/")) (RSeq greedy_any (RSeq REol REmpty))))))
    with (RSeq (RQuant 0 None false RAny)
            (chars (u "/" ++ w)
               (chars (u "/") (RSeq greedy_any (RSeq REol REmpty))))).
  rewrite matcher_star_any. cbn [skipn Nat.add].
  assert (Htail : forall j,
             j <= List.length path ->
             matcher false path (RSeq greedy_any (RSeq REol REmpty)) (MState j []) Some
               <> None
             <-> one_line (skipn j path)).
  { intros j Hj.
    change (RSeq greedy_any (RSeq REol REmpty))
      with (RSeq (RQuant 0 None true RAny) (chars [] (RSeq REol REmpty))).
    rewrite matcher_star_any. split.
    - intros (mid & rest & E & Hm & Hk). apply matcher_chars_eol in Hk.
      + rewrite <- (firstn_skipn (List.length mid) (skipn j path)) in E.
        rewrite skipn_skipn, (Nat.add_comm (List.length mid)), Hk, app_nil_r in E.
        assert (Er : rest = []).
        { apply (f_equal (@List.length cu)) in E.
          rewrite length_app, length_firstn in E.
          destruct rest; [reflexivity | cbn [List.length] in E; lia]. }
        subst rest. rewrite app_nil_r in E.
        rewrite <- (firstn_skipn (List.length mid) (skipn j path)).
        rewrite skipn_skipn, (Nat.add_comm (List.length mid)), Hk, app_nil_r.
        now rewrite E.
      + pose proof (f_equal (@List.length cu) E) as Hl.
        rewrite length_skipn, length_app in Hl. lia.
    - intros Ho. exists (skipn j path), []. rewrite app_nil_r.
      repeat split; [exact Ho|]. apply matcher_chars_eol.
      + rewrite length_skipn. lia.
      + rewrite skipn_all2; [reflexivity|]. rewrite length_skipn. lia. }
  split.
  - intros (mid & rest & E & Hm & Hk). cbn [skipn] in E. subst path.
    exists mid. rewrite <- chars_app, matcher_chars, skipn_exact in Hk.
    destruct (startsWith ((u "/" ++ w) ++ u "/") rest) eqn:Ep; [|congruence].
    apply startsWith_prefix in Ep as [post ->]. exists post.
    apply Htail in Hk; [|rewrite !length_app; lia].
    rewrite skipn_past, <- (Nat.add_0_r (List.length _)), skipn_past in Hk.
    repeat split; [exact Hm | exact Hk | now rewrite <- !app_assoc].
  - intros (pre & post & Hp & Hq & E).
    assert (E' : path = pre ++ ((u "/" ++ w) ++ u "/") ++ post)
      by (rewrite E; now rewrite <- !app_assoc).
    clear E. subst path. exists pre, (((u "/" ++ w) ++ u "/") ++ post).
    repeat split; [exact Hp|].
    rewrite <- chars_app, matcher_chars, skipn_exact.
    assert (Es : startsWith ((u "/" ++ w) ++ u "/") (((u "/" ++ w) ++ u "/") ++ post)
                 = true) by (apply startsWith_prefix; now exists post).
    rewrite Es. apply Htail; [rewrite !length_app; lia|].
    now rewrite skipn_past, <- (Nat.add_0_r (List.length _)), skipn_past.
Qed.

(** What a literal rule answers on a normalized path. *)
Lemma literal_rule_test (pattern path : ustring) :
  literal_name (normalizePattern pattern) = true ->
  pattern_test path pattern
  = Ok (test false (literal_regex (normalizePattern pattern)) path).
Proof.
  intros Hw. unfold pattern_test.
  now rewrite (regexPattern_literal _ Hw), (literal_rule_compiles _ Hw).
Qed.

(** X16. A rule made of plain code units and dots names entries literally.
    With [w] the rule without its surrounding white space and outer
    separators, a path is ignored by the rule exactly when it is [w], starts
    with [w/], ends with [/w] after a stretch without line terminators, or
    holds [/w/] between two such stretches. *)
Theorem literal_rule_semantics (pattern filePath : ustring) :
  let w := normalizePattern pattern in
  let path := normalize_separators filePath in
  literal_name w = true ->
  exists b,
    isIgnored filePath [pattern] = Ok b /\
    (b = true <->
       path = w \/ has_prefix (w ++ u "/") path \/
       (exists pre, one_line pre /\ path = pre ++ u "/" ++ w) \/
       (exists pre post, one_line pre /\ one_line post /\
                         path = pre ++ u "/" ++ w ++ u "/" ++ post)).
Proof.
  intros w path Hw. exists (test false (literal_regex w) path). split.
  - unfold isIgnored. cbn [some]. fold path.
    rewrite (@literal_rule_test pattern path Hw). fold w.
    now destruct (test false (literal_regex w) path).
  - unfold literal_regex, rule_alternation.
    fold (form FullPath w) (form DirectoryPrefix w) (form BasenameSuffix w)
      (form NestedPrefix w).
    rewrite !test_alt, !orb_true_iff, literal_full, literal_prefix,
      literal_basename, literal_nested.
    tauto.
Qed.

Lemma literal_rule_semantics_witness :
  exists b,
    isIgnored (u "src\node_modules\x.js") [u " node_modules/ "] = Ok b /\
    (b = true <->
       u "src/node_modules/x.js" = u "node_modules" \/
       has_prefix (u "node_modules" ++ u "/") (u "src/node_modules/x.js") \/
       (exists pre, one_line pre /\
                    u "src/node_modules/x.js" = pre ++ u "/" ++ u "node_modules") \/
       (exists pre post, one_line pre /\ one_line post /\
                         u "src/node_modules/x.js"
                         = pre ++ u "/" ++ u "node_modules" ++ u "/" ++ post)).
Proof.
  apply (literal_rule_semantics (u " node_modules/ ") (u "src\node_modules\x.js")).
  vm_compute. reflexivity.
Defined.

(** ** Literal rules during a scan *)

Lemma entry_name_app (a b : ustring) :
  entry_name (a ++ u "/" ++ b) = false.
Proof.
  unfold entry_name. rewrite forallb_app. cbn [app u map list_ascii_of_string forallb].
  change (is_ch (N_of_ascii "/") "/") with true. cbn [negb andb].
  apply andb_false_r.
Qed.

Lemma entry_name_normalized (name : ustring) :
  entry_name name = true -> normalize_separators name = name.
Proof.
  intros H. apply replace1_absent. unfold entry_name in H.
  rewrite forallb_forall in *. intros c Hc. specialize (H c Hc).
  apply andb_true_iff in H as [_ H]. exact H.
Qed.

(** On the name of an entry a literal rule answers by comparing the name
    with the rule. *)
Lemma literal_rule_on_name (pattern name : ustring) :
  literal_name (normalizePattern pattern) = true ->
  entry_name name = true ->
  pattern_test name pattern = Ok (ueqb name (normalizePattern pattern)).
Proof.
  intros Hw Hn. rewrite (@literal_rule_test pattern name Hw). f_equal.
  set (w := normalizePattern pattern).
  apply eq_true_iff_eq. unfold literal_regex, rule_alternation.
  fold (form FullPath w) (form DirectoryPrefix w) (form BasenameSuffix w)
    (form NestedPrefix w).
  rewrite !test_alt, !orb_true_iff, literal_full, literal_prefix,
    literal_basename, literal_nested, ueqb_eq.
  split; [|now left].
  intros [H | [[rest H] | [(pre & _ & H) | (pre & post & _ & _ & H)]]];
    [exact H | exfalso ..].
  - rewrite H, <- app_assoc, entry_name_app in Hn. discriminate.
  - rewrite H, entry_name_app in Hn. discriminate.
  - rewrite H, entry_name_app in Hn. discriminate.
Qed.

(** X17. During a scan a literal rule without separator ignores exactly
    the entries that bear its name, and otherwise leaves the decision to
    the rules that follow. *)
Theorem literal_rule_ignores_its_name (pattern name : ustring) (rules : list ustring) :
  literal_name (normalizePattern pattern) = true ->
  entry_name name = true ->
  isIgnored name (pattern :: rules)
  = if ueqb name (normalizePattern pattern) then Ok true else isIgnored name rules.
Proof.
  intros Hw Hn. unfold isIgnored. cbn [some].
  rewrite (entry_name_normalized _ Hn), (@literal_rule_on_name pattern name Hw Hn).
  now destruct (ueqb name (normalizePattern pattern)).
Qed.

Lemma literal_rule_ignores_its_name_witness :
  isIgnored (u "venv") [u "/venv/"; u "("] = Ok true /\
  isIgnored (u "venv2") [u "/venv/"; u "*2"] = Ok true.
Proof.
  split.
  - apply (literal_rule_ignores_its_name (u "/venv/") (u "venv") [u "("]);
      vm_compute; reflexivity.
  - rewrite (literal_rule_ignores_its_name (u "/venv/") (u "venv2") [u "*2"])
      by (vm_compute; reflexivity).
    vm_compute. reflexivity.
Defined.

(** Rule sets that agree on the names of entries give the same scan. *)
Lemma scan_same_rules (pats1 pats2 : list ustring) :
  (forall name, entry_name name = true ->
                isIgnored name pats1 = isIgnored name pats2) ->
  forall dir, proper dir ->
  forall level, scanDirectory pats1 dir level = scanDirectory pats2 dir level.
Proof.
  intros Hsame dir Hp. induction Hp as [body| |listing Hnames Hsub IH];
    intros level; try reflexivity.
  cbn [scanDirectory]. f_equal.
  assert (Hfiles : forall f, In f (sort (map fst listing)) -> entry_name f = true).
  { intros f Hf. apply (Permutation_in _ (Permutation_sym (sort_permutation _))) in Hf.
    apply in_map_iff in Hf as [p [<- Hp]].
    rewrite Forall_forall in Hnames. now apply Hnames. }
  revert Hfiles. generalize (sort (map fst listing)) (@nil cu).
  intros files. induction files as [|f files IHf]; intros content Hfiles;
    [reflexivity|].
  cbn [scan_loop].
  assert (E : scan_entry pats1 level (stat_all (scanDirectory pats1) listing) f content
              = scan_entry pats2 level (stat_all (scanDirectory pats2) listing) f content).
  { unfold scan_entry. rewrite !lookup_stat_all.
    rewrite (Hsame f) by (apply Hfiles; now left).
    destruct (lookup f listing) as [[e|]|] eqn:El; cbn [option_map stat_entry];
      try reflexivity.
    destruct (isIgnored f pats2) as [[|]|]; try reflexivity.
    destruct e as [body|sub]; [reflexivity|].
    rewrite (IH f (EDir sub)); [reflexivity|].
    clear - El. induction listing as [|[n a] l IHl]; [discriminate|].
    cbn [lookup] in El. destruct (ueqb n f) eqn:En.
    - apply ueqb_eq in En. injection El as ->. subst n. now left.
    - right. now apply IHl. }
  rewrite E.
  destruct (scan_entry pats2 level (stat_all (scanDirectory pats2) listing) f content)
    as [c [|]]; [reflexivity|].
  apply IHf. intros g Hg. apply Hfiles. now right.
Qed.

(** X18. A literal rule with a separator inside never applies during a
    scan: entries are tested by their name alone, which holds no separator,
    so the scan is the same with and without the rule, wherever it stands
    in the rule set. *)
Theorem rule_with_inner_separator_is_dead
    (before after : list ustring) (pattern : ustring) (dir : entry) (level : nat) :
  literal_name (normalizePattern pattern) = true ->
  In (ch "/") (normalizePattern pattern) ->
  proper dir ->
  scanDirectory (before ++ pattern :: after) dir level
  = scanDirectory (before ++ after) dir level.
Proof.
  intros Hw Hs Hp. apply scan_same_rules; [|exact Hp].
  intros name Hn. unfold isIgnored. rewrite !some_app. cbn [some].
  rewrite (entry_name_normalized _ Hn), (@literal_rule_on_name pattern name Hw Hn).
  replace (ueqb name (normalizePattern pattern)) with false; [reflexivity|].
  symmetry. apply ueqb_neq. intros ->.
  unfold entry_name in Hn. rewrite forallb_forall in Hn.
  specialize (Hn _ Hs). discriminate.
Qed.

Lemma rule_with_inner_separator_is_dead_witness :
  scanDirectory ([u "dist"] ++ u "src/gen" :: [u "*.log"]) nested_sample 0
  = scanDirectory ([u "dist"] ++ [u "*.log"]) nested_sample 0.
Proof.
  apply (@rule_with_inner_separator_is_dead [u "dist"] [u "*.log"] (u "src/gen")
           nested_sample 0).
  - vm_compute. reflexivity.
  - vm_compute. do 3 right. left. reflexivity.
  - unfold nested_sample.
    repeat (apply proper_dir;
            [repeat constructor
            |intros name e Hin; cbn [In] in Hin;
             repeat (destruct Hin as [Hin|Hin]; [injection Hin as <- <-|]);
             try contradiction]);
    apply proper_file.
Defined.

(** ** A rule that is not a regular expression *)

Lemma isIgnored_malformed (name pattern : ustring) (before after : list ustring) :
  rule_regex pattern = Err SyntaxError ->
  isIgnored name (before ++ pattern :: after) <> Ok false.
Proof.
  intros Hbad. unfold isIgnored. rewrite some_app.
  destruct (some (pattern_test (normalize_separators name)) before) as [[|]|e];
    try discriminate.
  cbn [some]. unfold pattern_test. unfold rule_regex in Hbad. rewrite Hbad.
  discriminate.
Qed.

(** When the rules keep no name, the scan writes nothing. *)
Lemma scan_keeps_nothing (rules : list ustring) (dir : entry) (level : nat) :
  (forall name, isIgnored name rules <> Ok false) ->
  scanDirectory rules dir level = [].
Proof.
  intros Hi. destruct dir as [body|[listing|]]; try reflexivity.
  cbn [scanDirectory].
  generalize (stat_all (scanDirectory rules) listing).
  intros table. generalize (sort (map fst listing)). intros files.
  induction files as [|f files IH]; [reflexivity|].
  cbn [scan_loop]. unfold scan_entry. specialize (Hi f).
  destruct (lookup f table) as [[stats|]|]; try reflexivity.
  destruct (isIgnored f rules) as [[|]|e];
    [exact IH | congruence | reflexivity].
Qed.

(** X19. A rule that does not translate to a valid regular expression
    empties the listing, wherever it stands in the rule set: the first
    entry that the rules before it keep makes [isIgnored] throw, which ends
    the loop before anything is written; this holds in every directory. *)
Theorem malformed_rule_empties_listing
    (before after : list ustring) (pattern : ustring) (dir : entry) (level : nat) :
  rule_regex pattern = Err SyntaxError ->
  scanDirectory (before ++ pattern :: after) dir level = [].
Proof.
  intros Hbad. apply scan_keeps_nothing. intros name.
  now apply isIgnored_malformed.
Qed.

Lemma malformed_rule_empties_listing_witness :
  scanDirectory ([u "dist"] ++ u "(" :: defaultPatterns) nested_sample 0 = [].
Proof.
  apply (@malformed_rule_empties_listing [u "dist"] defaultPatterns (u "(")
           nested_sample 0).
  vm_compute. reflexivity.
Defined.

(** X24. One line of the ignore-file that is kept as a rule and is not a
    valid regular expression once translated leaves the document without a
    listing: the text ends with the heading of the file structure, whatever
    the workspace holds. *)
Theorem malformed_ignore_line_empties_document
    (project_info : ustring -> ustring) (w : workspace) (content line : ustring) :
  gitignore w = Present content ->
  In line (split 10%N content) ->
  keep_line (trim line) = true ->
  rule_regex (trim line) = Err SyntaxError ->
  scanDirectory (loadGitignorePatterns (gitignore w)) (root w) 0 = [] /\
  has_suffix (u "## File Structure" ++ nl ++ nl) (analyzeWorkspace project_info w).
Proof.
  intros Hg Hin Hk Hbad.
  assert (Hscan : scanDirectory (loadGitignorePatterns (gitignore w)) (root w) 0 = []).
  { assert (Hr : In (trim line) (loadGitignorePatterns (gitignore w))).
    { rewrite Hg. unfold loadGitignorePatterns. apply in_or_app. left.
      apply filter_In. split; [|exact Hk]. now apply in_map. }
    apply in_split in Hr as (before & after & ->).
    apply scan_keeps_nothing. intros name. now apply isIgnored_malformed. }
  split; [exact Hscan|].
  unfold analyzeWorkspace. rewrite Hscan, app_nil_r. unfold has_suffix.
  eexists. rewrite !app_assoc. reflexivity.
Qed.

Lemma malformed_ignore_line_empties_document_witness :
  has_suffix (u "## File Structure" ++ nl ++ nl)
    (analyzeWorkspace (fun _ => [])
       (mkWorkspace (u "/w") (Present (u "dist" ++ nl ++ u " [ ")) Absent Absent Absent
                    nested_sample)).
Proof.
  apply (proj2 (@malformed_ignore_line_empties_document (fun _ => [])
                  (mkWorkspace (u "/w") (Present (u "dist" ++ nl ++ u " [ "))
                               Absent Absent Absent nested_sample)
                  (u "dist" ++ nl ++ u " [ ") (u " [ ") eq_refl
                  ltac:(vm_compute; right; left; reflexivity)
                  ltac:(vm_compute; reflexivity)
                  ltac:(vm_compute; reflexivity))).
Defined.

(** ** Files without a profile *)

(** X20. A kept file whose extension has no profile (none of [.js], [.ts],
    [.jsx], [.tsx], [.py]) contributes its name line and nothing else.  It
    is not read, except under the extension [.vue]: a [.vue] file is read
    and the text discarded, so that an unreadable one ends the loop. *)
Theorem file_without_profile_is_listed_by_name_only
    (pats : list ustring) (level : nat) (table : list (ustring * option scanned))
    (file content : ustring) (body : option ustring) :
  lookup file table = Some (Some (KFile body)) ->
  isIgnored file pats = Ok false ->
  includes js_exts (extname file) = false ->
  ueqb (extname file) (u ".py") = false ->
  scan_entry pats level table file content
  = (content ++ file_line level file,
     ueqb (extname file) (u ".vue") && match body with None => true | Some _ => false end).
Proof.
  intros Hl Hi Hjs Hpy. unfold scan_entry. rewrite Hl, Hi.
  unfold analyzeFileContent. rewrite Hjs, Hpy.
  change (formatAnalysis emptyAnalysis (repeat_str (u "  ") level)) with (@nil cu).
  rewrite app_nil_r.
  change (content ++ repeat_str (u "  ") level ++ u "- " ++ file_glyph ++ u " "
            ++ file ++ nl) with (content ++ file_line level file).
  unfold analysed_exts, js_exts in *. cbn [includes existsb] in *.
  rewrite !orb_false_r in *. repeat rewrite orb_false_iff in Hjs.
  destruct Hjs as (H1 & H2 & H3 & H4). rewrite H1, H2, H3, H4, Hpy.
  cbn [orb]. rewrite orb_false_r.
  destruct (ueqb (extname file) (u ".vue")); [|reflexivity].
  destruct body; reflexivity.
Qed.

Lemma file_without_profile_is_listed_by_name_only_witness :
  scan_entry [] 0 [(u "App.vue", Some (KFile None))] (u "App.vue") []
  = (file_line 0 (u "App.vue"), true) /\
  scan_entry [] 0 [(u "App.vue", Some (KFile (Some (u "function f() {}"))))]
             (u "App.vue") []
  = (file_line 0 (u "App.vue"), false) /\
  scan_entry [] 0 [(u "notes.md", Some (KFile None))] (u "notes.md") []
  = (file_line 0 (u "notes.md"), false).
Proof.
  repeat apply conj.
  - apply (@file_without_profile_is_listed_by_name_only
             [] 0 [(u "App.vue", Some (KFile None))] (u "App.vue") [] None);
      reflexivity.
  - apply (@file_without_profile_is_listed_by_name_only
             [] 0 [(u "App.vue", Some (KFile (Some (u "function f() {}"))))]
             (u "App.vue") [] (Some (u "function f() {}")));
      reflexivity.
  - apply (@file_without_profile_is_listed_by_name_only
             [] 0 [(u "notes.md", Some (KFile None))] (u "notes.md") [] None);
      reflexivity.
Defined.

(** * What the groups of a regex capture *)

(** ** Every run of the matcher is a run of the relation *)

Lemma repeat_matcher_post (m : mstate -> cont -> option mstate) ns greedy
    (R : mstate -> mstate -> Prop) :
  (forall x k z, m x k = Some z -> exists y, R x y /\ k y = Some z) ->
  forall fuel min max x k z,
    repeat_matcher fuel m ns min max greedy x k = Some z ->
    exists y, iter (fun a b => R (clear_captures ns a) b) x y /\ k y = Some z.
Proof.
  intros Hm. induction fuel as [|fuel IH]; intros min max x k z.
  - simpl. destruct max as [[|n]|]; destruct min; try discriminate;
      intros H; exists x; (split; [constructor | exact H]).
  - rewrite repeat_matcher_S. cbv zeta.
    assert (Hstop : k x = Some z ->
                    exists y, iter (fun a b => R (clear_captures ns a) b) x y /\
                              k y = Some z).
    { intros H. exists x. split; [constructor | exact H]. }
    assert (Hmd : m (clear_captures ns x)
                    (fun y =>
                       if Nat.eqb min 0 && Nat.eqb (endIndex y) (endIndex x) then None
                       else repeat_matcher fuel m ns (pred min) (dec_max max) greedy y k)
                  = Some z ->
                  exists y, iter (fun a b => R (clear_captures ns a) b) x y /\
                            k y = Some z).
    { intros H. apply Hm in H as (y & Hy & Hd).
      destruct (_ && _); [discriminate|].
      apply IH in Hd as (y' & Hi & Hk). exists y'. split; [|exact Hk].
      now apply iter_step with (m := y). }
    destruct max as [[|n]|]; try exact Hstop;
      destruct min; try destruct greedy; try exact Hmd;
      match goal with
      | |- match ?a with Some _ => _ | None => _ end = _ -> _ =>
          destruct a eqn:Ea; intros H
      end;
      try (injection H as ->);
      first [ now apply Hmd | now apply Hstop ].
Qed.

Lemma matcher_post (multiline : bool) (inp : ustring) (r : regex) :
  forall x k z,
    matcher multiline inp r x k = Some z ->
    exists y, post inp r x y /\ k y = Some z.
Proof.
  induction r as [|c| |neg items| | |r1 IH1 r2 IH2|r1 IH1 r2 IH2
                 |min max greedy r IH|n r IH|neg r IH];
    intros x k z; cbn [matcher post]; unfold char_matcher, takes.
  - intros H. now exists x.
  - destruct (nth_error inp (endIndex x)) as [d|]; [|discriminate].
    destruct (cu_eqb c d) eqn:E; [|discriminate]. intros H. eauto 7.
  - destruct (nth_error inp (endIndex x)) as [d|]; [|discriminate].
    destruct (negb _) eqn:E; [|discriminate]. intros H. eauto 7.
  - destruct (nth_error inp (endIndex x)) as [d|]; [|discriminate].
    destruct (set_matches _ _ _) eqn:E; [|discriminate]. intros H. eauto 7.
  - destruct (at_bol _ _ x); [|discriminate]. intros H. eauto.
  - destruct (at_eol _ _ x); [|discriminate]. intros H. eauto.
  - intros H. apply IH1 in H as (m & Hm & H). apply IH2 in H as (y & Hy & H).
    eauto.
  - destruct (matcher multiline inp r1 x k) eqn:E.
    + intros [= <-]. apply IH1 in E as (y & Hy & H). eauto.
    + intros H. apply IH2 in H as (y & Hy & H). eauto.
  - apply repeat_matcher_post. exact IH.
  - intros H. apply IH in H as (m & Hm & H). eauto.
  - destruct (matcher multiline inp r x Some) as [m|] eqn:E; destruct neg;
      try discriminate; intros H.
    + apply IH in E as (m' & Hm & [= ->]). eauto 6.
    + eauto.
Qed.

(** ** Captures under the operations of the matcher *)

Lemma Forall_filter_keeps {A : Type} (P : A -> Prop) (f : A -> bool) (l : list A) :
  Forall P l -> Forall P (filter f l).
Proof.
  rewrite !Forall_forall. intros H a Ha. apply filter_In in Ha as [Ha _]. auto.
Qed.

Lemma get_capture_filter (n : nat) (f : nat * (nat * nat) -> bool)
    (caps : list (nat * (nat * nat))) :
  (forall p, fst p = n -> f p = true) ->
  get_capture n (filter f caps) = get_capture n caps.
Proof.
  intros Hf. unfold get_capture. induction caps as [|p caps IH]; [reflexivity|].
  cbn [filter find]. destruct (Nat.eqb (fst p) n) eqn:E.
  - apply Nat.eqb_eq in E. rewrite (Hf p E). cbn [find].
    apply Nat.eqb_eq in E. now rewrite E.
  - destruct (f p); [|exact IH]. cbn [find]. now rewrite E.
Qed.

Lemma get_capture_set (n : nat) (span : nat * nat) (x : mstate) :
  get_capture n (captures (set_capture n span x)) = Some span.
Proof.
  unfold get_capture, set_capture. cbn [captures find fst snd].
  now rewrite Nat.eqb_refl.
Qed.

Lemma get_capture_set_other (n m : nat) (span : nat * nat) (x : mstate) :
  n <> m ->
  get_capture n (captures (set_capture m span x)) = get_capture n (captures x).
Proof.
  intros Hn. unfold set_capture. cbn [captures].
  unfold get_capture at 1. cbn [find fst].
  replace (Nat.eqb m n) with false by (symmetry; apply Nat.eqb_neq; congruence).
  apply get_capture_filter. intros p <-.
  apply negb_true_iff, Nat.eqb_neq. exact Hn.
Qed.

Lemma get_capture_clear (n : nat) (ns : list nat) (x : mstate) :
  existsb (Nat.eqb n) ns = false ->
  get_capture n (captures (clear_captures ns x)) = get_capture n (captures x).
Proof.
  intros Hn. unfold clear_captures. cbn [captures].
  apply get_capture_filter. intros p <-. now rewrite Hn.
Qed.

Lemma get_capture_In (n : nat) (span : nat * nat) (caps : list (nat * (nat * nat))) :
  get_capture n caps = Some span -> In (n, span) caps.
Proof.
  unfold get_capture. destruct (find _ caps) as [[m s]|] eqn:E; [|discriminate].
  intros [= <-]. apply find_some in E as [Hin Hn]. cbn [fst] in Hn.
  apply Nat.eqb_eq in Hn. now subst m.
Qed.

(** ** What the relation tells about the captures *)

(** Every capture of the final state spans a run of the body of its
    group. *)
Lemma post_captured (inp : ustring) (specs : list (nat * regex)) (r : regex) :
  incl (group_spec r) specs ->
  forall x y,
    post inp r x y ->
    Forall (captured_by inp specs) (captures x) ->
    Forall (captured_by inp specs) (captures y).
Proof.
  induction r as [|c| |neg items| | |r1 IH1 r2 IH2|r1 IH1 r2 IH2
                 |min max greedy r IH|n r IH|neg r IH];
    intros Hs x y; cbn [post group_spec] in *; unfold takes.
  - now intros ->.
  - now intros (d & _ & _ & ->).
  - now intros (d & _ & _ & ->).
  - now intros (d & _ & _ & ->).
  - now intros ->.
  - now intros ->.
  - intros (m & H1 & H2) Hx. apply incl_app_inv in Hs as [Hs1 Hs2].
    apply (IH2 Hs2 m y H2). now apply (IH1 Hs1 x m H1).
  - apply incl_app_inv in Hs as [Hs1 Hs2]. intros [H|H]; eauto.
  - intros H. induction H as [x|x m y Hstep _ IHi]; [auto|].
    intros Hx. apply IHi. apply (IH Hs _ m Hstep).
    cbn [clear_captures captures]. now apply Forall_filter_keeps.
  - intros (m & Hm & ->) Hx. cbn [set_capture captures]. constructor.
    + exists r, x, m. cbn [fst snd]. repeat split; [|exact Hm].
      apply Hs. now left.
    + apply Forall_filter_keeps. apply (IH (fun p Hp => Hs p (or_intror Hp)) x m Hm Hx).
  - intros [->|(m & Hm & ->)] Hx; [exact Hx|]. cbn [captures]. eauto.
Qed.

(** A regex leaves alone the groups that are not its own. *)
Lemma post_frame (inp : ustring) (n : nat) (r : regex) :
  existsb (Nat.eqb n) (groups r) = false ->
  forall x y, post inp r x y ->
              get_capture n (captures y) = get_capture n (captures x).
Proof.
  induction r as [|c| |neg items| | |r1 IH1 r2 IH2|r1 IH1 r2 IH2
                 |min max greedy r IH|m r IH|neg r IH];
    intros Hn x y; cbn [post groups] in *; unfold takes.
  - now intros ->.
  - now intros (d & _ & _ & ->).
  - now intros (d & _ & _ & ->).
  - now intros (d & _ & _ & ->).
  - now intros ->.
  - now intros ->.
  - rewrite existsb_app in Hn. apply orb_false_iff in Hn as [Hn1 Hn2].
    intros (m & H1 & H2). rewrite (IH2 Hn2 m y H2). exact (IH1 Hn1 x m H1).
  - rewrite existsb_app in Hn. apply orb_false_iff in Hn as [Hn1 Hn2].
    intros [H|H]; eauto.
  - intros H. induction H as [x|x m y Hstep _ IHi]; [reflexivity|].
    rewrite IHi, (IH Hn _ m Hstep). now apply get_capture_clear.
  - cbn [existsb] in Hn. apply orb_false_iff in Hn as [Hm Hn].
    apply Nat.eqb_neq in Hm. intros (y' & Hy & ->).
    rewrite get_capture_set_other by exact Hm. exact (IH Hn x y' Hy).
  - intros [->|(m & Hm & ->)]; [reflexivity|]. cbn [captures]. eauto.
Qed.

(** A group that lies on every path through the regex is set. *)
Lemma post_defines (inp : ustring) (n : nat) (r : regex) :
  defines n r = true ->
  forall x y, post inp r x y -> get_capture n (captures y) <> None.
Proof.
  induction r as [|c| |neg items| | |r1 IH1 r2 IH2|r1 IH1 r2 IH2
                 |min max greedy r IH|m r IH|neg r IH];
    cbn [defines]; try discriminate; intros Hd x y; cbn [post].
  - intros (m & H1 & H2). apply orb_true_iff in Hd as [Hd|Hd].
    + apply andb_true_iff in Hd as [Hd1 Hd2]. apply negb_true_iff in Hd2.
      rewrite (post_frame inp n r2 Hd2 m y H2). eauto.
    + eauto.
  - apply andb_true_iff in Hd as [Hd1 Hd2]. intros [H|H]; eauto.
  - intros (y' & Hy & ->). destruct (Nat.eqb m n) eqn:E.
    + apply Nat.eqb_eq in E. subst m. now rewrite get_capture_set.
    + apply Nat.eqb_neq in E. cbn [orb] in Hd.
      rewrite get_capture_set_other by congruence. eauto.
Qed.

(** ** The text of a group *)

Lemma substring_step (s : ustring) (i e : nat) (c : cu) :
  nth_error s i = Some c -> i < e ->
  substring i e s = c :: substring (S i) e s.
Proof.
  intros Hc Hi. unfold substring. rewrite (skipn_nth_error _ _ Hc).
  replace (e - i) with (S (e - S i)) by lia. reflexivity.
Qed.

Lemma iter_takes (inp : ustring) (p : cu -> bool) (ns : list nat) (a b : mstate) :
  iter (fun x y => takes inp p (clear_captures ns x) y) a b ->
  endIndex a <= endIndex b /\
  forallb p (substring (endIndex a) (endIndex b) inp) = true.
Proof.
  induction 1 as [x|x m y (c & Hc & Hp & ->) _ [Hle Hall]].
  - split; [lia|]. unfold substring. now rewrite Nat.sub_diag.
  - cbn [clear_captures endIndex] in *. split; [lia|].
    rewrite (substring_step _ Hc) by lia. cbn [forallb]. now rewrite Hp.
Qed.

Lemma identifier_captured (first part : cu -> bool) (body : regex)
    (inp : ustring) (a b : mstate) :
  identifier_body first part body ->
  post inp body a b ->
  identifier first part (substring (endIndex a) (endIndex b) inp) = true.
Proof.
  intros (items1 & items2 & greedy & -> & H1 & H2). cbn [post groups].
  intros (m & (c & Hc & Hp & ->) & m' & Hi & ->).
  apply iter_takes in Hi as [Hle Hall]. cbn [endIndex] in *.
  rewrite (substring_step _ Hc) by lia. cbn [identifier].
  rewrite (H1 c Hp). cbn [andb]. rewrite forallb_forall in *. auto.
Qed.

Lemma identifier_mono (first part first' part' : cu -> bool) (name : ustring) :
  (forall c, first c = true -> first' c = true) ->
  (forall c, part c = true -> part' c = true) ->
  identifier first part name = true -> identifier first' part' name = true.
Proof.
  intros H1 H2. destruct name as [|c rest]; [discriminate|]. cbn [identifier].
  rewrite !andb_true_iff, !forallb_forall. intros [Hc Hr]. auto.
Qed.

Lemma search_from_post (multiline : bool) (s : ustring) (r : regex) :
  forall n i j y,
    search_from multiline s r n i = Some (j, y) -> post s r (MState j []) y.
Proof.
  induction n as [|n IH]; intros i j y; cbn [search_from];
    destruct (matcher multiline s r (MState i []) Some) as [z|] eqn:E;
    try discriminate;
    try (intros [= <- <-]; apply matcher_post in E as (y' & Hy & [= ->]); exact Hy).
  apply IH.
Qed.

Lemma matchAll_post (multiline : bool) (r : regex) (s : ustring) (mt : rmatch) :
  In mt (matchAll multiline r s) ->
  exists y, post s r (MState (m_start mt) []) y /\ m_caps mt = captures y.
Proof.
  unfold matchAll. generalize (S (List.length s)) 0.
  induction n as [|n IH]; intros lastIndex; cbn [match_all_from]; [intros []|].
  destruct (exec_at multiline r s lastIndex) as [m0|] eqn:E; [|intros []].
  intros [<-|H]; [|now apply IH in H].
  unfold exec_at in E. destruct (Nat.ltb _ _); [discriminate|].
  destruct (search_from multiline s r _ lastIndex) as [[j y]|] eqn:Es;
    [|discriminate].
  injection E as <-. apply search_from_post in Es. now exists y.
Qed.

(** The text of a group is a run of the body of a group with its number. *)
Lemma group_identifier (multiline : bool) (r : regex) (s : ustring) (mt : rmatch)
    (n : nat) (g : ustring) (first part : cu -> bool) :
  In mt (matchAll multiline r s) ->
  (forall body, In (n, body) (group_spec r) -> identifier_body first part body) ->
  group s mt n = Some g ->
  identifier first part g = true.
Proof.
  intros Hin Hspec Hg. apply matchAll_post in Hin as (y & Hy & Ec).
  pose proof (@post_captured s (group_spec r) r (incl_refl _) _ y Hy
                (Forall_nil _)) as Hcaps.
  unfold group in Hg. rewrite Ec in Hg.
  destruct (get_capture n (captures y)) as [[i e]|] eqn:Eg; [|discriminate].
  injection Hg as <-. apply get_capture_In in Eg.
  rewrite Forall_forall in Hcaps.
  destruct (Hcaps _ Eg) as (body & a & b & Hb & Hp & Ha & He).
  cbn [fst snd] in *. subst i e.
  now apply identifier_captured with (body := body); [apply Hspec|].
Qed.

Lemma group_defined (multiline : bool) (r : regex) (s : ustring) (mt : rmatch)
    (n : nat) :
  In mt (matchAll multiline r s) -> defines n r = true -> group s mt n <> None.
Proof.
  intros Hin Hd. apply matchAll_post in Hin as (y & Hy & Ec).
  pose proof (@post_defines s n r Hd _ y Hy) as H.
  unfold group. rewrite Ec.
  now destruct (get_capture n (captures y)) as [[i e]|].
Qed.

(** ** The groups of the profiles *)

Lemma js_function_groups (n : nat) :
  n = 1 \/ n = 2 ->
  forall body, In (n, body) (group_spec js_functionRegex) ->
               identifier_body js_start js_part body.
Proof. intros [->| ->]; identifier_groups. Qed.

Lemma js_class_groups :
  forall body, In (1, body) (group_spec js_classRegex) ->
               identifier_body js_start js_part body.
Proof. identifier_groups. Qed.

Lemma js_export_groups :
  forall body, In (1, body) (group_spec js_exportRegex) ->
               identifier_body js_start js_part body.
Proof. identifier_groups. Qed.

Lemma js_method_groups :
  forall body, In (1, body) (group_spec js_methodRegex) ->
               identifier_body js_start js_part body.
Proof. identifier_groups. Qed.

Lemma js_component_groups :
  forall body, In (1, body) (group_spec js_reactComponentRegex) ->
               identifier_body is_upper js_part body.
Proof. identifier_groups. Qed.

Lemma py_function_groups :
  forall body, In (1, body) (group_spec py_functionRegex) ->
               identifier_body py_start is_word body.
Proof. identifier_groups. Qed.

Lemma py_class_groups :
  forall body, In (1, body) (group_spec py_classRegex) ->
               identifier_body py_start is_word body.
Proof. identifier_groups. Qed.

Lemma py_method_groups :
  forall body, In (1, body) (group_spec py_methodRegex) ->
               identifier_body py_start is_word body.
Proof. identifier_groups. Qed.

(** ** The names that the extractor reports *)

Lemma push_group1_identifier (multiline : bool) (r : regex) (s name : ustring)
    (first part : cu -> bool) :
  (forall body, In (1, body) (group_spec r) -> identifier_body first part body) ->
  In name (push_group1 s (matchAll multiline r s)) ->
  identifier first part name = true.
Proof.
  intros Hspec. unfold push_group1. rewrite in_flat_map. intros (mt & Hmt & H).
  destruct (truthy (group s mt 1)) as [g|] eqn:E; [|destruct H].
  destruct H as [<-|[]]. apply truthy_Some in E.
  exact (@group_identifier _ _ _ _ _ _ _ _ Hmt Hspec E).
Qed.

Lemma new_Set_identifier (multiline : bool) (r : regex) (s name : ustring)
    (first part : cu -> bool) :
  (forall body, In (1, body) (group_spec r) -> identifier_body first part body) ->
  defines 1 r = true ->
  In name (new_Set (map (group1 s) (matchAll multiline r s))) ->
  identifier first part name = true.
Proof.
  intros Hspec Hd. rewrite new_Set_first_seen, first_seen_In, in_map_iff.
  intros (mt & <- & Hmt). unfold group1.
  pose proof (@group_defined _ _ _ _ 1 Hmt Hd) as Hg.
  destruct (group s mt 1) as [g|] eqn:E; [|congruence].
  exact (@group_identifier _ _ _ _ _ _ _ _ Hmt Hspec E).
Qed.

Lemma js_functions_identifier (s name : ustring) :
  In name (js_functions s) -> identifier js_start js_part name = true.
Proof.
  unfold js_functions. rewrite in_flat_map. intros (mt & Hmt & H).
  destruct (or_else (group s mt 1) (group s mt 2)) as [[|c t]|] eqn:E;
    try destruct H as [<-|[]]; try destruct H.
  unfold or_else in E. destruct (truthy (group s mt 1)) as [g|] eqn:E1.
  - injection E as ->. apply truthy_Some in E1.
    exact (@group_identifier _ _ _ _ _ _ _ _ Hmt (@js_function_groups 1 (or_introl eq_refl)) E1).
  - exact (@group_identifier _ _ _ _ _ _ _ _ Hmt (@js_function_groups 2 (or_intror eq_refl)) E).
Qed.

Lemma js_methods_identifier (s name : ustring) :
  In name (js_methods s) -> identifier js_start js_part name = true.
Proof.
  unfold js_methods. rewrite in_flat_map. intros (mt & Hmt & H).
  destruct (truthy (group s mt 1)) as [g|] eqn:E; [|destruct H].
  destruct (method_kept g); [|destruct H].
  destruct H as [<-|[]]. apply truthy_Some in E.
  exact (@group_identifier _ _ _ _ _ _ _ _ Hmt js_method_groups E).
Qed.

Lemma py_start_js (c : cu) : py_start c = true -> js_start c = true.
Proof. unfold js_start, py_start. now intros ->. Qed.

Lemma is_word_js (c : cu) : is_word c = true -> js_part c = true.
Proof. unfold js_part. now intros ->. Qed.

Lemma is_upper_js (c : cu) : is_upper c = true -> js_start c = true.
Proof.
  unfold js_start, is_letter, is_upper. intros ->. now rewrite orb_true_r.
Qed.

(** X21. Every name reported under the functions, classes, exports,
    methods and components is an identifier: a letter, [_] or [$] followed
    by letters, digits, [_] and [$].  The names of components start with an
    upper-case letter, and the names of the indentation-scripting profile
    hold no [$]. *)
Theorem extracted_names_are_identifiers (content ext name : ustring) :
  let a := analyzeFileContent content ext in
  (In name (functions a) \/ In name (classes a) \/ In name (exports a) \/
   In name (methods a) \/ In name (components a) ->
   identifier js_start js_part name = true) /\
  (In name (components a) -> identifier is_upper js_part name = true) /\
  (ueqb ext (u ".py") = true ->
   In name (functions a) \/ In name (classes a) \/ In name (methods a) ->
   identifier py_start is_word name = true).
Proof.
  assert (Hpy : ueqb ext (u ".py") = true ->
                In name (py_functions content) \/
                In name (push_group1 content (matchAll true py_classRegex content)) \/
                In name (py_methods content) ->
                identifier py_start is_word name = true).
  { intros _ [H|[H|H]].
    - exact (@new_Set_identifier true _ _ _ _ _ py_function_groups eq_refl H).
    - exact (@push_group1_identifier true _ _ _ _ _ py_class_groups H).
    - exact (@new_Set_identifier true _ _ _ _ _ py_method_groups eq_refl H). }
  cbv zeta. unfold analyzeFileContent.
  destruct (includes js_exts ext) eqn:Ejs; [|destruct (ueqb ext (u ".py")) eqn:Epy];
    cbn [functions classes exports methods components].
  - split; [|split].
    + intros [H|[H|[H|[H|H]]]].
      * exact (@js_functions_identifier content name H).
      * exact (@push_group1_identifier true _ _ _ _ _ js_class_groups H).
      * exact (@push_group1_identifier true _ _ _ _ _ js_export_groups H).
      * exact (@js_methods_identifier content name H).
      * apply (@identifier_mono is_upper js_part js_start js_part name is_upper_js
                 (fun c H => H)).
        exact (@push_group1_identifier true _ _ _ _ _ js_component_groups H).
    + exact (@push_group1_identifier true _ _ _ _ _ js_component_groups).
    + intros Hext. apply ueqb_eq in Hext. subst ext. discriminate.
  - split; [|split].
    + intros H.
      apply (@identifier_mono py_start is_word js_start js_part name
               py_start_js is_word_js).
      apply Hpy; [reflexivity|].
      destruct H as [H|[H|[H|[H|H]]]];
        [auto | auto | destruct H | auto | destruct H].
    + intros H. destruct H.
    + intros _. now apply Hpy.
  - split; [|split].
    + intros [H|[H|[H|[H|H]]]]; destruct H.
    + intros H. destruct H.
    + intros _ [H|[H|H]]; destruct H.
Qed.

Lemma extracted_names_are_identifiers_witness :
  identifier js_start js_part (u "useStore") = true /\
  identifier py_start is_word (u "_load") = true.
Proof.
  split.
  - apply (proj1 (extracted_names_are_identifiers
                    (u "export function useStore() {}") (u ".ts") (u "useStore"))).
    left. vm_compute. left. reflexivity.
  - apply (proj2 (proj2 (extracted_names_are_identifiers
                           (u "def _load(path):") (u ".py") (u "_load"))));
      [reflexivity|].
    left. vm_compute. left. reflexivity.
Defined.

(** * Rules with one star *)

(** ** Translation *)

Lemma star_split_spec (w a b : ustring) :
  star_split w = Some (a, b) -> w = a ++ ch "*" :: b.
Proof.
  revert a; induction w as [|c w IH]; intros a; cbn [star_split]; [discriminate|].
  destruct (is_ch c "*") eqn:E.
  - intros [= <- <-]. apply N.eqb_eq in E. now subst c.
  - destruct (star_split w) as [[a' b']|]; [|discriminate].
    intros [= <- <-]. cbn [app]. f_equal. now apply IH.
Qed.

Lemma replace1_app (c : cu) (by_ x y : ustring) :
  replace1 c by_ (x ++ y) = replace1 c by_ x ++ replace1 c by_ y.
Proof.
  induction x as [|d x IH]; [reflexivity|]. cbn [app replace1].
  destruct (cu_eqb d c); rewrite IH; [now rewrite app_assoc | reflexivity].
Qed.

Lemma replace2_single (c : cu) (by_ x y : ustring) :
  forallb (fun d => negb (cu_eqb d c)) x = true ->
  forallb (fun d => negb (cu_eqb d c)) y = true ->
  replace2 c by_ (x ++ c :: y) = x ++ c :: y.
Proof.
  intros Hx Hy. induction x as [|d x IH].
  - cbn [app]. destruct y as [|e y]; [reflexivity|].
    change (replace2 c by_ (c :: e :: y))
      with (if cu_eqb c c && cu_eqb e c then by_ ++ replace2 c by_ y
            else c :: replace2 c by_ (e :: y)).
    cbn [forallb] in Hy. apply andb_true_iff in Hy as [He Hy'].
    apply negb_true_iff in He. rewrite He, andb_false_r. f_equal.
    apply replace2_absent. cbn [forallb]. now rewrite He, Hy'.
  - cbn [forallb] in Hx. apply andb_true_iff in Hx as [Hd Hx].
    apply negb_true_iff in Hd. cbn [app].
    destruct (x ++ c :: y) as [|e s] eqn:Es.
    + destruct x; discriminate.
    + change (replace2 c by_ (d :: e :: s))
        with (if cu_eqb d c && cu_eqb e c then by_ ++ replace2 c by_ s
              else d :: replace2 c by_ (e :: s)).
      rewrite Hd. cbn [andb]. f_equal. now apply IH.
Qed.

Lemma escape_dots_replace (w : ustring) :
  replace1 (ch ".") (u "\.") w = escape_dots w.
Proof.
  induction w as [|c w IH]; [reflexivity|].
  cbn [replace1 escape_dots flat_map]. unfold is_ch.
  destruct (cu_eqb c (ch ".")); cbn [app]; now rewrite IH.
Qed.

Lemma escape_dots_no_star (w : ustring) :
  literal_name w = true ->
  forallb (fun x => negb (cu_eqb x (ch "*"))) (escape_dots w) = true.
Proof.
  intros Hw. apply escape_dots_keeps; [exact Hw | | reflexivity | reflexivity].
  intros c Hc. now destruct (@plain_spec c Hc) as (_ & _ & _ & _ & H & _).
Qed.

Lemma escape_dots_no_question (w : ustring) :
  literal_name w = true ->
  forallb (fun x => negb (cu_eqb x (ch "?"))) (escape_dots w) = true.
Proof.
  intros Hw. apply escape_dots_keeps; [exact Hw | | reflexivity | reflexivity].
  intros c Hc. now destruct (@plain_spec c Hc) as (_ & _ & _ & _ & _ & _ & H & _).
Qed.

Lemma regexPattern_star (w a b : ustring) :
  star_split w = Some (a, b) ->
  literal_name a = true -> literal_name b = true ->
  regexPattern w = escape_dots a ++ u "[^/]*" ++ escape_dots b.
Proof.
  intros Hs Ha Hb. apply star_split_spec in Hs. subst w. unfold regexPattern.
  pose proof (escape_dots_no_star a Ha) as Hsa.
  pose proof (escape_dots_no_star b Hb) as Hsb.
  pose proof (escape_dots_no_question a Ha) as Hqa.
  pose proof (escape_dots_no_question b Hb) as Hqb.
  assert (E1 : replace1 (ch ".") (u "\.") (a ++ ch "*" :: b)
               = escape_dots a ++ ch "*" :: escape_dots b).
  { change (ch "*" :: b) with ([ch "*"] ++ b).
    now rewrite !replace1_app, !escape_dots_replace. }
  rewrite E1, (@replace2_single (ch "*") (u ".*") _ _ Hsa Hsb).
  assert (E3 : replace1 (ch "*") (u "[^/]*") (escape_dots a ++ ch "*" :: escape_dots b)
               = escape_dots a ++ u "[^/]*" ++ escape_dots b).
  { change (ch "*" :: escape_dots b) with ([ch "*"] ++ escape_dots b).
    rewrite !replace1_app.
    now rewrite (@replace1_absent (ch "*") (u "[^/]*") _ Hsa),
      (@replace1_absent (ch "*") (u "[^/]*") _ Hsb). }
  rewrite E3, !replace1_app.
  now rewrite (@replace1_absent (ch "?") (u "[^/]") _ Hqa),
    (@replace1_absent (ch "?") (u "[^/]") _ Hqb).
Qed.

(** ** Parsing *)

Lemma parse_star_quiet (r : regex) (s : ustring) :
  quiet s = true -> parse_quantifier r (ch "*" :: s) = Ok (RQuant 0 None true r, s).
Proof.
  intros H. unfold parse_quantifier.
  change (parse_braces (ch "*" :: s)) with (@None (nat * option nat * ustring)).
  cbv iota. unfold take_lazy. destruct s as [|d s]; [reflexivity|].
  cbn [quiet] in H. apply negb_true_iff in H. repeat rewrite orb_false_iff in H.
  destruct H as (((Hs & Hp) & Hq) & Hb). now rewrite Hq.
Qed.

Lemma term_nonslash (f : nat) (s : ustring) (g : nat) :
  quiet s = true ->
  parse_term (S f) (u "[^/]*" ++ s) g = Ok (nonslash, s, g).
Proof.
  intros Hs.
  change (parse_term (S f) (u "[^/]*" ++ s) g)
    with (with_group g (parse_quantifier (RSet true [IChar (ch "/")]) (ch "*" :: s))).
  now rewrite parse_star_quiet.
Qed.

Lemma alt_star_body (a b : ustring) :
  literal_name a = true -> literal_name b = true ->
  forall (tail : ustring) (K : regex) (rest : ustring) (g g' f : nat),
    quiet tail = true ->
    parse_alternative f tail g = Ok (K, rest, g') ->
    exists f', parse_alternative f' ((escape_dots a ++ u "[^/]*" ++ escape_dots b) ++ tail) g
               = Ok (star_body a b K, rest, g').
Proof.
  intros Ha Hb tail K rest g g' f Ht Hp.
  destruct (@alt_chars b Hb tail K rest g g' f Ht Hp) as [f1 H1].
  pose proof (@quiet_escape_dots b tail Hb Ht) as Hq.
  assert (H2 : parse_alternative (S (Nat.max 1 f1))
                 (u "[^/]*" ++ escape_dots b ++ tail) g
               = Ok (RSeq nonslash (chars b K), rest, g')).
  { exact (@alt_cons 1 f1 (ch "[") (u "^/]*" ++ escape_dots b ++ tail) g
             nonslash (chars b K) (escape_dots b ++ tail) rest g g'
             eq_refl (@term_nonslash 0 _ g Hq) H1). }
  rewrite <- !app_assoc.
  exact (@alt_chars a Ha (u "[^/]*" ++ escape_dots b ++ tail) _ rest g g' _
           eq_refl H2).
Qed.

Lemma star_rule_compiles (a b : ustring) :
  literal_name a = true -> literal_name b = true ->
  compile (regexSource (escape_dots a ++ u "[^/]*" ++ escape_dots b))
  = Ok (rule_alternation (star_body a b)).
Proof.
  intros Ha Hb. apply anchored_rule_compiles.
  - intros tail Ht. rewrite <- app_assoc. now apply quiet_escape_dots.
  - now apply alt_star_body.
Qed.

(** ** Matching the name of an entry *)

Lemma post_needs (inp : ustring) (c : cu) (r : regex) :
  needs c r = true -> forall x y, post inp r x y -> In c inp.
Proof.
  induction r as [|d| |neg items| | |r1 IH1 r2 IH2|r1 IH1 r2 IH2
                 |min max greedy r IH|n r IH|neg r IH];
    cbn [needs]; try discriminate; intros Hn x y; cbn [post].
  - intros (e & He & Hp & _). apply N.eqb_eq in Hn, Hp. subst.
    now apply nth_error_In in He.
  - intros (m & H1 & H2). apply orb_true_iff in Hn as [Hn|Hn]; eauto.
  - apply andb_true_iff in Hn as [Hn1 Hn2]. intros [H|H]; eauto.
  - intros (m & Hm & _). eauto.
Qed.

(** A regex that needs a separator matches no name of an entry. *)
Lemma test_needs_slash (r : regex) (name : ustring) :
  needs (ch "/") r = true -> entry_name name = true -> test false r name = false.
Proof.
  intros Hn He. unfold test, exec_at. destruct (Nat.ltb _ _); [reflexivity|].
  destruct (search_from false name r _ 0) as [[j y]|] eqn:Es; [|reflexivity].
  apply search_from_post in Es. apply (@post_needs name (ch "/") r Hn) in Es.
  unfold entry_name in He. rewrite forallb_forall in He. specialize (He _ Es).
  discriminate.
Qed.

Lemma needs_chars (c : cu) (w : ustring) (K : regex) :
  needs c K = true -> needs c (chars w K) = true.
Proof.
  intros H. induction w as [|d w IH]; [exact H|]. cbn [chars needs].
  now rewrite IH, orb_true_r.
Qed.

(** On the name of an entry only the first anchor form can match. *)
Lemma rule_alternation_on_name (body : regex -> regex) (name : ustring) :
  (forall K, needs (ch "/") K = true -> needs (ch "/") (body K) = true) ->
  entry_name name = true ->
  test false (rule_alternation body) name = test false (form_of FullPath body) name.
Proof.
  intros Hb Hn. unfold rule_alternation. rewrite !test_alt.
  rewrite (@test_needs_slash (form_of DirectoryPrefix body) name),
    (@test_needs_slash (form_of BasenameSuffix body) name),
    (@test_needs_slash (form_of NestedPrefix body) name); try exact Hn.
  - now rewrite !orb_false_r.
  - reflexivity.
  - reflexivity.
  - cbn [form_of needs orb]. now apply Hb.
Qed.

Lemma endsWith_suffix (p s : ustring) :
  endsWith p s = true <-> has_suffix p s.
Proof.
  unfold endsWith. rewrite startsWith_prefix. split.
  - intros [r Hr]. exists (rev r).
    rewrite <- (rev_involutive s), Hr, rev_app_distr. now rewrite rev_involutive.
  - intros [r ->]. exists (rev r). now rewrite rev_app_distr.
Qed.

(** A name that starts with [a] and ends with [b] without overlap. *)
Lemma affixes_split (a b name : ustring) :
  startsWith a name && endsWith b name
  && Nat.leb (List.length a + List.length b) (List.length name) = true
  <-> exists mid, name = a ++ mid ++ b.
Proof.
  rewrite !andb_true_iff, startsWith_prefix, endsWith_suffix, Nat.leb_le. split.
  - intros [[[r1 H1] [r2 H2]] Hl]. rewrite H1 in H2.
    destruct (app_eq_app _ _ _ _ H2) as [l [[Ha Hb]|[Hr Hb]]].
    + assert (l = []).
      { apply (f_equal (@List.length cu)) in Ha, Hb. rewrite H1 in Hl.
        rewrite !length_app in *. destruct l; [reflexivity|]. cbn [List.length] in *.
        lia. }
      subst l. rewrite app_nil_r in Ha. cbn [app] in Hb. subst.
      exists []. reflexivity.
    + exists l. now rewrite H1, Hb.
  - intros [mid ->]. repeat split.
    + now exists (mid ++ b).
    + exists (a ++ mid). now rewrite app_assoc.
    + rewrite !length_app. lia.
Qed.

Lemma star_full (a b name : ustring) :
  entry_name name = true ->
  test false (form_of FullPath (star_body a b)) name = true
  <-> exists mid, name = a ++ mid ++ b.
Proof.
  intros Hn. unfold form_of, star_body. rewrite test_bol, matcher_chars.
  cbn [skipn Nat.add]. split.
  - destruct (startsWith a name) eqn:Ea; [|congruence].
    apply startsWith_prefix in Ea as [r ->].
    rewrite matcher_star_nonslash. intros (mid & rest & E & Hm & Hk).
    rewrite skipn_exact in E. subst r.
    apply matcher_chars_eol in Hk.
    + rewrite app_assoc, <- length_app, skipn_exact in Hk. subst rest. now exists mid.
    + rewrite !length_app. lia.
  - intros [mid ->].
    assert (Ea : startsWith a (a ++ mid ++ b) = true)
      by (apply startsWith_prefix; now exists (mid ++ b)).
    rewrite Ea, matcher_star_nonslash. exists mid, b. rewrite skipn_exact.
    repeat split.
    + unfold entry_name in Hn. rewrite !forallb_app in Hn.
      apply andb_true_iff in Hn as [_ Hn]. apply andb_true_iff in Hn as [Hn _].
      rewrite forallb_forall in Hn. apply Forall_forall. intros c Hc.
      specialize (Hn c Hc). apply andb_true_iff in Hn as [Hn _].
      now apply negb_true_iff in Hn.
    + apply matcher_chars_eol; [rewrite !length_app; lia|].
      now rewrite app_assoc, <- length_app, skipn_exact.
Qed.

(** What a simple rule answers on the name of an entry. *)
Lemma simple_rule_on_name (pattern name : ustring) :
  simple_rule pattern = true ->
  entry_name name = true ->
  pattern_test name pattern = Ok (simple_rule_matches pattern name).
Proof.
  unfold simple_rule, simple_rule_matches. intros Hs Hn.
  destruct (star_split (normalizePattern pattern)) as [[a b]|] eqn:E.
  - apply andb_true_iff in Hs as [Ha Hb]. unfold pattern_test.
    rewrite (@regexPattern_star _ a b E Ha Hb), (@star_rule_compiles a b Ha Hb). f_equal.
    rewrite rule_alternation_on_name; [| |exact Hn].
    + apply eq_true_iff_eq. now rewrite (@star_full a b name Hn), affixes_split.
    + intros K HK. unfold star_body. apply needs_chars. cbn [needs].
      rewrite needs_chars by exact HK. apply orb_true_r.
  - now apply literal_rule_on_name.
Qed.

Lemma some_simple_rules (rules : list ustring) (name : ustring) :
  forallb simple_rule rules = true ->
  entry_name name = true ->
  some (pattern_test name) rules
  = Ok (existsb (fun p => simple_rule_matches p name) rules).
Proof.
  intros Hr Hn. induction rules as [|p rules IH]; [reflexivity|].
  cbn [forallb] in Hr. apply andb_true_iff in Hr as [Hp Hr].
  cbn [some existsb]. rewrite (@simple_rule_on_name p name Hp Hn).
  destruct (simple_rule_matches p name); [reflexivity | now apply IH].
Qed.

(** X22. A rule set made of simple rules (literal names, and literal texts
    around one star) never fails during a scan, and it ignores an entry
    exactly when one of the rules fits its name: the name is the rule, or it
    starts with the text before the star and ends with the text after it. *)
Theorem simple_rules_decide_by_name (rules : list ustring) (name : ustring) :
  forallb simple_rule rules = true ->
  entry_name name = true ->
  isIgnored name rules = Ok (existsb (fun p => simple_rule_matches p name) rules).
Proof.
  intros Hr Hn. unfold isIgnored. rewrite (entry_name_normalized _ Hn).
  now apply some_simple_rules.
Qed.

Lemma simple_rules_decide_by_name_witness :
  isIgnored (u "notes.bak.txt") [u "build/"; u "notes.*.txt"; u "("] = Ok true /\
  isIgnored (u "notes.txt") [u "build/"; u "notes.*.txt"] = Ok false.
Proof.
  split.
  - assert (H : isIgnored (u "notes.bak.txt") [u "build/"; u "notes.*.txt"]
                = Ok true).
    { apply (simple_rules_decide_by_name [u "build/"; u "notes.*.txt"]
               (u "notes.bak.txt")); vm_compute; reflexivity. }
    unfold isIgnored in *.
    change [u "build/"; u "notes.*.txt"; u "("]
      with ([u "build/"; u "notes.*.txt"] ++ [u "("]).
    now rewrite some_app, H.
  - apply (simple_rules_decide_by_name [u "build/"; u "notes.*.txt"]
             (u "notes.txt")); vm_compute; reflexivity.
Defined.

(** ** The default rules *)

Lemma ending_only (b name : ustring) :
  startsWith [] name && endsWith b name
  && Nat.leb (List.length (@nil cu) + List.length b) (List.length name)
  = endsWith b name.
Proof.
  cbn [startsWith andb List.length Nat.add].
  destruct (endsWith b name) eqn:E; [|reflexivity]. cbn [andb].
  apply endsWith_suffix in E as [r ->]. apply Nat.leb_le.
  rewrite length_app. lia.
Qed.

Lemma leading_only (a name : ustring) :
  startsWith a name && endsWith [] name
  && Nat.leb (List.length a + List.length (@nil cu)) (List.length name)
  = startsWith a name.
Proof.
  unfold endsWith. cbn [rev startsWith List.length]. rewrite andb_true_r.
  destruct (startsWith a name) eqn:E; [|reflexivity]. cbn [andb].
  apply startsWith_prefix in E as [r ->]. apply Nat.leb_le.
  rewrite length_app. lia.
Qed.

Lemma default_rules_by_name (name : ustring) :
  existsb (fun p => simple_rule_matches p name) defaultPatterns
  = default_ignored name.
Proof.
  transitivity
    (ueqb name (u "node_modules") || (ueqb name (u ".git")
     || (ueqb name (u "__pycache__")
     || ((startsWith [] name && endsWith (u ".pyc") name
          && Nat.leb (List.length (@nil cu) + List.length (u ".pyc")) (List.length name))
     || ((startsWith [] name && endsWith (u ".pyo") name
          && Nat.leb (List.length (@nil cu) + List.length (u ".pyo")) (List.length name))
     || ((startsWith [] name && endsWith (u ".pyd") name
          && Nat.leb (List.length (@nil cu) + List.length (u ".pyd")) (List.length name))
     || (ueqb name (u ".Python")
     || ((startsWith [] name && endsWith (u ".so") name
          && Nat.leb (List.length (@nil cu) + List.length (u ".so")) (List.length name))
     || (ueqb name (u "env") || (ueqb name (u "venv") || (ueqb name (u ".env")
     || (ueqb name (u ".venv") || (ueqb name (u "ENV") || (ueqb name (u "env.bak")
     || (ueqb name (u "venv.bak") || false)))))))))))))));
    [reflexivity|].
  rewrite !ending_only. unfold default_ignored, default_names, default_endings.
  cbn [includes existsb].
  repeat match goal with
         | |- context [ueqb name ?p] =>
             let b := fresh "b" in generalize (ueqb name p); intros b
         | |- context [endsWith ?p name] =>
             let b := fresh "b" in generalize (endsWith p name); intros b
         end.
  apply eq_true_iff_eq. rewrite !orb_true_iff. intuition discriminate.
Qed.

(** X23. During a scan the default rules leave out exactly the entries
    whose name is one of eleven names or ends with one of four endings;
    when the workspace has no ignore-file, the entries whose name starts
    with a dot are left out as well. *)
Theorem default_rules_decide_by_name (name : ustring) :
  entry_name name = true ->
  isIgnored name defaultPatterns = Ok (default_ignored name) /\
  isIgnored name (loadGitignorePatterns Absent)
  = Ok (startsWith (u ".") name || default_ignored name).
Proof.
  intros Hn. unfold isIgnored. rewrite (entry_name_normalized _ Hn). split.
  - rewrite some_simple_rules by (reflexivity || exact Hn).
    now rewrite default_rules_by_name.
  - rewrite some_simple_rules by (reflexivity || exact Hn).
    change (loadGitignorePatterns Absent) with (u ".*" :: defaultPatterns).
    cbn [existsb]. rewrite default_rules_by_name. f_equal. f_equal.
    change (simple_rule_matches (u ".*") name)
      with (startsWith (u ".") name && endsWith [] name
            && Nat.leb (List.length (u ".") + List.length (@nil cu)) (List.length name)).
    apply leading_only.
Qed.

Lemma default_rules_decide_by_name_witness :
  isIgnored (u "cache.pyc") defaultPatterns = Ok true /\
  isIgnored (u "environment") (loadGitignorePatterns Absent) = Ok false.
Proof.
  split.
  - exact (proj1 (@default_rules_decide_by_name (u "cache.pyc") eq_refl)).
  - exact (proj2 (@default_rules_decide_by_name (u "environment") eq_refl)).
Defined.
